(** * Wallet connection brokers: GetKeplrProvider and GetWalletProvider

    A shallow embedding of the two connection brokers of the repository
    ([src/providers/wc-keplr.tsx] and [src/components/GetWalletProvider.tsx])
    and of the REST broadcast helper [sendTxWC], with the properties the
    specification states about them.

    The brokers are event driven: React state, refs, the [EventEmitter]
    instance and the promises handed to callers are fields of an explicit
    state record; closures registered as listeners are first-order handler
    values naming the request that created them; every entry point of the
    code (a call of the public API, a callback of a dialog, a callback of the
    WalletConnect client, the completion of an awaited promise) is one
    event of a step function. *)

From Stdlib Require Import ZArith Ascii String List Lia.
From stdpp Require Import base option list strings gmap.

Open Scope string_scope.
Open Scope list_scope.

(** * The model *)

(** ** Promises *)

(** The state of a promise.  [reason] is what a rejection carries. *)
Inductive Settlement (V E : Type) : Type :=
| Pending
| Resolved (value : V)
| Rejected (reason : E).
Arguments Pending {V E}.
Arguments Resolved {V E} value.
Arguments Rejected {V E} reason.

Definition isPending {V E} (p : Settlement V E) : bool :=
  match p with Pending => true | _ => false end.

Definition isSettled {V E} (p : Settlement V E) : bool := negb (isPending p).

(** [resolve]/[reject] of a promise: the first call decides, later calls
    are ignored. *)
Definition settleWith {V E} (o p : Settlement V E) : Settlement V E :=
  if isPending p then o else p.

(** What a list of promises can become: a promise that is settled keeps
    its outcome. *)
Definition keepsSettled {V E} (ps ps' : list (Settlement V E)) : Prop :=
  ∀ r o, ps !! r = Some o → isSettled o = true → ps' !! r = Some o.

(** ** EventEmitter (eventemitter3)

    [_events] maps an event name to its listeners in registration order.
    [on] appends; [off(name)] called without a listener drops every listener
    of that name; [emit] calls the listeners that were registered when the
    emission started. *)
Section EventEmitter.
Context {H : Type}.

Definition listeners (name : string) (ev : gmap string (list H)) : list H :=
  default [] (ev !! name).

Definition on (name : string) (h : H) (ev : gmap string (list H))
  : gmap string (list H) :=
  <[name := listeners name ev ++ [h]]> ev.

Definition off (name : string) (ev : gmap string (list H))
  : gmap string (list H) :=
  delete name ev.

(** No listener at all: no request is waiting for an emission. *)
Definition quiet (ev : gmap string (list H)) : Prop :=
  ∀ name, listeners name ev = [].

End EventEmitter.

Arguments listeners : simpl never.
Arguments on : simpl never.
Arguments off : simpl never.

(** ** The broadcast helper [sendTxWC] *)
Module SendTx.

(** JSON data as the REST endpoint answers it. *)
#[local] Unset Elimination Schemes.
Inductive Json : Type :=
| JNull
| JBool (b : bool)
| JNum (n : Z)
| JStr (s : string)
| JArr (items : list Json)
| JObj (fields : list (string * Json)).
#[local] Set Elimination Schemes.

(** Reading a property: [None] is [undefined]. *)
Fixpoint field (name : string) (fields : list (string * Json)) : option Json :=
  match fields with
  | [] => None
  | (k, v) :: rest => if String.eqb k name then Some v else field name rest
  end.

Inductive Exception : Type :=
| TypeError
| RequestFailed (cause : string)
| Error (message : option Json).

Inductive Outcome : Type :=
| Returned (bytes : list Z)
| Thrown (e : Exception).

(** [v.name] for the names read here ([tx_response], [code], [raw_log],
    [txhash]) on a value that is neither [undefined] nor [null]: a property
    of an object; a primitive and an array have none of these. *)
Definition prop (name : string) (v : Json) : option Json :=
  match v with
  | JObj fields => field name fields
  | _ => None
  end.

(** [o.name] on a value that may be [undefined]: reading a property of
    [undefined] or [null] throws. *)
Definition getProp (name : string) (o : option Json)
  : Exception + option Json :=
  match o with
  | None | Some JNull => inl TypeError
  | Some v => inr (prop name v)
  end.

(** [x != null]: neither [undefined] nor [null]. *)
Definition notNullish (x : option Json) : bool :=
  match x with
  | None | Some JNull => false
  | Some _ => true
  end.

(** [x !== 0]. *)
Definition notStrictlyZero (x : option Json) : bool :=
  match x with
  | Some (JNum 0) => false
  | _ => true
  end.

(** *** [Buffer.from(s, "hex")] of the [buffer] package

    [fromString] allocates half the length of the string, rounded down,
    and [hexWrite] fills it pair by pair with [parseInt(pair, 16)], stopping
    at the first pair [parseInt] makes nothing of; the buffer is cut there.
    Characters are code units; those of code 0 to 255 are the ones a
    [string] holds. *)
Definition hexDigit (c : ascii) : option Z :=
  let n := Z.of_nat (nat_of_ascii c) in
  if (48 <=? n)%Z && (n <=? 57)%Z then Some (n - 48)%Z
  else if (65 <=? n)%Z && (n <=? 70)%Z then Some (n - 55)%Z
  else if (97 <=? n)%Z && (n <=? 102)%Z then Some (n - 87)%Z
  else None.

(** The white space [parseInt] skips: TAB, LF, VT, FF, CR, SP, NBSP. *)
Definition isWhiteSpace (c : ascii) : bool :=
  let n := nat_of_ascii c in
  (Nat.leb 9 n && Nat.leb n 13) || Nat.eqb n 32 || Nat.eqb n 160.

(** [parseInt(pair, 16)] of two characters; [None] is [NaN].  Leading white
    space is skipped, then a sign is read, then the prefix [0x], then the
    longest run of hexadecimal digits: what follows the run is ignored, and
    an empty run is [NaN]. *)
Definition parseInt16 (a b : ascii) : option Z :=
  if isWhiteSpace a then hexDigit b
  else if Ascii.eqb a "+" then hexDigit b
  else if Ascii.eqb a "-" then Z.opp <$> hexDigit b
  else
    match hexDigit a with
    | None => None
    | Some h =>
        if Ascii.eqb a "0" && (Ascii.eqb b "x" || Ascii.eqb b "X") then None
        else
          match hexDigit b with
          | Some l => Some (16 * h + l)%Z
          | None => Some h
          end
    end.

(** [hexWrite]; the store into the [Uint8Array] keeps the number modulo
    256. *)
Fixpoint hexDecode (s : string) : list Z :=
  match s with
  | String a (String b rest) =>
      match parseInt16 a b with
      | Some parsed => (parsed mod 256)%Z :: hexDecode rest
      | None => []
      end
  | _ => []
  end.

Inductive BroadcastMode : Type := async | block | sync.

Inductive Tx : Type :=
| StdTx (tx : Json)
| TxBytes (bytes : list Z).

Inductive Params : Type :=
| ProtoParams (tx_bytes : string) (mode : string)
| LegacyParams (tx : Json) (mode : BroadcastMode).

Record ChainInfo : Type := { chainId : string; rest : string }.

Inductive PostResult : Type :=
| PostRejected (cause : string)
| PostData (data : option Json).

Definition protoMode (mode : BroadcastMode) : string :=
  match mode with
  | async => "BROADCAST_MODE_ASYNC"
  | block => "BROADCAST_MODE_BLOCK"
  | sync => "BROADCAST_MODE_SYNC"
  end.

Definition isProtoTx (tx : Tx) : bool :=
  match tx with TxBytes _ => true | StdTx _ => false end.

(** Line 57: the path posted to. *)
Definition endpoint (tx : Tx) : string :=
  if isProtoTx tx then "/cosmos/tx/v1beta1/txs" else "/txs".

(** Line 61. *)
Definition txResponseOf (proto : bool) (data : option Json)
  : Exception + option Json :=
  if proto then getProp "tx_response" data else inr data.

Section WithCollaborators.
(** What [Buffer.from] makes of an array or of an object (the conversion
    of array-likes, with the coercions of their elements) is the library's:
    a collaborator of [sendTxWC], like the chain table of [../config], the
    base64 encoding of [Buffer] and the HTTP POST of Axios. *)
Variable bufferFromObject : Json → Outcome.
Variable EmbedChainInfos : list ChainInfo.
Variable base64 : list Z → string.
Variable post : string → string → Params → PostResult.

(** [Buffer.from(x, "hex")]: a string is decoded; [undefined], [null], a
    number and a boolean are refused with a [TypeError]. *)
Definition bufferFromHex (x : option Json) : Outcome :=
  match x with
  | Some (JStr s) => Returned (hexDecode s)
  | None | Some JNull | Some (JBool _) | Some (JNum _) => Thrown TypeError
  | Some (JArr items) => bufferFromObject (JArr items)
  | Some (JObj fields) => bufferFromObject (JObj fields)
  end.

(** Lines 61-67: what [sendTxWC] does with the answer of the endpoint. *)
Definition handleResponse (proto : bool) (data : option Json) : Outcome :=
  match txResponseOf proto data with
  | inl e => Thrown e
  | inr txResponse =>
      match getProp "code" txResponse with
      | inl e => Thrown e
      | inr code =>
          if notNullish code && notStrictlyZero code then
            match getProp "raw_log" txResponse with
            | inl e => Thrown e
            | inr raw_log => Thrown (Error raw_log)
            end
          else
            match getProp "txhash" txResponse with
            | inl e => Thrown e
            | inr txhash => bufferFromHex txhash
            end
      end
  end.

(** Lines 35-54. *)
Definition paramsOf (tx : Tx) (mode : BroadcastMode) : Params :=
  match tx with
  | TxBytes bytes => ProtoParams (base64 bytes) (protoMode mode)
  | StdTx t => LegacyParams t mode
  end.

Definition sendTxWC (chain : string) (tx : Tx) (mode : BroadcastMode)
  : Outcome :=
  match List.find (λ chainInfo, String.eqb (chainId chainInfo) chain)
                  EmbedChainInfos with
  | None => Thrown TypeError
  | Some chainInfo =>
      match post (rest chainInfo) (endpoint tx) (paramsOf tx mode) with
      | PostRejected cause => Thrown (RequestFailed cause)
      | PostData data => handleResponse (isProtoTx tx) data
      end
  end.
End WithCollaborators.

(** The spec's reading of the [code] field: it is "0 or absent" when the
    property is missing, [null], or the number 0. *)
Definition zeroOrAbsent (code : option Json) : Prop :=
  code = None ∨ code = Some JNull ∨ code = Some (JNum 0).

(** The spec's "byte sequence hex-decoded from the [txhash] field", read the
    other way round: the hexadecimal text of a sequence of bytes, two digits
    a byte, the high one first, in capitals or in small letters. *)
Definition isByte (b : Z) : Prop := (0 ≤ b < 256)%Z.

Definition hexChar (upper : bool) (d : Z) : ascii :=
  ascii_of_nat
    (Z.to_nat (if (d <? 10)%Z then 48 + d
               else if upper then 55 + d else 87 + d)).

Fixpoint hexText (upper : bool) (bytes : list Z) : string :=
  match bytes with
  | [] => EmptyString
  | b :: rest =>
      String (hexChar upper (b / 16))
        (String (hexChar upper (b mod 16)) (hexText upper rest))
  end.

(** The endpoint answered [data] to the request [sendTxWC] makes for these
    arguments: the chain is in the table and the POST was fulfilled. *)
Definition answered (chains : list ChainInfo) (base64 : list Z → string)
  (post : string → string → Params → PostResult) (chain : string) (tx : Tx)
  (mode : BroadcastMode) (data : option Json) : Prop :=
  ∃ chainInfo,
    List.find (λ c, String.eqb (chainId c) chain) chains = Some chainInfo
    ∧ post (rest chainInfo) (endpoint tx) (paramsOf base64 tx mode)
      = PostData data.

(** Every character is a hexadecimal digit. *)
Fixpoint allHex (s : string) : bool :=
  match s with
  | EmptyString => true
  | String c rest =>
      match hexDigit c with
      | Some _ => allHex rest
      | None => false
      end
  end.

End SendTx.

(** Statements executed one after the other on a state. *)
Definition seq {S : Type} (body : list (S → S)) (s : S) : S :=
  foldl (λ s stmt, stmt s) s body.

(** Every run of the statement relates the state before to the one after. *)
Definition respects {S : Type} (R : S → S → Prop) (stmt : S → S) : Prop :=
  ∀ s, R s (stmt s).

(** ** The Keplr broker: [GetKeplrProvider] of [src/providers/wc-keplr.tsx] *)
Module Keplr.

Inductive ConnectionType : Type := extension | wallet_connect.

(** A [Keplr] object: the one the page injects (found by
    [getKeplrFromWindow]) or a [KeplrWalletConnectV1] around a connector. *)
Inductive KeplrObject : Type :=
| Injected (ident : nat)
| KeplrWalletConnectV1 (connector : nat).

(** The promise [getKeplr] returns: [Promise<Keplr | undefined>]; a
    rejection carries nothing ([reject()]) or the error of the connector. *)
Abbreviation Promise := (Settlement (option KeplrObject) (option string)).

(** The closures registered on [eventListener], by the [getKeplr] call
    (the index of its promise) whose variables they capture. *)
Inductive Listener : Type :=
| OnModalClose (request : nat)              (* line 148 *)
| OnSelectExtension (request : nat)         (* line 154 *)
| OnSelectWalletConnect (request : nat)     (* line 164 *)
| OnWcQrModalClose (request : nat).         (* line 181 *)

(** A [WalletConnect] instance.  [owner] is the call whose [callbackClosed]
    its [qrcodeModal.open] hook assigns; the hook of the connector built at
    line 165 also hides the selection dialog; [onConnect] tells whether the
    listener of line 193 is registered on it. *)
Record Connector : Type := {
  owner : nat;
  hidesSelection : bool;
  connected : bool;
  onConnect : bool
}.

(** The callbacks waiting for a [getKeplrFromWindow()] promise. *)
Inductive Continuation : Type :=
| ThenDefault (request : nat)     (* line 102 *)
| ThenSelected (request : nat).   (* line 156 *)

(** Calls the broker makes: to its collaborators and to the [resolve] and
    [reject] of a promise it created. *)
Inductive Call : Type :=
| GetKeplrFromWindow
| NewWalletConnect (connector : nat)
| CreateSession (connector : nat)
| CallbackClosed (connector : nat)
| Resolve (request : nat) (value : option KeplrObject)
| Reject (request : nat) (reason : option string).

Record State : Type := {
  window : bool;                 (* typeof window !== "undefined" *)
  sessionStored : bool;          (* what a new WalletConnect finds: connected *)
  isModalOpen : bool;
  wcUri : string;
  lastUsedKeplrRef : option KeplrObject;
  defaultConnectionTypeRef : option ConnectionType;
  connectionType : option ConnectionType;
  eventListener : gmap string (list Listener);
  promises : list Promise;       (* one per getKeplr call, in call order *)
  callbackClosed : gmap nat nat; (* [let callbackClosed] of each call *)
  connectors : list Connector;
  probes : list (option Continuation);
  calls : list Call
}.

Definition initial (w stored : bool) : State :=
  {| window := w; sessionStored := stored; isModalOpen := false; wcUri := "";
     lastUsedKeplrRef := None; defaultConnectionTypeRef := None;
     connectionType := None; eventListener := ∅; promises := [];
     callbackClosed := ∅; connectors := []; probes := []; calls := [] |}.

(** *** Assignments *)

Definition setSessionStored (b : bool) (s : State) : State :=
  {| window := window s; sessionStored := b; isModalOpen := isModalOpen s;
     wcUri := wcUri s; lastUsedKeplrRef := lastUsedKeplrRef s;
     defaultConnectionTypeRef := defaultConnectionTypeRef s;
     connectionType := connectionType s; eventListener := eventListener s;
     promises := promises s; callbackClosed := callbackClosed s;
     connectors := connectors s; probes := probes s; calls := calls s |}.

Definition setIsModalOpen (b : bool) (s : State) : State :=
  {| window := window s; sessionStored := sessionStored s; isModalOpen := b;
     wcUri := wcUri s; lastUsedKeplrRef := lastUsedKeplrRef s;
     defaultConnectionTypeRef := defaultConnectionTypeRef s;
     connectionType := connectionType s; eventListener := eventListener s;
     promises := promises s; callbackClosed := callbackClosed s;
     connectors := connectors s; probes := probes s; calls := calls s |}.

Definition setWCUri (uri : string) (s : State) : State :=
  {| window := window s; sessionStored := sessionStored s;
     isModalOpen := isModalOpen s; wcUri := uri;
     lastUsedKeplrRef := lastUsedKeplrRef s;
     defaultConnectionTypeRef := defaultConnectionTypeRef s;
     connectionType := connectionType s; eventListener := eventListener s;
     promises := promises s; callbackClosed := callbackClosed s;
     connectors := connectors s; probes := probes s; calls := calls s |}.

Definition setLastUsedKeplr (k : option KeplrObject) (s : State) : State :=
  {| window := window s; sessionStored := sessionStored s;
     isModalOpen := isModalOpen s; wcUri := wcUri s; lastUsedKeplrRef := k;
     defaultConnectionTypeRef := defaultConnectionTypeRef s;
     connectionType := connectionType s; eventListener := eventListener s;
     promises := promises s; callbackClosed := callbackClosed s;
     connectors := connectors s; probes := probes s; calls := calls s |}.

Definition setDefaultConnectionType (t : option ConnectionType) (s : State)
  : State :=
  {| window := window s; sessionStored := sessionStored s;
     isModalOpen := isModalOpen s; wcUri := wcUri s;
     lastUsedKeplrRef := lastUsedKeplrRef s; defaultConnectionTypeRef := t;
     connectionType := connectionType s; eventListener := eventListener s;
     promises := promises s; callbackClosed := callbackClosed s;
     connectors := connectors s; probes := probes s; calls := calls s |}.

Definition setConnectionType (t : option ConnectionType) (s : State) : State :=
  {| window := window s; sessionStored := sessionStored s;
     isModalOpen := isModalOpen s; wcUri := wcUri s;
     lastUsedKeplrRef := lastUsedKeplrRef s;
     defaultConnectionTypeRef := defaultConnectionTypeRef s;
     connectionType := t; eventListener := eventListener s;
     promises := promises s; callbackClosed := callbackClosed s;
     connectors := connectors s; probes := probes s; calls := calls s |}.

Definition setEventListener (ev : gmap string (list Listener)) (s : State)
  : State :=
  {| window := window s; sessionStored := sessionStored s;
     isModalOpen := isModalOpen s; wcUri := wcUri s;
     lastUsedKeplrRef := lastUsedKeplrRef s;
     defaultConnectionTypeRef := defaultConnectionTypeRef s;
     connectionType := connectionType s; eventListener := ev;
     promises := promises s; callbackClosed := callbackClosed s;
     connectors := connectors s; probes := probes s; calls := calls s |}.

Definition setPromises (ps : list Promise) (s : State) : State :=
  {| window := window s; sessionStored := sessionStored s;
     isModalOpen := isModalOpen s; wcUri := wcUri s;
     lastUsedKeplrRef := lastUsedKeplrRef s;
     defaultConnectionTypeRef := defaultConnectionTypeRef s;
     connectionType := connectionType s; eventListener := eventListener s;
     promises := ps; callbackClosed := callbackClosed s;
     connectors := connectors s; probes := probes s; calls := calls s |}.

Definition setCallbackClosed (cb : gmap nat nat) (s : State) : State :=
  {| window := window s; sessionStored := sessionStored s;
     isModalOpen := isModalOpen s; wcUri := wcUri s;
     lastUsedKeplrRef := lastUsedKeplrRef s;
     defaultConnectionTypeRef := defaultConnectionTypeRef s;
     connectionType := connectionType s; eventListener := eventListener s;
     promises := promises s; callbackClosed := cb;
     connectors := connectors s; probes := probes s; calls := calls s |}.

Definition setConnectors (cs : list Connector) (s : State) : State :=
  {| window := window s; sessionStored := sessionStored s;
     isModalOpen := isModalOpen s; wcUri := wcUri s;
     lastUsedKeplrRef := lastUsedKeplrRef s;
     defaultConnectionTypeRef := defaultConnectionTypeRef s;
     connectionType := connectionType s; eventListener := eventListener s;
     promises := promises s; callbackClosed := callbackClosed s;
     connectors := cs; probes := probes s; calls := calls s |}.

Definition setProbes (ps : list (option Continuation)) (s : State) : State :=
  {| window := window s; sessionStored := sessionStored s;
     isModalOpen := isModalOpen s; wcUri := wcUri s;
     lastUsedKeplrRef := lastUsedKeplrRef s;
     defaultConnectionTypeRef := defaultConnectionTypeRef s;
     connectionType := connectionType s; eventListener := eventListener s;
     promises := promises s; callbackClosed := callbackClosed s;
     connectors := connectors s; probes := ps; calls := calls s |}.

Definition call (c : Call) (s : State) : State :=
  {| window := window s; sessionStored := sessionStored s;
     isModalOpen := isModalOpen s; wcUri := wcUri s;
     lastUsedKeplrRef := lastUsedKeplrRef s;
     defaultConnectionTypeRef := defaultConnectionTypeRef s;
     connectionType := connectionType s; eventListener := eventListener s;
     promises := promises s; callbackClosed := callbackClosed s;
     connectors := connectors s; probes := probes s;
     calls := calls s ++ [c] |}.

(** *** Promises, listeners, collaborators *)

(** The promise a call returns is the next entry of [promises]. *)
Definition newPromise (p : Promise) (s : State) : State :=
  setPromises (promises s ++ [p]) s.

Definition fulfil (r : nat) (o : Promise) (s : State) : State :=
  setPromises (alter (settleWith o) r (promises s)) s.

Definition resolve (r : nat) (v : option KeplrObject) : State → State :=
  seq [call (Resolve r v); fulfil r (Resolved v)].

Definition reject (r : nat) (reason : option string) : State → State :=
  seq [call (Reject r reason); fulfil r (Rejected reason)].

Definition eventListener_on (name : string) (h : Listener) (s : State) : State :=
  setEventListener (on name h (eventListener s)) s.

Definition eventListener_off (name : string) (s : State) : State :=
  setEventListener (off name (eventListener s)) s.

(** [getKeplrFromWindow().then(k)]. *)
Definition getKeplrFromWindow (k : Continuation) : State → State :=
  seq [call GetKeplrFromWindow; λ s, setProbes (probes s ++ [Some k]) s].

(** [new WalletConnect({...})]: the new connector is the next entry of
    [connectors]. *)
Definition newWalletConnect (r : nat) (hides : bool) (s : State) : State :=
  seq [call (NewWalletConnect (length (connectors s)));
       setConnectors (connectors s ++
         [{| owner := r; hidesSelection := hides;
             connected := sessionStored s; onConnect := false |}])] s.

Definition isConnected (c : nat) (s : State) : bool :=
  match connectors s !! c with
  | Some k => connected k
  | None => false
  end.

Definition connector_onConnect (c : nat) (s : State) : State :=
  setConnectors
    (alter (λ k, {| owner := owner k; hidesSelection := hidesSelection k;
                    connected := connected k; onConnect := true |})
           c (connectors s)) s.

Definition markConnected (c : nat) (s : State) : State :=
  setConnectors
    (alter (λ k, {| owner := owner k; hidesSelection := hidesSelection k;
                    connected := true; onConnect := onConnect k |})
           c (connectors s)) s.

(** *** The broker *)

(** Lines 140-146. *)
Definition cleanUp : State → State :=
  seq [eventListener_off "modal_close";
       eventListener_off "select_extension";
       eventListener_off "select_wallet_connect";
       eventListener_off "wc_qr_modal_close";
       eventListener_off "connect"].

(** Lines 198-204 and 208-214. *)
Definition adoptWalletConnect (r c : nat) : State → State :=
  seq [setIsModalOpen false;
       setLastUsedKeplr (Some (KeplrWalletConnectV1 c));
       setConnectionType (Some wallet_connect);
       resolve r (Some (KeplrWalletConnectV1 c))].

Definition runListener (h : Listener) : State → State :=
  match h with
  | OnModalClose r =>
      seq [setIsModalOpen false; reject r None; cleanUp]
  | OnSelectExtension r =>
      seq [setIsModalOpen false; getKeplrFromWindow (ThenSelected r)]
  | OnSelectWalletConnect r => λ s,
      let c := length (connectors s) in
      seq [newWalletConnect r true;
           eventListener_on "wc_qr_modal_close" (OnWcQrModalClose r);
           λ s, if negb (isConnected c s)
                then seq [call (CreateSession c); connector_onConnect c] s
                else seq [adoptWalletConnect r c; cleanUp] s] s
  | OnWcQrModalClose r => λ s,
      seq [setWCUri "";
           λ s, match callbackClosed s !! r with
                | Some cb => call (CallbackClosed cb) s
                | None => s
                end] s
  end.

Definition emit (name : string) (s : State) : State :=
  foldl (λ s h, runListener h s) s (listeners name (eventListener s)).

(** Lines 137-218: the promise whose executor opens the selection dialog
    and registers the listeners of the call. *)
Definition prompt (r : nat) : State → State :=
  seq [newPromise Pending;
       setIsModalOpen true;
       eventListener_on "modal_close" (OnModalClose r);
       eventListener_on "select_extension" (OnSelectExtension r);
       eventListener_on "select_wallet_connect" (OnSelectWalletConnect r)].

(** Lines 92-219.  The promise returned is [promises] entry
    [length (promises s)]. *)
Definition getKeplr (s : State) : State :=
  let r := length (promises s) in
  if negb (window s) then newPromise (Resolved None) s
  else
    match lastUsedKeplrRef s with
    | Some k => newPromise (Resolved (Some k)) s
    | None =>
        match defaultConnectionTypeRef s with
        | Some extension =>
            seq [newPromise Pending; getKeplrFromWindow (ThenDefault r)] s
        | Some wallet_connect =>
            let c := length (connectors s) in
            let s := newWalletConnect r false s in
            if isConnected c s then
              seq [setLastUsedKeplr (Some (KeplrWalletConnectV1 c));
                   setConnectionType (Some wallet_connect);
                   newPromise (Resolved (Some (KeplrWalletConnectV1 c)))] s
            else prompt r s
        | None => prompt r s
        end
    end.

(** Lines 225-228. *)
Definition clearLastUsedKeplr : State → State :=
  seq [setLastUsedKeplr None; setConnectionType None].

(** The callback given to [then] at line 102 and at line 156. *)
Definition runContinuation (k : Continuation) (keplr : option KeplrObject)
  : State → State :=
  match k with
  | ThenDefault r =>
      seq [setLastUsedKeplr keplr;
           setConnectionType (Some extension);
           fulfil r (Resolved keplr)]
  | ThenSelected r =>
      seq [setLastUsedKeplr keplr;
           setConnectionType (Some extension);
           resolve r keplr;
           cleanUp]
  end.

(** [qrcodeModal.open] (lines 119-122 and 172-176) and [close]. *)
Definition qrcodeModal_open (c : nat) (uri : string) (s : State) : State :=
  match connectors s !! c with
  | Some k =>
      seq [if hidesSelection k then setIsModalOpen false else id;
           setWCUri uri;
           λ s, setCallbackClosed (<[owner k := c]> (callbackClosed s)) s] s
  | None => s
  end.

Definition qrcodeModal_close (c : nat) (s : State) : State :=
  match connectors s !! c with
  | Some _ => setWCUri "" s
  | None => s
  end.

(** The listener of line 193, called by the connector. *)
Definition onConnectListener (r c : nat) (error : option string)
  : State → State :=
  seq [cleanUp;
       match error with
       | Some e => reject r (Some e)
       | None => adoptWalletConnect r c
       end].

(** *** Events: every way control enters the broker

    The calls of the context value (lines 221-236); the callbacks of the two
    dialogs (lines 238-256), each an emission; the answer of a
    [getKeplrFromWindow()] that is awaited; the WalletConnect client calling
    the [qrcodeModal] hooks of a connector or its [connect] listener, the
    client being connected when it reports success; and a session appearing
    in or vanishing from what a new client reads.  Events naming a probe or
    a connector that does not exist do nothing. *)
Inductive Event : Type :=
| CallGetKeplr
| CallClearLastUsedKeplr
| CallSetDefaultConnectionType (t : option ConnectionType)
| SelectModalRequestClose        (* emit("modal_close") *)
| SelectExtension                (* emit("select_extension") *)
| SelectWalletConnect            (* emit("select_wallet_connect") *)
| QRModalRequestClose            (* emit("wc_qr_modal_close") *)
| KeplrFromWindow (probe : nat) (keplr : option KeplrObject)
| QrcodeModalOpen (connector : nat) (uri : string)
| QrcodeModalClose (connector : nat)
| Connect (connector : nat) (error : option string)
| StoreSession (stored : bool).

Definition step (s : State) (e : Event) : State :=
  match e with
  | CallGetKeplr => getKeplr s
  | CallClearLastUsedKeplr => clearLastUsedKeplr s
  | CallSetDefaultConnectionType t => setDefaultConnectionType t s
  | SelectModalRequestClose => emit "modal_close" s
  | SelectExtension => emit "select_extension" s
  | SelectWalletConnect => emit "select_wallet_connect" s
  | QRModalRequestClose => emit "wc_qr_modal_close" s
  | KeplrFromWindow p keplr =>
      match probes s !! p with
      | Some (Some k) =>
          seq [λ s, setProbes (<[p := None]> (probes s)) s;
               runContinuation k keplr] s
      | _ => s
      end
  | QrcodeModalOpen c uri => qrcodeModal_open c uri s
  | QrcodeModalClose c => qrcodeModal_close c s
  | Connect c error =>
      match connectors s !! c with
      | Some k =>
          seq [match error with Some _ => id | None => markConnected c end;
               if onConnect k then onConnectListener (owner k) c error
               else id] s
      | None => s
      end
  | StoreSession b => setSessionStored b s
  end.

Definition run (s : State) (trace : list Event) : State := foldl step s trace.

(** How many times [resolve] or [reject] of a request was called. *)
Definition isSettleCall (r : nat) (c : Call) : bool :=
  match c with
  | Resolve r' _ | Reject r' _ => Nat.eqb r' r
  | _ => false
  end.

Definition settleCalls (r : nat) (s : State) : nat :=
  length (List.filter (isSettleCall r) (calls s)).

(** *** Relations between the state before and after a statement *)

(** From [s] to [s']: the environment has a [window] or not as before, and
    every promise that was settled has kept its outcome. *)
Definition settledKept (s s' : State) : Prop :=
  window s' = window s ∧ keepsSettled (promises s) (promises s').

(** From [s] to [s']: a promise resolved with a handle in [s'] was resolved
    with it in [s] already, or the cache of [s'] holds a handle; and a cache
    that held a handle still holds one. *)
Definition handlesCached (s s' : State) : Prop :=
  (∀ r k, promises s' !! r = Some (Resolved (Some k)) →
          promises s !! r = Some (Resolved (Some k))
          ∨ is_Some (lastUsedKeplrRef s'))
  ∧ (is_Some (lastUsedKeplrRef s) → is_Some (lastUsedKeplrRef s')).

(** From [s] to [s']: a promise rejected in [s'] was rejected so in [s], or
    it is rejected without a reason. *)
Definition rejectsBare (s s' : State) : Prop :=
  ∀ r reason, promises s' !! r = Some (Rejected reason) →
              promises s !! r = Some (Rejected reason) ∨ reason = None.

(** The events that are emissions on the event channel. *)
Definition isDialogEvent (e : Event) : bool :=
  match e with
  | SelectModalRequestClose | SelectExtension | SelectWalletConnect
  | QRModalRequestClose => true
  | _ => false
  end.

(** *** Listener hygiene *)

(** The call whose variables a listener captures, and the name it is
    registered under. *)
Definition listenerRequest (h : Listener) : nat :=
  match h with
  | OnModalClose r | OnSelectExtension r | OnSelectWalletConnect r
  | OnWcQrModalClose r => r
  end.

Definition listenerName (h : Listener) : string :=
  match h with
  | OnModalClose _ => "modal_close"
  | OnSelectExtension _ => "select_extension"
  | OnSelectWalletConnect _ => "select_wallet_connect"
  | OnWcQrModalClose _ => "wc_qr_modal_close"
  end.

(** Every request that still has a listener registered is pending: once a
    request is settled none of its listeners is subscribed. *)
Definition hygienic (s : State) : Prop :=
  ∀ name h, h ∈ listeners name (eventListener s) →
            promises s !! listenerRequest h = Some Pending.

(** A probe made for the extension preference is still awaited for [r]. *)
Definition awaitsDefault (s : State) (r : nat) : Prop :=
  ∃ p, probes s !! p = Some (Some (ThenDefault r)).

(** What holds of every state the broker reaches. *)
Record wellFormed (s : State) : Prop := WellFormed {
  wf_hygienic : hygienic s;
  wf_names : ∀ name h, h ∈ listeners name (eventListener s) →
                       listenerName h = name;
  wf_range : ∀ r, awaitsDefault s r → r < length (promises s);
  wf_default : ∀ r name h, awaitsDefault s r →
                 h ∈ listeners name (eventListener s) → listenerRequest h ≠ r
}.

(** From [s] to [s']: promises, listeners and awaited probes are the same. *)
Definition sameCore (s s' : State) : Prop :=
  promises s' = promises s ∧ eventListener s' = eventListener s
  ∧ probes s' = probes s.

End Keplr.

(** ** The generic broker: [GetWalletProvider] of
    [src/components/GetWalletProvider.tsx] *)
Module Wallet.

(** A value of type [any]: what a [getWallet] of a [WalletInfo] yields. *)
Inductive Any : Type :=
| undefined
| null
| boolean (b : bool)
| number (n : Z)
| text (s : string)
| object (ref : nat).

(** [if (x)]. *)
Definition truthy (x : Any) : bool :=
  match x with
  | undefined | null => false
  | boolean b => b
  | number n => negb (n =? 0)%Z
  | text s => negb (String.eqb s "")
  | object _ => true
  end.

(** [getWallet] names the resolver, which is a collaborator. *)
Record WalletInfo : Type := {
  id : string;
  name : string;
  description : string;
  logoImgUrl : string;
  getWallet : nat
}.

Abbreviation Promise := (Settlement Any (option string)).

(** The closures registered on [eventListener]: by the call (the index of its
    promise), the [wcConnector] of that call and the [walletInfo] they
    capture. *)
Inductive Listener : Type :=
| OnModalClose (request : nat)                                  (* line 96 *)
| OnWcQrModalClose (request : nat)                              (* line 102 *)
| OnSelect (request connector : nat) (walletInfo : WalletInfo). (* line 110 *)

(** A [WalletConnect] instance; [onConnect] are the listeners of line 117,
    each with the [walletInfo] it captures. *)
Record Connector : Type := {
  owner : nat;
  connected : bool;
  onConnect : list WalletInfo
}.

(** A call of [resolveWallet] suspended at its [await] (line 79). *)
Record Awaiting : Type := {
  walletInfo : WalletInfo;
  request : nat;
  resolver : bool      (* was [resolve] passed as [resolver]? *)
}.

Inductive Result : Type :=
| Fulfilled (wallet : Any)
| Failed (reason : string).

Inductive Call : Type :=
| GetWallet (walletInfo : WalletInfo) (connector : nat)
| NewWalletConnect (connector : nat)
| CreateSession (connector : nat)
| CallbackClosed (connector : nat)
| Resolve (request : nat) (value : Any)
| Reject (request : nat) (reason : option string).

Record State : Type := {
  window : bool;
  sessionStored : bool;
  isModalOpen : bool;
  wcUri : string;
  lastUsedWalletRef : Any;
  defaultConnectionTypeRef : option string;
  connectionType : option string;
  eventListener : gmap string (list Listener);
  promises : list Promise;
  callbackClosed : gmap nat nat;
  connectors : list Connector;
  awaits : list (option Awaiting);
  calls : list Call
}.

Definition initial (w stored : bool) : State :=
  {| window := w; sessionStored := stored; isModalOpen := false; wcUri := "";
     lastUsedWalletRef := undefined; defaultConnectionTypeRef := None;
     connectionType := None; eventListener := ∅; promises := [];
     callbackClosed := ∅; connectors := []; awaits := []; calls := [] |}.

(** *** Assignments *)

Definition setSessionStored (b : bool) (s : State) : State :=
  {| window := window s; sessionStored := b; isModalOpen := isModalOpen s;
     wcUri := wcUri s; lastUsedWalletRef := lastUsedWalletRef s;
     defaultConnectionTypeRef := defaultConnectionTypeRef s;
     connectionType := connectionType s; eventListener := eventListener s;
     promises := promises s; callbackClosed := callbackClosed s;
     connectors := connectors s; awaits := awaits s; calls := calls s |}.

Definition setIsModalOpen (b : bool) (s : State) : State :=
  {| window := window s; sessionStored := sessionStored s; isModalOpen := b;
     wcUri := wcUri s; lastUsedWalletRef := lastUsedWalletRef s;
     defaultConnectionTypeRef := defaultConnectionTypeRef s;
     connectionType := connectionType s; eventListener := eventListener s;
     promises := promises s; callbackClosed := callbackClosed s;
     connectors := connectors s; awaits := awaits s; calls := calls s |}.

Definition setWCUri (uri : string) (s : State) : State :=
  {| window := window s; sessionStored := sessionStored s;
     isModalOpen := isModalOpen s; wcUri := uri;
     lastUsedWalletRef := lastUsedWalletRef s;
     defaultConnectionTypeRef := defaultConnectionTypeRef s;
     connectionType := connectionType s; eventListener := eventListener s;
     promises := promises s; callbackClosed := callbackClosed s;
     connectors := connectors s; awaits := awaits s; calls := calls s |}.

Definition setLastUsedWallet (w : Any) (s : State) : State :=
  {| window := window s; sessionStored := sessionStored s;
     isModalOpen := isModalOpen s; wcUri := wcUri s; lastUsedWalletRef := w;
     defaultConnectionTypeRef := defaultConnectionTypeRef s;
     connectionType := connectionType s; eventListener := eventListener s;
     promises := promises s; callbackClosed := callbackClosed s;
     connectors := connectors s; awaits := awaits s; calls := calls s |}.

Definition setDefaultConnectionType (t : option string) (s : State) : State :=
  {| window := window s; sessionStored := sessionStored s;
     isModalOpen := isModalOpen s; wcUri := wcUri s;
     lastUsedWalletRef := lastUsedWalletRef s; defaultConnectionTypeRef := t;
     connectionType := connectionType s; eventListener := eventListener s;
     promises := promises s; callbackClosed := callbackClosed s;
     connectors := connectors s; awaits := awaits s; calls := calls s |}.

Definition setConnectionType (t : option string) (s : State) : State :=
  {| window := window s; sessionStored := sessionStored s;
     isModalOpen := isModalOpen s; wcUri := wcUri s;
     lastUsedWalletRef := lastUsedWalletRef s;
     defaultConnectionTypeRef := defaultConnectionTypeRef s;
     connectionType := t; eventListener := eventListener s;
     promises := promises s; callbackClosed := callbackClosed s;
     connectors := connectors s; awaits := awaits s; calls := calls s |}.

Definition setEventListener (ev : gmap string (list Listener)) (s : State)
  : State :=
  {| window := window s; sessionStored := sessionStored s;
     isModalOpen := isModalOpen s; wcUri := wcUri s;
     lastUsedWalletRef := lastUsedWalletRef s;
     defaultConnectionTypeRef := defaultConnectionTypeRef s;
     connectionType := connectionType s; eventListener := ev;
     promises := promises s; callbackClosed := callbackClosed s;
     connectors := connectors s; awaits := awaits s; calls := calls s |}.

Definition setPromises (ps : list Promise) (s : State) : State :=
  {| window := window s; sessionStored := sessionStored s;
     isModalOpen := isModalOpen s; wcUri := wcUri s;
     lastUsedWalletRef := lastUsedWalletRef s;
     defaultConnectionTypeRef := defaultConnectionTypeRef s;
     connectionType := connectionType s; eventListener := eventListener s;
     promises := ps; callbackClosed := callbackClosed s;
     connectors := connectors s; awaits := awaits s; calls := calls s |}.

Definition setCallbackClosed (cb : gmap nat nat) (s : State) : State :=
  {| window := window s; sessionStored := sessionStored s;
     isModalOpen := isModalOpen s; wcUri := wcUri s;
     lastUsedWalletRef := lastUsedWalletRef s;
     defaultConnectionTypeRef := defaultConnectionTypeRef s;
     connectionType := connectionType s; eventListener := eventListener s;
     promises := promises s; callbackClosed := cb;
     connectors := connectors s; awaits := awaits s; calls := calls s |}.

Definition setConnectors (cs : list Connector) (s : State) : State :=
  {| window := window s; sessionStored := sessionStored s;
     isModalOpen := isModalOpen s; wcUri := wcUri s;
     lastUsedWalletRef := lastUsedWalletRef s;
     defaultConnectionTypeRef := defaultConnectionTypeRef s;
     connectionType := connectionType s; eventListener := eventListener s;
     promises := promises s; callbackClosed := callbackClosed s;
     connectors := cs; awaits := awaits s; calls := calls s |}.

Definition setAwaits (ws : list (option Awaiting)) (s : State) : State :=
  {| window := window s; sessionStored := sessionStored s;
     isModalOpen := isModalOpen s; wcUri := wcUri s;
     lastUsedWalletRef := lastUsedWalletRef s;
     defaultConnectionTypeRef := defaultConnectionTypeRef s;
     connectionType := connectionType s; eventListener := eventListener s;
     promises := promises s; callbackClosed := callbackClosed s;
     connectors := connectors s; awaits := ws; calls := calls s |}.

Definition call (c : Call) (s : State) : State :=
  {| window := window s; sessionStored := sessionStored s;
     isModalOpen := isModalOpen s; wcUri := wcUri s;
     lastUsedWalletRef := lastUsedWalletRef s;
     defaultConnectionTypeRef := defaultConnectionTypeRef s;
     connectionType := connectionType s; eventListener := eventListener s;
     promises := promises s; callbackClosed := callbackClosed s;
     connectors := connectors s; awaits := awaits s;
     calls := calls s ++ [c] |}.

(** *** Promises, listeners, collaborators *)

Definition newPromise (p : Promise) (s : State) : State :=
  setPromises (promises s ++ [p]) s.

Definition fulfil (r : nat) (o : Promise) (s : State) : State :=
  setPromises (alter (settleWith o) r (promises s)) s.

Definition resolve (r : nat) (v : Any) : State → State :=
  seq [call (Resolve r v); fulfil r (Resolved v)].

Definition reject (r : nat) (reason : option string) : State → State :=
  seq [call (Reject r reason); fulfil r (Rejected reason)].

Definition eventListener_on (name : string) (h : Listener) (s : State) : State :=
  setEventListener (on name h (eventListener s)) s.

Definition eventListener_off (name : string) (s : State) : State :=
  setEventListener (off name (eventListener s)) s.

Definition newWalletConnect (r : nat) (s : State) : State :=
  seq [call (NewWalletConnect (length (connectors s)));
       setConnectors (connectors s ++
         [{| owner := r; connected := sessionStored s; onConnect := [] |}])] s.

Definition isConnected (c : nat) (s : State) : bool :=
  match connectors s !! c with
  | Some k => connected k
  | None => false
  end.

Definition connector_onConnect (c : nat) (info : WalletInfo) (s : State)
  : State :=
  setConnectors
    (alter (λ k, {| owner := owner k; connected := connected k;
                    onConnect := onConnect k ++ [info] |})
           c (connectors s)) s.

Definition markConnected (c : nat) (s : State) : State :=
  setConnectors
    (alter (λ k, {| owner := owner k; connected := true;
                    onConnect := onConnect k |})
           c (connectors s)) s.

(** *** The broker *)
Section Broker.
Variable walletInfoList : list WalletInfo.

(** Lines 50-56. *)
Definition cleanUp : State → State :=
  seq [eventListener_off "modal_close";
       eventListener_off "wc_qr_modal_close";
       λ s, foldl (λ s info, eventListener_off (id info) s) s walletInfoList].

(** Lines 75-79: [resolveWallet] up to its [await]. *)
Definition resolveWallet (r c : nat) (info : WalletInfo) (withResolver : bool)
  : State → State :=
  seq [call (GetWallet info c);
       λ s, setAwaits (awaits s ++
              [Some {| walletInfo := info; request := r;
                       resolver := withResolver |}]) s].

(** Lines 80-83: [resolveWallet] after its [await]; when the awaited
    promise rejects, so does the promise of [resolveWallet], which is the
    one [getWallet] returned only when no [resolver] was passed. *)
Definition resumeResolveWallet (a : Awaiting) (res : Result) : State → State :=
  match res with
  | Fulfilled wallet =>
      seq [setLastUsedWallet wallet;
           setConnectionType (Some (id (walletInfo a)));
           cleanUp;
           if resolver a then resolve (request a) wallet
           else fulfil (request a) (Resolved wallet)]
  | Failed reason =>
      if resolver a then Datatypes.id
      else fulfil (request a) (Rejected (Some reason))
  end.

Definition runListener (h : Listener) : State → State :=
  match h with
  | OnModalClose r =>
      seq [setIsModalOpen false; reject r None; cleanUp]
  | OnWcQrModalClose r =>
      seq [setWCUri "";
           λ s, match callbackClosed s !! r with
                | Some cb => call (CallbackClosed cb) s
                | None => s
                end]
  | OnSelect r c info =>
      seq [setIsModalOpen false;
           λ s, if String.prefix "walletconnect" (id info) then
                  if negb (isConnected c s)
                  then seq [call (CreateSession c); connector_onConnect c info] s
                  else resolveWallet r c info true s
                else resolveWallet r c info true s]
  end.

Definition emit (name : string) (s : State) : State :=
  foldl (λ s h, runListener h s) s (listeners name (eventListener s)).

(** Lines 86-88: the descriptor the preference names. *)
Definition defaultConnectionWalletInfo (s : State) : option WalletInfo :=
  List.find (λ info, bool_decide (defaultConnectionTypeRef s = Some (id info)))
            walletInfoList.

(** Lines 41-133.  The promise returned is [promises] entry
    [length (promises s)]. *)
Definition request_getWallet (s : State) : State :=
  let r := length (promises s) in
  if negb (window s) then newPromise (Resolved undefined) s
  else if truthy (lastUsedWalletRef s)
  then newPromise (Resolved (lastUsedWalletRef s)) s
  else
    let c := length (connectors s) in
    let s := newWalletConnect r s in
    match defaultConnectionWalletInfo s with
    | Some info => seq [newPromise Pending; resolveWallet r c info false] s
    | None =>
        seq [newPromise Pending;
             setIsModalOpen true;
             eventListener_on "modal_close" (OnModalClose r);
             eventListener_on "wc_qr_modal_close" (OnWcQrModalClose r);
             λ s, foldl (λ s info,
                     eventListener_on (id info) (OnSelect r c info) s)
                   s walletInfoList] s
    end.

(** Lines 139-142. *)
Definition clearLastUsedWallet : State → State :=
  seq [setLastUsedWallet undefined; setConnectionType None].

(** [qrcodeModal.open] (lines 67-70) and [close] (line 71). *)
Definition qrcodeModal_open (c : nat) (uri : string) (s : State) : State :=
  match connectors s !! c with
  | Some k =>
      seq [setWCUri uri;
           λ s, setCallbackClosed (<[owner k := c]> (callbackClosed s)) s] s
  | None => s
  end.

Definition qrcodeModal_close (c : nat) (s : State) : State :=
  match connectors s !! c with
  | Some _ => setWCUri "" s
  | None => s
  end.

(** The listener of line 117, called by the connector. *)
Definition onConnectListener (r c : nat) (info : WalletInfo)
  (error : option string) : State → State :=
  match error with
  | Some e => reject r (Some e)
  | None => resolveWallet r c info true
  end.

(** *** Events: every way control enters the broker

    The calls of the context value (lines 135-147); the callbacks of the two
    dialogs (lines 149-163), each an emission; the promise of a [getWallet]
    that [resolveWallet] awaits being fulfilled or rejected; the WalletConnect
    client calling the [qrcodeModal] hooks of a connector or its [connect]
    listeners, the client being connected when it reports success; and a
    session appearing in or vanishing from what a new client reads. *)
Inductive Event : Type :=
| CallGetWallet
| CallClearLastUsedWallet
| CallSetDefaultConnectionType (t : option string)
| SelectModalRequestClose          (* emit("modal_close") *)
| SelectWallet (walletId : string) (* emit(walletId) *)
| QRModalRequestClose              (* emit("wc_qr_modal_close") *)
| GetWalletSettled (await : nat) (res : Result)
| QrcodeModalOpen (connector : nat) (uri : string)
| QrcodeModalClose (connector : nat)
| Connect (connector : nat) (error : option string)
| StoreSession (stored : bool).

Definition step (s : State) (e : Event) : State :=
  match e with
  | CallGetWallet => request_getWallet s
  | CallClearLastUsedWallet => clearLastUsedWallet s
  | CallSetDefaultConnectionType t => setDefaultConnectionType t s
  | SelectModalRequestClose => emit "modal_close" s
  | SelectWallet walletId => emit walletId s
  | QRModalRequestClose => emit "wc_qr_modal_close" s
  | GetWalletSettled k res =>
      match awaits s !! k with
      | Some (Some a) =>
          seq [λ s, setAwaits (<[k := None]> (awaits s)) s;
               resumeResolveWallet a res] s
      | _ => s
      end
  | QrcodeModalOpen c uri => qrcodeModal_open c uri s
  | QrcodeModalClose c => qrcodeModal_close c s
  | Connect c error =>
      match connectors s !! c with
      | Some k =>
          seq [match error with
               | Some _ => Datatypes.id
               | None => markConnected c
               end;
               λ s, foldl (λ s info, onConnectListener (owner k) c info error s)
                          s (onConnect k)] s
      | None => s
      end
  | StoreSession b => setSessionStored b s
  end.

Definition run (s : State) (trace : list Event) : State := foldl step s trace.

End Broker.

Definition isSettleCall (r : nat) (c : Call) : bool :=
  match c with
  | Resolve r' _ | Reject r' _ => Nat.eqb r' r
  | _ => false
  end.

Definition settleCalls (r : nat) (s : State) : nat :=
  length (List.filter (isSettleCall r) (calls s)).

(** *** Relations between the state before and after a statement *)

(** From [s] to [s']: the environment has a [window] or not as before, and
    every promise that was settled has kept its outcome. *)
Definition settledKept (s s' : State) : Prop :=
  window s' = window s ∧ keepsSettled (promises s) (promises s').

(** [cleanUp] touches the listeners only. *)
Definition sameButListeners (s s' : State) : Prop :=
  s' = setEventListener (eventListener s') s.

(** From [s] to [s']: the cache is the same and no promise got resolved. *)
Definition noResolution (s s' : State) : Prop :=
  lastUsedWalletRef s' = lastUsedWalletRef s
  ∧ ∀ r w, promises s' !! r = Some (Resolved w) →
           promises s !! r = Some (Resolved w).

End Wallet.

(** ** Scenarios of the specification and what they are measured by *)

(** Scenario A of the specification: the methods are "extension" and
    "walletconnect". *)
Definition extensionInfo : Wallet.WalletInfo :=
  {| Wallet.id := "extension"; Wallet.name := "Keplr";
     Wallet.description := "Keplr browser extension";
     Wallet.logoImgUrl := "/keplr.png"; Wallet.getWallet := 0 |}.

Definition walletconnectInfo : Wallet.WalletInfo :=
  {| Wallet.id := "walletconnect"; Wallet.name := "WalletConnect";
     Wallet.description := "Keplr mobile";
     Wallet.logoImgUrl := "/walletconnect.png"; Wallet.getWallet := 1 |}.

Definition scenarioMethods : list Wallet.WalletInfo :=
  [extensionInfo; walletconnectInfo].

Definition keplrAwaitingProbe : Keplr.State :=
  Keplr.run (Keplr.initial true false)
    [Keplr.CallGetKeplr; Keplr.SelectExtension].

Definition walletAwaitingResolver : Wallet.State :=
  Wallet.run scenarioMethods (Wallet.initial true false)
    [Wallet.CallGetWallet; Wallet.SelectWallet "extension"].

(** Scenario B of the specification up to the dismissal: a request, the pick
    of the remote method, the pairing URI shown. *)
Definition keplrPairing (uri : string) : Keplr.State :=
  Keplr.run (Keplr.initial true false)
    [Keplr.CallGetKeplr; Keplr.SelectWalletConnect;
     Keplr.QrcodeModalOpen 0 uri].

Definition walletPairing (uri : string) : Wallet.State :=
  Wallet.run scenarioMethods (Wallet.initial true false)
    [Wallet.CallGetWallet; Wallet.SelectWallet "walletconnect";
     Wallet.QrcodeModalOpen 0 uri].

(** A request waiting at the selection dialog while a session is stored. *)
Definition keplrSelecting (stored : bool) : Keplr.State :=
  Keplr.run (Keplr.initial true stored) [Keplr.CallGetKeplr].

Definition walletSelecting (stored : bool) : Wallet.State :=
  Wallet.run scenarioMethods (Wallet.initial true stored)
    [Wallet.CallGetWallet].

(** A pairing that fails in [GetWalletProvider]: a request, the pick of the
    remote method, the connector reporting an error. *)
Definition walletPairingFailed (error : string) : Wallet.State :=
  Wallet.run scenarioMethods (Wallet.initial true false)
    [Wallet.CallGetWallet; Wallet.SelectWallet "walletconnect";
     Wallet.Connect 0 (Some error)].

(** The cancel hooks the listeners of ["wc_qr_modal_close"] call: the
    callback the connector passed to [qrcodeModal.open], when one was. *)
Definition Keplr_cancelHooks (s : Keplr.State) (rs : list nat)
  : list Keplr.Call :=
  omap (λ r, Keplr.CallbackClosed <$> Keplr.callbackClosed s !! r) rs.

Definition Wallet_cancelHooks (s : Wallet.State) (rs : list nat)
  : list Wallet.Call :=
  omap (λ r, Wallet.CallbackClosed <$> Wallet.callbackClosed s !! r) rs.

Definition continuationRequest (k : Keplr.Continuation) : nat :=
  match k with Keplr.ThenDefault r | Keplr.ThenSelected r => r end.

(** What a request has come to after a trace: its promise and the calls
    the broker made since the request. *)
Definition Keplr_outcome (s : Keplr.State) (trace : list Keplr.Event)
  (o : Keplr.Promise) (cs : list Keplr.Call) : Prop :=
  let s' := Keplr.run s trace in
  Keplr.promises s' !! length (Keplr.promises s) = Some o
  ∧ Keplr.calls s' = Keplr.calls s ++ cs.

Definition Wallet_outcome (l : list Wallet.WalletInfo) (s : Wallet.State)
  (trace : list Wallet.Event) (o : Wallet.Promise) (cs : list Wallet.Call)
  : Prop :=
  let s' := Wallet.run l s trace in
  Wallet.promises s' !! length (Wallet.promises s) = Some o
  ∧ Wallet.calls s' = Wallet.calls s ++ cs.

(** A request made, and the pairing it leads to when the remote method is
    picked with no session to reuse and the pairing URI is shown. *)
Definition keplrRequested (s : Keplr.State) : Keplr.State :=
  Keplr.step s Keplr.CallGetKeplr.

Definition keplrPairingShown (s : Keplr.State) (uri : string) : Keplr.State :=
  Keplr.step (Keplr.step (keplrRequested s) Keplr.SelectWalletConnect)
    (Keplr.QrcodeModalOpen (length (Keplr.connectors s)) uri).

Definition walletRequested (l : list Wallet.WalletInfo) (s : Wallet.State)
  : Wallet.State :=
  Wallet.step l s Wallet.CallGetWallet.

Definition walletPairingShown (l : list Wallet.WalletInfo) (s : Wallet.State)
  (info : Wallet.WalletInfo) (uri : string) : Wallet.State :=
  Wallet.step l
    (Wallet.step l (walletRequested l s) (Wallet.SelectWallet (Wallet.id info)))
    (Wallet.QrcodeModalOpen (length (Wallet.connectors s)) uri).

(** ** What keeps the cached session *)

(** The name a callback of a dialog emits, and the listeners an event
    runs. *)
Definition Keplr_emitted (e : Keplr.Event) : option string :=
  match e with
  | Keplr.SelectModalRequestClose => Some "modal_close"
  | Keplr.SelectExtension => Some "select_extension"
  | Keplr.SelectWalletConnect => Some "select_wallet_connect"
  | Keplr.QRModalRequestClose => Some "wc_qr_modal_close"
  | _ => None
  end.

Definition Keplr_listenersRun (s : Keplr.State) (e : Keplr.Event)
  : list Keplr.Listener :=
  match Keplr_emitted e with
  | Some name => listeners name (Keplr.eventListener s)
  | None => []
  end.

(** The events after which a cache that holds a handle holds the same
    handle: all but [clearLastUsedKeplr], the answer of a probe, the pick of
    the remote method and the success of a pairing. *)
Definition Keplr_keepsCache (e : Keplr.Event) : bool :=
  match e with
  | Keplr.CallClearLastUsedKeplr | Keplr.SelectWalletConnect
  | Keplr.KeplrFromWindow _ _ | Keplr.Connect _ None => false
  | _ => true
  end.

Definition Keplr_isRequest (e : Keplr.Event) : bool :=
  match e with Keplr.CallGetKeplr => true | _ => false end.

(** How many requests a trace makes. *)
Definition Keplr_requests (trace : list Keplr.Event) : nat :=
  length (List.filter Keplr_isRequest trace).

(** From [s] to [s']: the cache is the same and no promise was created. *)
Definition Keplr_cacheKept (s s' : Keplr.State) : Prop :=
  Keplr.lastUsedKeplrRef s' = Keplr.lastUsedKeplrRef s
  ∧ length (Keplr.promises s') = length (Keplr.promises s).

(** In [GetWalletProvider]: all but [clearLastUsedWallet] and the
    fulfilment of a resolver. *)
Definition Wallet_keepsCache (e : Wallet.Event) : bool :=
  match e with
  | Wallet.CallClearLastUsedWallet
  | Wallet.GetWalletSettled _ (Wallet.Fulfilled _) => false
  | _ => true
  end.

Definition Wallet_isRequest (e : Wallet.Event) : bool :=
  match e with Wallet.CallGetWallet => true | _ => false end.

Definition Wallet_requests (trace : list Wallet.Event) : nat :=
  length (List.filter Wallet_isRequest trace).

Definition Wallet_cacheKept (s s' : Wallet.State) : Prop :=
  Wallet.lastUsedWalletRef s' = Wallet.lastUsedWalletRef s
  ∧ length (Wallet.promises s') = length (Wallet.promises s).

(** ** What an event does for one request *)

(** The call whose variables a listener of [GetWalletProvider] captures. *)
Definition Wallet_listenerRequest (h : Wallet.Listener) : nat :=
  match h with
  | Wallet.OnModalClose r | Wallet.OnWcQrModalClose r
  | Wallet.OnSelect r _ _ => r
  end.

(** From [s] to [s']: nothing was decided for request [r], its promise and
    the calls of its [resolve] and [reject] are the same, and what the broker
    holds has only grown. *)
Definition Keplr_untouched (r : nat) (s s' : Keplr.State) : Prop :=
  Keplr.promises s' !! r = Keplr.promises s !! r
  ∧ Keplr.settleCalls r s' = Keplr.settleCalls r s
  ∧ Keplr.sessionStored s' = Keplr.sessionStored s
  ∧ Keplr.probes s `prefix_of` Keplr.probes s'
  ∧ Keplr.connectors s `prefix_of` Keplr.connectors s'
  ∧ Keplr.calls s `prefix_of` Keplr.calls s'.

(** The listener [h] of request [r] is registered under [name], among
    listeners of other requests only. *)
Definition Keplr_listens (r : nat) (name : string) (h : Keplr.Listener)
  (s : Keplr.State) : Prop :=
  ∃ before after,
    listeners name (Keplr.eventListener s) = before ++ h :: after
    ∧ ∀ h', h' ∈ before ++ after → Keplr.listenerRequest h' ≠ r.

(** No listener of request [r] is registered: [r] has not been made. *)
Definition Keplr_noListenerOf (r : nat) (s : Keplr.State) : Prop :=
  ∀ name h, h ∈ listeners name (Keplr.eventListener s) →
            Keplr.listenerRequest h ≠ r.

(** From [s] to [s'] the promise of request [r] has come to [o], by [n]
    calls of its [resolve] and [reject]. *)
Definition Keplr_comesTo (r : nat) (o : Keplr.Promise) (n : nat)
  (s s' : Keplr.State) : Prop :=
  Keplr.promises s' !! r = Some o
  ∧ Keplr.settleCalls r s' = n + Keplr.settleCalls r s.

(** The connector the pick of the remote method builds for request [r] when
    there is no session to reuse. *)
Definition Keplr_pairingConnector (r : nat) : Keplr.Connector :=
  {| Keplr.owner := r; Keplr.hidesSelection := true;
     Keplr.connected := false; Keplr.onConnect := true |}.

(** The same for [GetWalletProvider], where a listener adds [connect]
    listeners to a connector that exists. *)
Definition Wallet_untouched (r : nat) (s s' : Wallet.State) : Prop :=
  Wallet.promises s' !! r = Wallet.promises s !! r
  ∧ Wallet.settleCalls r s' = Wallet.settleCalls r s
  ∧ Wallet.awaits s `prefix_of` Wallet.awaits s'
  ∧ Wallet.calls s `prefix_of` Wallet.calls s'
  ∧ length (Wallet.connectors s') = length (Wallet.connectors s)
  ∧ ∀ c k, Wallet.connectors s !! c = Some k →
      ∃ k', Wallet.connectors s' !! c = Some k'
            ∧ Wallet.owner k' = Wallet.owner k
            ∧ Wallet.connected k' = Wallet.connected k
            ∧ Wallet.onConnect k `prefix_of` Wallet.onConnect k'.

Definition Wallet_listens (r : nat) (name : string) (h : Wallet.Listener)
  (s : Wallet.State) : Prop :=
  ∃ before after,
    listeners name (Wallet.eventListener s) = before ++ h :: after
    ∧ ∀ h', h' ∈ before ++ after → Wallet_listenerRequest h' ≠ r.

Definition Wallet_noListenerOf (r : nat) (s : Wallet.State) : Prop :=
  ∀ name h, h ∈ listeners name (Wallet.eventListener s) →
            Wallet_listenerRequest h ≠ r.

Definition Wallet_comesTo (r : nat) (o : Wallet.Promise) (n : nat)
  (s s' : Wallet.State) : Prop :=
  Wallet.promises s' !! r = Some o
  ∧ Wallet.settleCalls r s' = n + Wallet.settleCalls r s.

(** The call of [resolveWallet] that a pick or a pairing suspends for
    request [r], and the one the preference suspends. *)
Definition Wallet_picked (r : nat) (info : Wallet.WalletInfo) : Wallet.Awaiting :=
  {| Wallet.walletInfo := info; Wallet.request := r; Wallet.resolver := true |}.

Definition Wallet_preferred (r : nat) (info : Wallet.WalletInfo)
  : Wallet.Awaiting :=
  {| Wallet.walletInfo := info; Wallet.request := r;
     Wallet.resolver := false |}.

(** The connector a request builds before it looks at the preference. *)
Definition Wallet_newConnector (r : nat) (s : Wallet.State) : Wallet.Connector :=
  {| Wallet.owner := r; Wallet.connected := Wallet.sessionStored s;
     Wallet.onConnect := [] |}.

(** Two requests waiting at the selection dialog. *)
Definition keplrTwoWaiting : Keplr.State :=
  Keplr.run (Keplr.initial true false)
    [Keplr.CallGetKeplr; Keplr.CallGetKeplr].

(** ** What every reachable state satisfies *)

(** The connection type a handle stands for. *)
Definition Keplr_kind (k : Keplr.KeplrObject) : Keplr.ConnectionType :=
  match k with
  | Keplr.Injected _ => Keplr.extension
  | Keplr.KeplrWalletConnectV1 _ => Keplr.wallet_connect
  end.

(** [connectionType] tells what the cached handle is. *)
Definition Keplr_coherent (s : Keplr.State) : Prop :=
  ∀ k, Keplr.lastUsedKeplrRef s = Some k
       → Keplr.connectionType s = Some (Keplr_kind k).

(** [getKeplrFromWindow] answers with the object the page injected or with
    [undefined], not with a wrapper the broker built. *)
Definition Keplr_probeFindsInjected (e : Keplr.Event) : bool :=
  match e with
  | Keplr.KeplrFromWindow _ (Some (Keplr.KeplrWalletConnectV1 _)) => false
  | _ => true
  end.

(** Nothing the broker holds is of request [r]: no listener on the event
    channel, no probe it awaits, no connector it listens to. *)
Definition Keplr_abandoned (s : Keplr.State) (r : nat) : Prop :=
  (∀ name h, h ∈ listeners name (Keplr.eventListener s)
             → Keplr.listenerRequest h ≠ r)
  ∧ (∀ p k, Keplr.probes s !! p = Some (Some k) → continuationRequest k ≠ r)
  ∧ (∀ c k, Keplr.connectors s !! c = Some k → Keplr.onConnect k = true
            → Keplr.owner k ≠ r).

(** A request that waits and that nothing can settle. *)
Definition Keplr_stranded (r : nat) (s : Keplr.State) : Prop :=
  Keplr.promises s !! r = Some Pending ∧ Keplr_abandoned s r.

(** From [s] to [s']: a request that was stranded still is. *)
Definition Keplr_staysStranded (r : nat) (s s' : Keplr.State) : Prop :=
  Keplr_stranded r s → Keplr_stranded r s'.


(** A request overtaken: the pairing of an earlier request succeeds and its
    [cleanUp] removes the listeners of the later one. *)
Definition keplrOvertaken : Keplr.State :=
  Keplr.run (Keplr.initial true false)
    [Keplr.CallGetKeplr; Keplr.SelectWalletConnect;
     Keplr.QrcodeModalOpen 0 "wc:abc123"; Keplr.CallGetKeplr;
     Keplr.Connect 0 None].

(** A promise that is pending, or rejected with an error. *)
Definition Wallet_waitingOrFailed (p : option Wallet.Promise) : Prop :=
  p = Some Pending ∨ ∃ error, p = Some (Rejected (Some error)).

(** The names [cleanUp] unsubscribes. *)
Definition Wallet_eventName (l : list Wallet.WalletInfo) (name : string)
  : Prop :=
  name = "modal_close" ∨ name = "wc_qr_modal_close"
  ∨ ∃ info, info ∈ l ∧ Wallet.id info = name.

(** The descriptor a listener captures is one of the list. *)
Definition Wallet_listed (l : list Wallet.WalletInfo) (h : Wallet.Listener)
  : Prop :=
  match h with
  | Wallet.OnSelect _ _ info => info ∈ l
  | _ => True
  end.

(** What holds of every state [GetWalletProvider] reaches. *)
Record Wallet_wellFormed (l : list Wallet.WalletInfo) (s : Wallet.State)
  : Prop := Wallet_WellFormed {
  wallet_wf_listeners :
    ∀ name h, h ∈ listeners name (Wallet.eventListener s) →
      Wallet_waitingOrFailed (Wallet.promises s !! Wallet_listenerRequest h)
      ∧ Wallet_eventName l name ∧ Wallet_listed l h;
  wallet_wf_connectors :
    ∀ c k info, Wallet.connectors s !! c = Some k →
                info ∈ Wallet.onConnect k → info ∈ l;
  wallet_wf_awaits :
    ∀ k a, Wallet.awaits s !! k = Some (Some a) → Wallet.walletInfo a ∈ l;
  wallet_wf_connectionType :
    ∀ t, Wallet.connectionType s = Some t →
         ∃ info, info ∈ l ∧ Wallet.id info = t;
  wallet_wf_cache :
    Wallet.truthy (Wallet.lastUsedWalletRef s) = true →
    is_Some (Wallet.connectionType s)
}.

(** From [s] to [s']: what holds of reachable states is kept. *)
Definition Wallet_keepsWellFormed (l : list Wallet.WalletInfo)
  (s s' : Wallet.State) : Prop :=
  Wallet_wellFormed l s → Wallet_wellFormed l s'.

(** * Facts about the model *)

Lemma settleWith_settled {V E} (o p : Settlement V E) :
  isSettled p = true → settleWith o p = p.
Proof. by destruct p. Qed.

Lemma keepsSettled_refl {V E} (ps : list (Settlement V E)) : keepsSettled ps ps.
Proof. by intros r o. Qed.

Lemma keepsSettled_trans {V E} (ps1 ps2 ps3 : list (Settlement V E)) :
  keepsSettled ps1 ps2 → keepsSettled ps2 ps3 → keepsSettled ps1 ps3.
Proof. intros H12 H23 r o Hr Ho. eauto. Qed.

Lemma keepsSettled_app {V E} (ps qs : list (Settlement V E)) :
  keepsSettled ps (ps ++ qs).
Proof. intros r o Hr _. by apply lookup_app_l_Some. Qed.

Lemma keepsSettled_alter {V E} (ps : list (Settlement V E)) r o :
  keepsSettled ps (alter (settleWith o) r ps).
Proof.
  intros r' o' Hr Ho. destruct (decide (r = r')) as [<-|Hne].
  - rewrite list_lookup_alter_eq, Hr. simpl. by rewrite settleWith_settled.
  - by rewrite list_lookup_alter_ne.
Qed.

(** A promise found resolved after a [resolve]/[reject] was resolved before,
    or is the one the call settled. *)
Lemma lookup_alter_settleWith {V E} (ps : list (Settlement V E)) r r' o q :
  alter (settleWith o) r ps !! r' = Some q →
  ps !! r' = Some q ∨ (r' = r ∧ q = o ∧ ps !! r = Some Pending).
Proof.
  destruct (decide (r = r')) as [<-|Hne].
  - rewrite list_lookup_alter_eq. destruct (ps !! r) as [[| |]|]; simpl;
      intros [= <-]; auto.
  - rewrite list_lookup_alter_ne by done. auto.
Qed.

Section EventEmitterFacts.
Context {H : Type}.
Implicit Types (ev : gmap string (list H)) (h : H).

Lemma listeners_off name ev : listeners name (off name ev) = [].
Proof. unfold listeners, off. by rewrite lookup_delete_eq. Qed.

Lemma listeners_off_ne name name' ev :
  name ≠ name' → listeners name' (off name ev) = listeners name' ev.
Proof. intros. unfold listeners, off. by rewrite lookup_delete_ne. Qed.

Lemma listeners_on name h ev :
  listeners name (on name h ev) = listeners name ev ++ [h].
Proof. unfold listeners at 1, on. by rewrite lookup_insert_eq. Qed.

Lemma listeners_on_ne name name' h ev :
  name ≠ name' → listeners name' (on name h ev) = listeners name' ev.
Proof. intros. unfold listeners, on. by rewrite lookup_insert_ne. Qed.

Lemma quiet_empty : quiet (∅ : gmap string (list H)).
Proof. intros name. unfold listeners. by rewrite lookup_empty. Qed.

End EventEmitterFacts.

(** Listeners of a name after registrations and removals under names
    written out. *)
Ltac listeners_norm :=
  repeat first [ rewrite listeners_on_ne by discriminate
               | rewrite listeners_on
               | rewrite listeners_off_ne by discriminate
               | rewrite listeners_off ].

Module SendTxFacts.
Import SendTx.

Lemma passes_zeroOrAbsent code :
  notNullish code && notStrictlyZero code = false ↔ zeroOrAbsent code.
Proof.
  unfold zeroOrAbsent. split.
  - destruct code as [[| | [| |] | | |]|]; simpl; intros; try discriminate; auto.
  - intros [-> | [-> | ->]]; reflexivity.
Qed.

(** The lookup of line 29. *)
Lemma find_chain_none chains chain :
  (∀ c, c ∈ chains → chainId c ≠ chain) →
  List.find (λ c, String.eqb (chainId c) chain) chains = None.
Proof.
  induction chains as [|c chains IH]; intros Hno; [done|]. simpl.
  destruct (String.eqb_spec (chainId c) chain) as [E|_].
  - destruct (Hno c); [left|done].
  - apply IH. intros c' Hc'. apply Hno. by right.
Qed.

Lemma find_chain_first before chainInfo after :
  (∀ c, c ∈ before → chainId c ≠ chainId chainInfo) →
  List.find (λ c, String.eqb (chainId c) (chainId chainInfo))
            (before ++ chainInfo :: after) = Some chainInfo.
Proof.
  induction before as [|c before IH]; intros Hno; simpl.
  - by rewrite String.eqb_refl.
  - destruct (String.eqb_spec (chainId c) (chainId chainInfo)) as [E|_].
    + destruct (Hno c); [left|done].
    + apply IH. intros c' Hc'. apply Hno. by right.
Qed.

Lemma sendTxWC_answered fromObject chains base64 post chain tx mode data :
  answered chains base64 post chain tx mode data →
  sendTxWC fromObject chains base64 post chain tx mode
  = handleResponse fromObject (isProtoTx tx) data.
Proof.
  intros (chainInfo & Hfind & Hpost). unfold sendTxWC.
  by rewrite Hfind, Hpost.
Qed.

(** What is made of a response that is neither [undefined] nor [null]. *)
Lemma handleResponse_response fromObject proto data response :
  txResponseOf proto data = inr (Some response) → response ≠ JNull →
  handleResponse fromObject proto data
  = if notNullish (prop "code" response)
       && notStrictlyZero (prop "code" response)
    then Thrown (Error (prop "raw_log" response))
    else bufferFromHex fromObject (prop "txhash" response).
Proof.
  intros E Hnn. unfold handleResponse. rewrite E.
  by destruct response.
Qed.

Lemma handleResponse_nullish fromObject proto data :
  match txResponseOf proto data with
  | inl _ | inr None | inr (Some JNull) => True
  | _ => False
  end →
  handleResponse fromObject proto data = Thrown TypeError.
Proof.
  unfold handleResponse.
  destruct (txResponseOf proto data) as [e|[[]|]] eqn:E; try done.
  intros _. unfold txResponseOf in E. destruct proto; [|done].
  by destruct data as [[]|]; simpl in E; simplify_eq.
Qed.

(** Decoding, two characters at a time. *)
Lemma hexDigit_range c d : hexDigit c = Some d → (0 ≤ d < 16)%Z.
Proof.
  unfold hexDigit. intros Hd.
  repeat match type of Hd with
         | (if ?b then _ else _) = _ => destruct b eqn:?
         end; simplify_eq; lia.
Qed.

Lemma hexDecode_pair a b rest :
  hexDecode (String a (String b rest))
  = match parseInt16 a b with
    | Some parsed => (parsed mod 256)%Z :: hexDecode rest
    | None => []
    end.
Proof. reflexivity. Qed.

Lemma hexDigit_hexChar upper d :
  (0 ≤ d < 16)%Z → hexDigit (hexChar upper d) = Some d.
Proof.
  intros Hd. assert (d = Z.of_nat (Z.to_nat d)) as -> by lia.
  assert (Z.to_nat d < 16)%nat as Hn by lia. revert Hn.
  generalize (Z.to_nat d). intros n Hn.
  do 16 (destruct n as [|n]; [by destruct upper|]). lia.
Qed.

Lemma parseInt16_hexChar upper h l :
  (0 ≤ h < 16)%Z → (0 ≤ l < 16)%Z →
  parseInt16 (hexChar upper h) (hexChar upper l) = Some (16 * h + l)%Z.
Proof.
  intros Hh Hl. assert (h = Z.of_nat (Z.to_nat h)) as -> by lia.
  assert (l = Z.of_nat (Z.to_nat l)) as -> by lia.
  assert (Z.to_nat h < 16)%nat as Hn by lia.
  assert (Z.to_nat l < 16)%nat as Hm by lia. revert Hn Hm.
  generalize (Z.to_nat h), (Z.to_nat l). intros n m Hn Hm.
  do 16 (destruct n as [|n];
         [do 16 (destruct m as [|m]; [by destruct upper|]); lia|]).
  lia.
Qed.

Lemma hexDecode_hexText upper bytes :
  Forall isByte bytes → hexDecode (hexText upper bytes) = bytes.
Proof.
  induction 1 as [|b bytes Hb _ IH]; [done|]. unfold isByte in Hb.
  cbn [hexText]. rewrite hexDecode_pair, parseInt16_hexChar, IH.
  - f_equal. rewrite <- Z.div_mod by lia. apply Z.mod_small. lia.
  - split; [apply Z.div_pos; lia | apply Z.div_lt_upper_bound; lia].
  - apply Z.mod_pos_bound. lia.
Qed.

(** A hexadecimal digit is no white space, no sign and no [x]. *)
Lemma hexDigit_plain c d :
  hexDigit c = Some d →
  isWhiteSpace c = false ∧ Ascii.eqb c "+" = false ∧ Ascii.eqb c "-" = false
  ∧ Ascii.eqb c "x" = false ∧ Ascii.eqb c "X" = false.
Proof.
  destruct c as [[] [] [] [] [] [] [] []]; vm_compute; intros; by simplify_eq.
Qed.

Lemma parseInt16_digits a b h l :
  hexDigit a = Some h → hexDigit b = Some l →
  parseInt16 a b = Some (16 * h + l)%Z.
Proof.
  intros Ha Hb. unfold parseInt16.
  destruct (hexDigit_plain a h Ha) as (-> & -> & -> & _).
  destruct (hexDigit_plain b l Hb) as (_ & _ & _ & -> & ->).
  rewrite Ha, Hb. by rewrite andb_false_r.
Qed.

Lemma hexDecode_bytes n : ∀ s, String.length s < n →
  (List.length (hexDecode s) ≤ Nat.div2 (String.length s))%nat
  ∧ Forall isByte (hexDecode s)
  ∧ (allHex s = true
     → List.length (hexDecode s) = Nat.div2 (String.length s)).
Proof.
  induction n as [|n IH]; intros s Hn; [lia|].
  destruct s as [|a [|b rest]].
  - simpl. repeat split; auto.
  - simpl. repeat split; auto.
  - rewrite hexDecode_pair.
    change (Nat.div2 (String.length (String a (String b rest))))
      with (S (Nat.div2 (String.length rest))).
    destruct (IH rest) as (Hlen & Hrange & Hhex); [simpl in Hn; lia|].
    cbn [allHex].
    destruct (hexDigit a) as [h|] eqn:Hh.
    + destruct (hexDigit b) as [l|] eqn:Hl.
      * rewrite (parseInt16_digits a b h l) by done. simpl. repeat split.
        -- lia.
        -- constructor; [apply Z.mod_pos_bound; lia | done].
        -- intros Hall. by rewrite Hhex.
      * destruct (parseInt16 a b); simpl; repeat split; auto; try lia;
          try discriminate.
        constructor; [apply Z.mod_pos_bound; lia | done].
    + destruct (parseInt16 a b); simpl; repeat split; auto; try lia;
        try discriminate.
      constructor; [apply Z.mod_pos_bound; lia | done].
Qed.

(** What the check of [code] decides for a response that is there. *)
Lemma handleResponse_decides fromObject proto data response :
  txResponseOf proto data = inr (Some response) → response ≠ JNull →
  let result := handleResponse fromObject proto data in
  let code := prop "code" response in
  (¬ zeroOrAbsent code → result = Thrown (Error (prop "raw_log" response)))
  ∧ (zeroOrAbsent code →
     match prop "txhash" response with
     | Some (JStr txhash) =>
         result = Returned (hexDecode txhash)
         ∧ ∀ upper bytes,
             Forall isByte bytes → txhash = hexText upper bytes →
             result = Returned bytes
     | Some (JArr items) => result = fromObject (JArr items)
     | Some (JObj fields) => result = fromObject (JObj fields)
     | None | Some JNull | Some (JBool _) | Some (JNum _) =>
         result = Thrown TypeError
     end)
  ∧ ((∃ bytes, result = Returned bytes) → zeroOrAbsent code)
  ∧ ((∃ message, result = Thrown (Error message)) →
     ¬ zeroOrAbsent code
     ∨ ∃ v, prop "txhash" response = Some v ∧ result = fromObject v).
Proof.
  intros E Hnn result code. subst result code.
  rewrite (handleResponse_response _ _ _ response E Hnn).
  destruct (notNullish (prop "code" response)
            && notStrictlyZero (prop "code" response)) eqn:Hc.
  - assert (¬ zeroOrAbsent (prop "code" response)) as Hn.
    { rewrite <- passes_zeroOrAbsent. congruence. }
    split; [done|]. split; [by intros Hz|].
    split; [by intros [bytes Hb] | by left].
  - apply passes_zeroOrAbsent in Hc.
    split; [by intros Hn|]. split; [intros _|split; [done|intros Herr; right]].
    + destruct (prop "txhash" response) as [[]|]; try done.
      split; [done|]. intros upper bytes Hb ->. simpl.
      by rewrite hexDecode_hexText.
    + destruct Herr as [message Hmsg].
      destruct (prop "txhash" response) as [[]|]; try done; by eexists.
Qed.

End SendTxFacts.

(** One goal per element of a list written out. *)
Ltac split_Forall :=
  repeat match goal with
         | |- Forall _ (_ :: _) => apply List.Forall_cons
         | |- Forall _ [] => apply List.Forall_nil
         end.

Section Respects.
Context {S : Type} (R : S → S → Prop).
Hypothesis R_refl : ∀ s, R s s.
Hypothesis R_trans : ∀ s1 s2 s3, R s1 s2 → R s2 s3 → R s1 s3.

Lemma respects_id : respects R Datatypes.id.
Proof. intros s. apply R_refl. Qed.

Lemma respects_seq body : Forall (respects R) body → respects R (seq body).
Proof.
  unfold seq. induction body as [|stmt body IH] using rev_ind; intros Hb s.
  - apply R_refl.
  - apply Forall_app in Hb as [Hb Hs]. rewrite foldl_app. simpl.
    eapply R_trans; [by apply IH|]. by inversion Hs.
Qed.

Lemma respects_foldl {A} (g : A → S → S) (l : list A) :
  (∀ a, respects R (g a)) → respects R (λ s, foldl (λ s a, g a s) s l).
Proof.
  intros Hg. induction l as [|a l IH] using rev_ind; intros s.
  - apply R_refl.
  - rewrite foldl_app. simpl. eapply R_trans; [apply IH|apply Hg].
Qed.
End Respects.

(** ** Facts about [GetKeplrProvider] *)
Module KeplrFacts.
Import Keplr.

(** *** Settled promises stay settled *)

Lemma settledKept_refl s : settledKept s s.
Proof. split; [done | apply keepsSettled_refl]. Qed.

Lemma settledKept_trans s1 s2 s3 :
  settledKept s1 s2 → settledKept s2 s3 → settledKept s1 s3.
Proof.
  intros [W12 K12] [W23 K23]. split; [congruence|].
  by apply keepsSettled_trans with (promises s2).
Qed.

Lemma settledKept_frame (f : State → State) :
  (∀ s, window (f s) = window s ∧ promises (f s) = promises s) →
  respects settledKept f.
Proof.
  intros Hf s. destruct (Hf s) as [Hw Hp]. split; [done|].
  rewrite Hp. apply keepsSettled_refl.
Qed.

Lemma settledKept_fulfil r o : respects settledKept (fulfil r o).
Proof. intros s. split; [done | apply keepsSettled_alter]. Qed.

Lemma settledKept_newPromise p : respects settledKept (newPromise p).
Proof. intros s. split; [done | apply keepsSettled_app]. Qed.

Ltac by_seq :=
  apply (respects_seq settledKept settledKept_refl settledKept_trans);
  split_Forall.

Ltac frame := apply settledKept_frame; intros []; split; reflexivity.

Lemma settledKept_resolve r v : respects settledKept (resolve r v).
Proof. unfold resolve. by_seq; [frame | apply settledKept_fulfil]. Qed.

Lemma settledKept_reject r e : respects settledKept (reject r e).
Proof. unfold reject. by_seq; [frame | apply settledKept_fulfil]. Qed.

Lemma settledKept_cleanUp : respects settledKept cleanUp.
Proof. unfold cleanUp. by_seq; frame. Qed.

Lemma settledKept_adoptWalletConnect r c :
  respects settledKept (adoptWalletConnect r c).
Proof.
  unfold adoptWalletConnect. by_seq; try frame. apply settledKept_resolve.
Qed.

Lemma settledKept_getKeplrFromWindow k :
  respects settledKept (getKeplrFromWindow k).
Proof. unfold getKeplrFromWindow. by_seq; frame. Qed.

Lemma settledKept_newWalletConnect r b :
  respects settledKept (newWalletConnect r b).
Proof. frame. Qed.

Lemma settledKept_runListener h : respects settledKept (runListener h).
Proof.
  destruct h as [r|r|r|r]; unfold runListener.
  - by_seq; [frame | apply settledKept_reject | apply settledKept_cleanUp].
  - by_seq; [frame | apply settledKept_getKeplrFromWindow].
  - intros s. cbv beta zeta. generalize (length (connectors s)). intros c.
    revert s. by_seq; try frame.
    intros s'. destruct (negb _).
    + revert s'. by_seq; frame.
    + revert s'. by_seq;
        [apply settledKept_adoptWalletConnect | apply settledKept_cleanUp].
  - intros s. revert s. by_seq; [frame|].
    intros s. destruct (callbackClosed s !! r);
      [revert s; frame | apply settledKept_refl].
Qed.

Lemma settledKept_emit name : respects settledKept (emit name).
Proof.
  intros s. unfold emit.
  apply (respects_foldl settledKept settledKept_refl settledKept_trans
           runListener).
  apply settledKept_runListener.
Qed.

Lemma settledKept_prompt r : respects settledKept (prompt r).
Proof. unfold prompt. by_seq; try frame. apply settledKept_newPromise. Qed.

Lemma settledKept_getKeplr : respects settledKept getKeplr.
Proof.
  intros s. unfold getKeplr.
  destruct (negb (window s)); [apply settledKept_newPromise|].
  destruct (lastUsedKeplrRef s); [apply settledKept_newPromise|].
  cbv zeta. generalize (length (promises s)), (length (connectors s)).
  intros r c. destruct (defaultConnectionTypeRef s) as [[|]|].
  - revert s. by_seq;
      [apply settledKept_newPromise | apply settledKept_getKeplrFromWindow].
  - eapply settledKept_trans with (newWalletConnect r false s);
      [apply settledKept_newWalletConnect|].
    destruct (isConnected _ _); [|apply settledKept_prompt].
    generalize (newWalletConnect r false s).
    by_seq; try frame. apply settledKept_newPromise.
  - apply settledKept_prompt.
Qed.

Lemma settledKept_runContinuation k keplr :
  respects settledKept (runContinuation k keplr).
Proof.
  destruct k; unfold runContinuation; by_seq; try frame;
    first [apply settledKept_fulfil | apply settledKept_resolve
          | apply settledKept_cleanUp].
Qed.

Lemma settledKept_onConnectListener r c error :
  respects settledKept (onConnectListener r c error).
Proof.
  unfold onConnectListener. by_seq; [apply settledKept_cleanUp|].
  destruct error; [apply settledKept_reject
                  | apply settledKept_adoptWalletConnect].
Qed.

Lemma settledKept_step e : respects settledKept (λ s, step s e).
Proof.
  intros s. destruct e; unfold step; try apply settledKept_emit.
  - apply settledKept_getKeplr.
  - revert s. unfold clearLastUsedKeplr. by_seq; frame.
  - revert s. frame.
  - destruct (probes s !! probe) as [[k|]|]; try apply settledKept_refl.
    revert s. by_seq; [frame | apply settledKept_runContinuation].
  - unfold qrcodeModal_open. destruct (connectors s !! connector) as [k|];
      [|apply settledKept_refl].
    revert s. by_seq; try frame.
    destruct (hidesSelection k); [frame | apply respects_id, settledKept_refl].
  - unfold qrcodeModal_close. destruct (connectors s !! connector);
      [revert s; frame | apply settledKept_refl].
  - destruct (connectors s !! connector) as [k|]; [|apply settledKept_refl].
    revert s. by_seq.
    + destruct error; [apply respects_id, settledKept_refl | frame].
    + destruct (onConnect k); [apply settledKept_onConnectListener
                              | apply respects_id, settledKept_refl].
  - revert s. frame.
Qed.

(** *** A handle a promise is resolved with is in the cache *)

Lemma handlesCached_refl s : handlesCached s s.
Proof. split; auto. Qed.

Lemma handlesCached_trans s1 s2 s3 :
  handlesCached s1 s2 → handlesCached s2 s3 → handlesCached s1 s3.
Proof.
  intros [H12 M12] [H23 M23]. split; [|auto].
  intros r k Hr. destruct (H23 r k Hr) as [Hr2|]; [|auto].
  destruct (H12 r k Hr2); auto.
Qed.

Lemma handlesCached_frame s s' :
  promises s' = promises s → lastUsedKeplrRef s' = lastUsedKeplrRef s →
  handlesCached s s'.
Proof. intros Hp Hc. split; rewrite ?Hp, ?Hc; auto. Qed.

Lemma handlesCached_populated s s' :
  is_Some (lastUsedKeplrRef s') → handlesCached s s'.
Proof. intros Hc. split; auto. Qed.

Lemma handlesCached_reject s s' r reason :
  promises s' = alter (settleWith (Rejected reason)) r (promises s) →
  lastUsedKeplrRef s' = lastUsedKeplrRef s →
  handlesCached s s'.
Proof.
  intros Hp Hc. split; rewrite ?Hc; [|auto]. intros r' k. rewrite Hp.
  intros [?|(_ & [=] & _)]%lookup_alter_settleWith. auto.
Qed.

Lemma handlesCached_runListener h s : handlesCached s (runListener h s).
Proof.
  destruct h as [r|r|r|r].
  - by apply handlesCached_reject with r None.
  - by apply handlesCached_frame.
  - unfold runListener. cbv beta zeta. unfold seq at 1. simpl foldl.
    destruct (negb _).
    + by apply handlesCached_frame.
    + apply handlesCached_populated. by eexists.
  - apply handlesCached_frame; simpl;
      by destruct (callbackClosed _ !! r).
Qed.

Lemma handlesCached_emit name s : handlesCached s (emit name s).
Proof.
  unfold emit.
  apply (respects_foldl handlesCached handlesCached_refl handlesCached_trans
           runListener).
  intros h s'. apply handlesCached_runListener.
Qed.

(** Every step that resolves a promise with a handle leaves that handle in
    the cache; an emission of a dialog, which runs every listener of the
    name, leaves the handle of the last request it resolved. *)
Lemma step_resolved_cached s e r k :
  promises (step s e) !! r = Some (Resolved (Some k)) →
  promises s !! r = Some (Resolved (Some k))
  ∨ lastUsedKeplrRef (step s e) = Some k
  ∨ (isDialogEvent e = true ∧ is_Some (lastUsedKeplrRef (step s e))).
Proof.
  destruct e; unfold step;
    try (intros [?|?]%handlesCached_emit; by auto).
  - unfold getKeplr. destruct (negb (window s)).
    { simpl. intros [[_ ?]|[_ [=]]]%lookup_snoc_Some. auto. }
    destruct (lastUsedKeplrRef s) as [k0|] eqn:Hc.
    { simpl. rewrite Hc.
      intros [[_ ?]|[_ [= ->]]]%lookup_snoc_Some; auto. }
    cbv zeta. destruct (defaultConnectionTypeRef s) as [[|]|].
    + simpl. intros [[_ ?]|[_ [=]]]%lookup_snoc_Some. auto.
    + destruct (isConnected _ _); simpl.
      * intros [[_ ?]|[_ [= <-]]]%lookup_snoc_Some; auto.
      * intros [[_ ?]|[_ [=]]]%lookup_snoc_Some. auto.
    + simpl. intros [[_ ?]|[_ [=]]]%lookup_snoc_Some. auto.
  - simpl. auto.
  - simpl. auto.
  - destruct (probes s !! probe) as [[[r'|r']|]|]; auto; simpl;
      (intros [?|(_ & [= <-] & _)]%lookup_alter_settleWith; auto).
  - unfold qrcodeModal_open. destruct (connectors s !! connector) as [c|];
      [|auto]. destruct (hidesSelection c); simpl; auto.
  - unfold qrcodeModal_close. destruct (connectors s !! connector); simpl; auto.
  - destruct (connectors s !! connector) as [c|]; [|auto].
    destruct (onConnect c), error as [e|]; simpl; auto.
    + intros [?|(_ & [=] & _)]%lookup_alter_settleWith. auto.
    + intros [?|(_ & [= <-] & _)]%lookup_alter_settleWith; auto.
  - simpl. auto.
Qed.

(** *** What a rejection carries *)

Lemma rejectsBare_refl s : rejectsBare s s.
Proof. intros r reason. auto. Qed.

Lemma rejectsBare_trans s1 s2 s3 :
  rejectsBare s1 s2 → rejectsBare s2 s3 → rejectsBare s1 s3.
Proof.
  intros H12 H23 r reason Hr. destruct (H23 r reason Hr); auto.
Qed.

Lemma rejectsBare_frame s s' : promises s' = promises s → rejectsBare s s'.
Proof. intros Hp r reason. rewrite Hp. auto. Qed.

Lemma rejectsBare_runListener h s : rejectsBare s (runListener h s).
Proof.
  destruct h as [r|r|r|r].
  - intros r' reason. simpl.
    intros [?|(_ & [= <-] & _)]%lookup_alter_settleWith; auto.
  - by apply rejectsBare_frame.
  - unfold runListener. cbv beta zeta. unfold seq at 1. simpl foldl.
    destruct (negb _); [by apply rejectsBare_frame|].
    intros r' reason. simpl.
    intros [?|(_ & [=] & _)]%lookup_alter_settleWith; auto.
  - apply rejectsBare_frame. simpl. by destruct (callbackClosed _ !! r).
Qed.

Lemma rejectsBare_emit name s : rejectsBare s (emit name s).
Proof.
  unfold emit.
  apply (respects_foldl rejectsBare rejectsBare_refl rejectsBare_trans
           runListener).
  intros h s'. apply rejectsBare_runListener.
Qed.

(** A step that rejects a promise is an emission of a dialog and the
    rejection has no reason, or it is the connector reporting an error and
    the rejection carries that error. *)
Lemma step_rejected_kind s e r reason :
  promises (step s e) !! r = Some (Rejected reason) →
  promises s !! r = Some (Rejected reason)
  ∨ (isDialogEvent e = true ∧ reason = None)
  ∨ (∃ c err, e = Connect c (Some err) ∧ reason = Some err).
Proof.
  destruct e; unfold step;
    try (intros [?|?]%rejectsBare_emit; by auto).
  - unfold getKeplr. destruct (negb (window s)).
    { simpl. intros [[_ ?]|[_ [=]]]%lookup_snoc_Some. auto. }
    destruct (lastUsedKeplrRef s).
    { simpl. intros [[_ ?]|[_ [=]]]%lookup_snoc_Some. auto. }
    cbv zeta. destruct (defaultConnectionTypeRef s) as [[|]|].
    + simpl. intros [[_ ?]|[_ [=]]]%lookup_snoc_Some. auto.
    + destruct (isConnected _ _); simpl;
        intros [[_ ?]|[_ [=]]]%lookup_snoc_Some; auto.
    + simpl. intros [[_ ?]|[_ [=]]]%lookup_snoc_Some. auto.
  - simpl. auto.
  - simpl. auto.
  - destruct (probes s !! probe) as [[[r'|r']|]|]; auto; simpl;
      (intros [?|(_ & [=] & _)]%lookup_alter_settleWith; auto).
  - unfold qrcodeModal_open. destruct (connectors s !! connector) as [c|];
      [|auto]. destruct (hidesSelection c); simpl; auto.
  - unfold qrcodeModal_close. destruct (connectors s !! connector); simpl; auto.
  - destruct (connectors s !! connector) as [c|]; [|auto].
    destruct (onConnect c), error as [e|]; simpl; auto.
    + intros [?|(_ & [= ->] & _)]%lookup_alter_settleWith; [auto|].
      right. right. exists connector, e. split; reflexivity.
    + intros [?|(_ & [=] & _)]%lookup_alter_settleWith; auto.
  - simpl. auto.
Qed.

(** *** Equations of the entry points *)

Lemma emit_single name h s :
  listeners name (eventListener s) = [h] → emit name s = runListener h s.
Proof. intros Hls. unfold emit. by rewrite Hls. Qed.

Lemma emit_none name s :
  listeners name (eventListener s) = [] → emit name s = s.
Proof. intros Hls. unfold emit. by rewrite Hls. Qed.

Lemma isConnected_newWalletConnect r b s :
  isConnected (length (connectors s)) (newWalletConnect r b s)
  = sessionStored s.
Proof.
  unfold isConnected. simpl. by rewrite list_lookup_middle.
Qed.

Lemma runListener_select_connected r s :
  sessionStored s = true →
  runListener (OnSelectWalletConnect r) s
  = seq [adoptWalletConnect r (length (connectors s)); cleanUp]
        (eventListener_on "wc_qr_modal_close" (OnWcQrModalClose r)
           (newWalletConnect r true s)).
Proof.
  intros Hst. unfold runListener. cbv zeta. unfold seq at 1. cbn [foldl].
  assert (isConnected (length (connectors s))
            (eventListener_on "wc_qr_modal_close" (OnWcQrModalClose r)
               (newWalletConnect r true s)) = true) as ->; [|done].
  etrans; [|exact Hst]. exact (isConnected_newWalletConnect r true s).
Qed.

Lemma runListener_select_unconnected r s :
  sessionStored s = false →
  runListener (OnSelectWalletConnect r) s
  = seq [call (CreateSession (length (connectors s)));
         connector_onConnect (length (connectors s))]
        (eventListener_on "wc_qr_modal_close" (OnWcQrModalClose r)
           (newWalletConnect r true s)).
Proof.
  intros Hst. unfold runListener. cbv zeta. unfold seq at 1. cbn [foldl].
  assert (isConnected (length (connectors s))
            (eventListener_on "wc_qr_modal_close" (OnWcQrModalClose r)
               (newWalletConnect r true s)) = false) as ->; [|done].
  etrans; [|exact Hst]. exact (isConnected_newWalletConnect r true s).
Qed.

Lemma getKeplr_prompt s :
  window s = true → lastUsedKeplrRef s = None →
  defaultConnectionTypeRef s = None →
  getKeplr s = prompt (length (promises s)) s.
Proof. intros Hw Hc Hp. unfold getKeplr. by rewrite Hw, Hc, Hp. Qed.

Lemma getKeplr_default_extension s :
  window s = true → lastUsedKeplrRef s = None →
  defaultConnectionTypeRef s = Some extension →
  getKeplr s
  = seq [newPromise Pending;
         getKeplrFromWindow (ThenDefault (length (promises s)))] s.
Proof. intros Hw Hc Hp. unfold getKeplr. by rewrite Hw, Hc, Hp. Qed.

Lemma getKeplr_default_wallet_connect s :
  window s = true → lastUsedKeplrRef s = None →
  defaultConnectionTypeRef s = Some wallet_connect →
  getKeplr s
  = let r := length (promises s) in
    let c := length (connectors s) in
    if sessionStored s
    then seq [setLastUsedKeplr (Some (KeplrWalletConnectV1 c));
              setConnectionType (Some wallet_connect);
              newPromise (Resolved (Some (KeplrWalletConnectV1 c)))]
             (newWalletConnect r false s)
    else prompt r (newWalletConnect r false s).
Proof.
  intros Hw Hc Hp. unfold getKeplr. rewrite Hw, Hc, Hp. cbv zeta.
  cbn [negb]. by rewrite isConnected_newWalletConnect.
Qed.

Lemma step_KeplrFromWindow s p k keplr :
  probes s !! p = Some (Some k) →
  step s (KeplrFromWindow p keplr)
  = runContinuation k keplr (setProbes (<[p := None]> (probes s)) s).
Proof. intros Hp. unfold step. by rewrite Hp. Qed.

Lemma step_Connect s c k error :
  connectors s !! c = Some k → onConnect k = true →
  step s (Connect c error)
  = onConnectListener (owner k) c error
      (match error with Some _ => s | None => markConnected c s end).
Proof. intros Hc Hon. unfold step. rewrite Hc, Hon. by destruct error. Qed.

(** *** Listener hygiene *)

Lemma elem_of_listeners_on name name' (h h' : Listener) ev :
  h' ∈ listeners name (on name' h ev)
  ↔ h' ∈ listeners name ev ∨ (name' = name ∧ h' = h).
Proof.
  destruct (decide (name' = name)) as [->|Hne].
  - rewrite listeners_on, elem_of_app, list_elem_of_singleton. tauto.
  - rewrite listeners_on_ne by done. tauto.
Qed.

Lemma elem_of_listeners_off name name' (h : Listener) ev :
  h ∈ listeners name (off name' ev) ↔ name' ≠ name ∧ h ∈ listeners name ev.
Proof.
  destruct (decide (name' = name)) as [->|Hne].
  - rewrite listeners_off, elem_of_nil. tauto.
  - rewrite listeners_off_ne by done. tauto.
Qed.

Lemma cleanUp_quiet s :
  (∀ name h, h ∈ listeners name (eventListener s) → listenerName h = name) →
  quiet (eventListener (cleanUp s)).
Proof.
  intros Hn name. apply elem_of_nil_inv. intros h Hh. simpl in Hh.
  rewrite !elem_of_listeners_off in Hh.
  destruct Hh as (? & ? & ? & ? & ? & Hin). apply Hn in Hin.
  destruct h; simpl in Hin; congruence.
Qed.

Lemma wellFormed_quiet s :
  quiet (eventListener s) →
  (∀ r, awaitsDefault s r → r < length (promises s)) →
  wellFormed s.
Proof.
  intros Hq Hr. split; [| |done|].
  - intros name h. rewrite Hq, elem_of_nil. tauto.
  - intros name h. rewrite Hq, elem_of_nil. tauto.
  - intros r name h _. rewrite Hq, elem_of_nil. tauto.
Qed.

Lemma wellFormed_sameCore s s' : sameCore s s' → wellFormed s → wellFormed s'.
Proof.
  intros (Hp & Hev & Hpr) [Hh Hn Hr Hd].
  split; unfold hygienic, awaitsDefault in *; rewrite ?Hp, ?Hev, ?Hpr; done.
Qed.

Lemma wellFormed_initial w stored : wellFormed (initial w stored).
Proof.
  apply wellFormed_quiet; [apply quiet_empty|].
  intros r [p Hp]. simpl in Hp. by rewrite lookup_nil in Hp.
Qed.

(** A settled outcome at [r] leaves the requests that have listeners
    pending, when no listener is of [r]. *)
Lemma hygienic_settle s s' r o :
  promises s' = alter (settleWith o) r (promises s) →
  eventListener s' = eventListener s →
  (∀ name h, h ∈ listeners name (eventListener s) → listenerRequest h ≠ r) →
  hygienic s → hygienic s'.
Proof.
  intros Hp Hev Hne Hh name h Hin. rewrite Hev in Hin. rewrite Hp.
  rewrite list_lookup_alter_ne by (intros ->; by eapply Hne).
  by eapply Hh.
Qed.

(** A new promise leaves the others where they are. *)
Lemma hygienic_newPromise s s' p :
  promises s' = promises s ++ [p] →
  eventListener s' = eventListener s →
  hygienic s → hygienic s'.
Proof.
  intros Hp Hev Hh name h Hin. rewrite Hev in Hin. rewrite Hp.
  apply lookup_app_l_Some. by eapply Hh.
Qed.

Lemma awaitsDefault_settled s p r :
  awaitsDefault (setProbes (<[p := None]> (probes s)) s) r → awaitsDefault s r.
Proof.
  intros [p' Hp']. simpl in Hp'. exists p'.
  destruct (decide (p = p')) as [->|Hne].
  - apply list_lookup_insert_Some in Hp' as [(_ & [=] & _)|[? _]]; done.
  - by rewrite list_lookup_insert_ne in Hp'.
Qed.

Lemma wellFormed_frame s s' :
  promises s' = promises s → eventListener s' = eventListener s →
  (∀ r, awaitsDefault s' r → awaitsDefault s r) →
  wellFormed s → wellFormed s'.
Proof.
  intros Hp Hev Hpr [Hh Hn Hr Hd].
  split; unfold hygienic in *; rewrite ?Hp, ?Hev; eauto.
Qed.

Lemma awaitsDefault_ThenSelected s s' r r' :
  probes s' = probes s ++ [Some (ThenSelected r')] →
  awaitsDefault s' r → awaitsDefault s r.
Proof.
  intros Hpr [p Hp]. rewrite Hpr in Hp.
  apply lookup_snoc_Some in Hp as [[_ Hp]|[_ [=]]]. by exists p.
Qed.

(** The listeners of the four names, one at a time. *)
Lemma wellFormed_OnModalClose r s :
  wellFormed s → wellFormed (runListener (OnModalClose r) s).
Proof.
  intros [Hh Hn Hr Hd]. apply wellFormed_quiet.
  - apply (cleanUp_quiet (reject r None (setIsModalOpen false s))), Hn.
  - intros r' Hr'. simpl. rewrite length_alter. by apply Hr.
Qed.

Lemma wellFormed_OnSelectExtension r s :
  wellFormed s → wellFormed (runListener (OnSelectExtension r) s).
Proof.
  apply wellFormed_frame; [done..|].
  intros r'. by apply awaitsDefault_ThenSelected with r.
Qed.

Lemma sameCore_OnWcQrModalClose r s :
  sameCore s (runListener (OnWcQrModalClose r) s).
Proof. simpl. by destruct (callbackClosed s !! r). Qed.

Lemma wellFormed_select_connected r s :
  sessionStored s = true →
  wellFormed s → wellFormed (runListener (OnSelectWalletConnect r) s).
Proof.
  intros Hst [Hh Hn Hr Hd]. rewrite runListener_select_connected by done.
  apply wellFormed_quiet.
  - apply (cleanUp_quiet
             (adoptWalletConnect r (length (connectors s))
                (eventListener_on "wc_qr_modal_close" (OnWcQrModalClose r)
                   (newWalletConnect r true s)))).
    intros name h [Hin|[<- ->]]%elem_of_listeners_on; [by apply Hn | done].
  - intros r' Hr'. simpl. rewrite length_alter. by apply Hr.
Qed.

Lemma wellFormed_select_unconnected r s :
  sessionStored s = false →
  promises s !! r = Some Pending → ¬ awaitsDefault s r →
  wellFormed s →
  let s' := runListener (OnSelectWalletConnect r) s in
  wellFormed s'
  ∧ promises s' = promises s ∧ probes s' = probes s
  ∧ sessionStored s' = sessionStored s.
Proof.
  intros Hst Hp Hnd [Hh Hn Hr Hd] s'. subst s'.
  rewrite runListener_select_unconnected by done.
  split; [|done]. split.
  - intros name h [Hin|[<- ->]]%elem_of_listeners_on; [by eapply Hh | done].
  - intros name h [Hin|[<- ->]]%elem_of_listeners_on; [by apply Hn | done].
  - done.
  - intros r' name h Hr' [Hin|[<- ->]]%elem_of_listeners_on;
      [by eapply Hd | by intros <-].
Qed.

Lemma sessionStored_runListener h s :
  sessionStored (runListener h s) = sessionStored s.
Proof.
  destruct h as [r|r|r|r]; try done.
  - destruct (sessionStored s) eqn:Hst.
    + by rewrite runListener_select_connected.
    + by rewrite runListener_select_unconnected.
  - simpl. by destruct (callbackClosed s !! r).
Qed.

(** An emission: the listeners of a name, one after the other. *)
Lemma wellFormed_foldl_others hs s :
  Forall (λ h, ∀ r, h ≠ OnSelectWalletConnect r) hs →
  wellFormed s → wellFormed (foldl (λ s h, runListener h s) s hs).
Proof.
  intros Hhs. revert s. induction Hhs as [|h hs Hh _ IH]; intros s Hs; [done|].
  cbn [foldl]. apply IH. destruct h as [r|r|r|r].
  - by apply wellFormed_OnModalClose.
  - by apply wellFormed_OnSelectExtension.
  - by destruct (Hh r).
  - apply (wellFormed_sameCore s); [apply sameCore_OnWcQrModalClose | done].
Qed.

Lemma wellFormed_foldl_select rs s :
  (sessionStored s = false →
   Forall (λ r, promises s !! r = Some Pending ∧ ¬ awaitsDefault s r) rs) →
  wellFormed s →
  wellFormed (foldl (λ s h, runListener h s) s (OnSelectWalletConnect <$> rs)).
Proof.
  revert s. induction rs as [|r rs IH]; intros s Hrs Hs; [done|].
  rewrite fmap_cons. cbn [foldl]. destruct (sessionStored s) eqn:Hst.
  - apply IH; [|by apply wellFormed_select_connected].
    rewrite sessionStored_runListener. congruence.
  - specialize (Hrs eq_refl). apply Forall_cons in Hrs as [[Hp Hnd] Hrs].
    destruct (wellFormed_select_unconnected r s Hst Hp Hnd Hs)
      as (Hs' & Hp' & Hpr' & Hst').
    apply IH; [|done]. intros _. unfold awaitsDefault. by rewrite Hp', Hpr'.
Qed.

Lemma listeners_select hs :
  Forall (λ h, listenerName h = "select_wallet_connect") hs →
  hs = OnSelectWalletConnect <$> (listenerRequest <$> hs).
Proof.
  induction 1 as [|h hs Hh _ IH]; [done|].
  rewrite !fmap_cons, <- IH. by destruct h.
Qed.

Lemma wellFormed_emit name s : wellFormed s → wellFormed (emit name s).
Proof.
  intros Hs. unfold emit.
  assert (Forall (λ h, listenerName h = name)
            (listeners name (eventListener s))) as Hnames.
  { apply Forall_forall. intros h Hin. by apply (wf_names s Hs). }
  destruct (decide (name = "select_wallet_connect")) as [->|Hne].
  - rewrite (listeners_select _ Hnames).
    apply wellFormed_foldl_select; [|done]. intros _.
    apply Forall_forall. intros r (h & -> & Hin)%list_elem_of_fmap. split.
    + by apply (wf_hygienic s Hs "select_wallet_connect").
    + intros Hd. by apply (wf_default s Hs _ _ h Hd Hin).
  - apply wellFormed_foldl_others; [|done].
    eapply Forall_impl; [exact Hnames|]. intros h <- r ->. by apply Hne.
Qed.

Lemma wellFormed_newPromise p s :
  wellFormed s → wellFormed (newPromise p s).
Proof.
  intros [Hh Hn Hr Hd]. split; [|done| |done].
  - by apply (hygienic_newPromise s _ p).
  - intros r Hr'. simpl. rewrite length_app. apply Hr in Hr'. simpl. lia.
Qed.

Lemma wellFormed_prompt s :
  wellFormed s → wellFormed (prompt (length (promises s)) s).
Proof.
  intros [Hh Hn Hr Hd]. split.
  - intros name h. simpl. rewrite !elem_of_listeners_on.
    intros [[[Hin|[_ ->]]|[_ ->]]|[_ ->]];
      [apply lookup_app_l_Some; by eapply Hh
      | simpl; by apply list_lookup_middle..].
  - intros name h. simpl. rewrite !elem_of_listeners_on.
    intros [[[Hin|[<- ->]]|[<- ->]]|[<- ->]]; [by apply Hn | done..].
  - intros r Hr'. simpl. rewrite length_app. apply Hr in Hr'. simpl. lia.
  - intros r name h Hr'. pose proof (Hr r Hr') as Hlt. simpl.
    rewrite !elem_of_listeners_on.
    intros [[[Hin|[_ ->]]|[_ ->]]|[_ ->]]; [by eapply Hd | simpl; lia..].
Qed.

Lemma wellFormed_getKeplr s : wellFormed s → wellFormed (getKeplr s).
Proof.
  intros Hs. unfold getKeplr.
  destruct (negb (window s)); [by apply wellFormed_newPromise|].
  destruct (lastUsedKeplrRef s); [by apply wellFormed_newPromise|].
  cbv zeta. destruct (defaultConnectionTypeRef s) as [[|]|].
  - destruct Hs as [Hh Hn Hr Hd]. split.
    + by apply (hygienic_newPromise s _ Pending).
    + done.
    + intros r [p Hp]. simpl in *. rewrite length_app. simpl.
      apply lookup_snoc_Some in Hp as [[_ Hp]|[_ [= <-]]]; [|lia].
      assert (r < length (promises s)) by (apply Hr; by exists p). lia.
    + intros r name h [p Hp] Hin. simpl in *.
      apply lookup_snoc_Some in Hp as [[_ Hp]|[_ [= <-]]].
      * apply (Hd r name h); [by exists p | done].
      * apply Hh in Hin. apply lookup_lt_Some in Hin. lia.
  - assert (wellFormed (newWalletConnect (length (promises s)) false s))
      as Hs' by (by apply (wellFormed_sameCore s)).
    destruct (isConnected _ _).
    + apply (wellFormed_newPromise _
               (setConnectionType (Some wallet_connect)
                  (setLastUsedKeplr
                     (Some (KeplrWalletConnectV1 (length (connectors s))))
                     (newWalletConnect (length (promises s)) false s)))).
      by apply (wellFormed_sameCore
                  (newWalletConnect (length (promises s)) false s)).
    + by apply (wellFormed_prompt
                  (newWalletConnect (length (promises s)) false s)).
  - by apply wellFormed_prompt.
Qed.

Lemma wellFormed_runContinuation p k keplr s :
  probes s !! p = Some (Some k) →
  wellFormed s →
  wellFormed (runContinuation k keplr (setProbes (<[p := None]> (probes s)) s)).
Proof.
  intros Hp [Hh Hn Hr Hd]. destruct k as [r|r].
  - split.
    + apply (hygienic_settle s _ r (Resolved keplr)); [done..| |done].
      intros name h Hin. apply (Hd r name h); [by exists p | done].
    + done.
    + intros r' Hr'%awaitsDefault_settled. simpl. rewrite length_alter.
      by apply Hr.
    + intros r' name h Hr'%awaitsDefault_settled. by apply Hd.
  - apply wellFormed_quiet.
    + apply (cleanUp_quiet
               (resolve r keplr
                  (setConnectionType (Some extension)
                     (setLastUsedKeplr keplr
                        (setProbes (<[p := None]> (probes s)) s))))), Hn.
    + intros r' Hr'. simpl. rewrite length_alter. apply Hr.
      by apply (awaitsDefault_settled s p).
Qed.

Lemma wellFormed_onConnectListener r c error s :
  wellFormed s → wellFormed (onConnectListener r c error s).
Proof.
  intros [Hh Hn Hr Hd]. pose proof (cleanUp_quiet s Hn) as Hq.
  apply wellFormed_quiet.
  - destruct error; exact Hq.
  - intros r' Hr'. destruct error; simpl; rewrite length_alter; by apply Hr.
Qed.

Lemma wellFormed_step e s : wellFormed s → wellFormed (step s e).
Proof.
  intros Hs. destruct e; cbn [step]; try (by apply wellFormed_emit).
  - by apply wellFormed_getKeplr.
  - by apply (wellFormed_sameCore s).
  - by apply (wellFormed_sameCore s).
  - destruct (probes s !! probe) as [[k|]|] eqn:Hp; try done.
    by apply (wellFormed_runContinuation probe).
  - unfold qrcodeModal_open. destruct (connectors s !! connector) as [k|];
      [|done]. apply (wellFormed_sameCore s); [|done].
    by destruct (hidesSelection k).
  - unfold qrcodeModal_close. destruct (connectors s !! connector);
      [|done]. by apply (wellFormed_sameCore s).
  - destruct (connectors s !! connector) as [k|]; [|done].
    unfold seq. cbn [foldl].
    assert (wellFormed (match error with
                        | Some _ => id
                        | None => markConnected connector
                        end s)) as Hs'.
    { destruct error; [done|]. by apply (wellFormed_sameCore s). }
    destruct (onConnect k); [|done]. by apply wellFormed_onConnectListener.
  - by apply (wellFormed_sameCore s).
Qed.

Lemma wellFormed_run trace s : wellFormed s → wellFormed (run s trace).
Proof.
  revert s. induction trace as [|e trace IH]; intros s Hs; [done|].
  apply IH. by apply wellFormed_step.
Qed.

End KeplrFacts.

(** ** Facts about [GetWalletProvider] *)
Module WalletFacts.
Import Wallet.

(** *** Settled promises stay settled *)

Lemma outcomeKept_refl s : settledKept s s.
Proof. split; [done | apply keepsSettled_refl]. Qed.

Lemma outcomeKept_trans s1 s2 s3 :
  settledKept s1 s2 → settledKept s2 s3 → settledKept s1 s3.
Proof.
  intros [W12 K12] [W23 K23]. split; [congruence|].
  by apply keepsSettled_trans with (promises s2).
Qed.

Lemma outcomeKept_frame (f : State → State) :
  (∀ s, window (f s) = window s ∧ promises (f s) = promises s) →
  respects settledKept f.
Proof.
  intros Hf s. destruct (Hf s) as [Hw Hp]. split; [done|].
  rewrite Hp. apply keepsSettled_refl.
Qed.

Lemma outcomeKept_fulfil r o : respects settledKept (fulfil r o).
Proof. intros s. split; [done | apply keepsSettled_alter]. Qed.

Lemma outcomeKept_newPromise p : respects settledKept (newPromise p).
Proof. intros s. split; [done | apply keepsSettled_app]. Qed.

Ltac by_seq :=
  apply (respects_seq settledKept outcomeKept_refl outcomeKept_trans);
  split_Forall.

Ltac by_foldl g :=
  apply (respects_foldl settledKept outcomeKept_refl outcomeKept_trans g).

Ltac frame := apply outcomeKept_frame; intros []; split; reflexivity.

Lemma outcomeKept_resolve r v : respects settledKept (resolve r v).
Proof. unfold resolve. by_seq; [frame | apply outcomeKept_fulfil]. Qed.

Lemma outcomeKept_reject r e : respects settledKept (reject r e).
Proof. unfold reject. by_seq; [frame | apply outcomeKept_fulfil]. Qed.

Lemma outcomeKept_cleanUp l : respects settledKept (cleanUp l).
Proof.
  unfold cleanUp. by_seq; try frame.
  by_foldl (λ info, eventListener_off (id info)). intros info. frame.
Qed.

Lemma outcomeKept_resolveWallet r c info b :
  respects settledKept (resolveWallet r c info b).
Proof. unfold resolveWallet. by_seq; frame. Qed.

Lemma outcomeKept_runListener l h : respects settledKept (runListener l h).
Proof.
  destruct h as [r|r|r c info]; unfold runListener.
  - by_seq; [frame | apply outcomeKept_reject | apply outcomeKept_cleanUp].
  - by_seq; [frame|].
    intros s. destruct (callbackClosed s !! r);
      [revert s; frame | apply outcomeKept_refl].
  - by_seq; [frame|]. intros s.
    destruct (String.prefix _ _); [destruct (negb _)|];
      try apply outcomeKept_resolveWallet.
    revert s. by_seq; frame.
Qed.

Lemma outcomeKept_emit l name : respects settledKept (emit l name).
Proof.
  intros s. unfold emit. by_foldl (runListener l).
  apply outcomeKept_runListener.
Qed.

Lemma outcomeKept_request_getWallet l :
  respects settledKept (request_getWallet l).
Proof.
  intros s. unfold request_getWallet.
  destruct (negb (window s)); [apply outcomeKept_newPromise|].
  destruct (truthy _); [apply outcomeKept_newPromise|].
  cbv zeta. generalize (length (promises s)), (length (connectors s)).
  intros r c.
  eapply outcomeKept_trans with (newWalletConnect r s);
    [revert s; frame|].
  destruct (defaultConnectionWalletInfo _ _) as [info|];
    generalize (newWalletConnect r s); by_seq; try frame;
    try apply outcomeKept_newPromise; try apply outcomeKept_resolveWallet.
  by_foldl (λ info, eventListener_on (id info) (OnSelect r c info)).
  intros info. frame.
Qed.

Lemma outcomeKept_resumeResolveWallet l a res :
  respects settledKept (resumeResolveWallet l a res).
Proof.
  unfold resumeResolveWallet. destruct res as [wallet|reason].
  - by_seq; try frame; [apply outcomeKept_cleanUp|].
    destruct (resolver a); [apply outcomeKept_resolve | apply outcomeKept_fulfil].
  - destruct (resolver a);
      [apply respects_id, outcomeKept_refl | apply outcomeKept_fulfil].
Qed.

Lemma outcomeKept_onConnectListener r c info error :
  respects settledKept (onConnectListener r c info error).
Proof.
  destruct error; [apply outcomeKept_reject | apply outcomeKept_resolveWallet].
Qed.

Lemma outcomeKept_step l e : respects settledKept (λ s, step l s e).
Proof.
  intros s. destruct e; unfold step; try apply outcomeKept_emit.
  - apply outcomeKept_request_getWallet.
  - revert s. unfold clearLastUsedWallet. by_seq; frame.
  - revert s. frame.
  - destruct (awaits s !! await) as [[a|]|]; try apply outcomeKept_refl.
    revert s. by_seq; [frame | apply outcomeKept_resumeResolveWallet].
  - unfold qrcodeModal_open. destruct (connectors s !! connector) as [k|];
      [|apply outcomeKept_refl].
    revert s. by_seq; frame.
  - unfold qrcodeModal_close. destruct (connectors s !! connector);
      [revert s; frame | apply outcomeKept_refl].
  - destruct (connectors s !! connector) as [k|]; [|apply outcomeKept_refl].
    revert s. by_seq.
    + destruct error; [apply respects_id, outcomeKept_refl | frame].
    + by_foldl (λ info, onConnectListener (owner k) connector info error).
      intros info. apply outcomeKept_onConnectListener.
  - revert s. frame.
Qed.

(** *** A wallet a promise is resolved with is in the cache *)

Lemma sameButListeners_refl s : sameButListeners s s.
Proof. by destruct s. Qed.

Lemma sameButListeners_trans s1 s2 s3 :
  sameButListeners s1 s2 → sameButListeners s2 s3 → sameButListeners s1 s3.
Proof.
  unfold sameButListeners. intros H12 H23. rewrite H23 at 1. rewrite H12 at 1.
  reflexivity.
Qed.

Lemma sameButListeners_cleanUp l s : sameButListeners s (cleanUp l s).
Proof.
  revert s. unfold cleanUp.
  apply (respects_seq sameButListeners sameButListeners_refl
           sameButListeners_trans).
  split_Forall; try (intros []; reflexivity).
  apply (respects_foldl sameButListeners sameButListeners_refl
           sameButListeners_trans (λ info, eventListener_off (id info))).
  intros info []. reflexivity.
Qed.

Lemma cleanUp_eq l s :
  cleanUp l s = setEventListener (eventListener (cleanUp l s)) s.
Proof. apply sameButListeners_cleanUp. Qed.

Lemma noResolution_refl s : noResolution s s.
Proof. split; auto. Qed.

Lemma noResolution_trans s1 s2 s3 :
  noResolution s1 s2 → noResolution s2 s3 → noResolution s1 s3.
Proof. intros [C12 H12] [C23 H23]. split; [congruence | auto]. Qed.

Lemma noResolution_frame s s' :
  promises s' = promises s → lastUsedWalletRef s' = lastUsedWalletRef s →
  noResolution s s'.
Proof. intros Hp Hc. split; rewrite ?Hp; auto. Qed.

Lemma noResolution_reject r reason s : noResolution s (reject r reason s).
Proof.
  split; [reflexivity|]. intros r' w. simpl.
  intros [?|(_ & [=] & _)]%lookup_alter_settleWith. auto.
Qed.

Lemma noResolution_cleanUp l s : noResolution s (cleanUp l s).
Proof. rewrite cleanUp_eq. by apply noResolution_frame. Qed.

Lemma noResolution_runListener l h s : noResolution s (runListener l h s).
Proof.
  destruct h as [r|r|r c info]; unfold runListener.
  - unfold seq. simpl foldl.
    eapply noResolution_trans; [|apply noResolution_cleanUp].
    eapply noResolution_trans; [|apply noResolution_reject].
    by apply noResolution_frame.
  - apply noResolution_frame; simpl; by destruct (callbackClosed _ !! r).
  - unfold seq at 1. simpl foldl.
    destruct (String.prefix _ _); [destruct (negb _)|];
      by apply noResolution_frame.
Qed.

Lemma noResolution_emit l name s : noResolution s (emit l name s).
Proof.
  unfold emit.
  apply (respects_foldl noResolution noResolution_refl noResolution_trans
           (runListener l)).
  intros h s'. apply noResolution_runListener.
Qed.

Lemma noResolution_onConnectListener r c info error s :
  noResolution s (onConnectListener r c info error s).
Proof.
  destruct error; [apply noResolution_reject | by apply noResolution_frame].
Qed.

(** Every step that resolves a promise with a truthy wallet leaves that
    wallet in the cache. *)
Lemma step_resolved_in_cache l s e r w :
  promises (step l s e) !! r = Some (Resolved w) → truthy w = true →
  promises s !! r = Some (Resolved w) ∨ lastUsedWalletRef (step l s e) = w.
Proof.
  intros Hr Hw. revert Hr.
  destruct e; unfold step; try (intros Hr; left; revert Hr; apply noResolution_emit).
  - unfold request_getWallet. destruct (negb (window s)).
    { simpl. intros [[_ ?]|[_ [= <-]]]%lookup_snoc_Some; [auto | done]. }
    destruct (truthy (lastUsedWalletRef s)).
    { simpl. intros [[_ ?]|[_ [= <-]]]%lookup_snoc_Some; auto. }
    cbv zeta. destruct (defaultConnectionWalletInfo _ _) as [info|].
    + simpl. intros [[_ ?]|[_ [=]]]%lookup_snoc_Some. auto.
    + unfold seq. simpl foldl.
      match goal with
      | |- context [foldl ?f ?s0 l] =>
          assert (Hf : noResolution s0 (foldl f s0 l))
      end.
      { apply (respects_foldl noResolution noResolution_refl noResolution_trans
                 (λ info, eventListener_on (id info)
                            (OnSelect (length (promises s))
                                      (length (connectors s)) info))).
        intros info s'. by apply noResolution_frame. }
      intros Hr. apply Hf in Hr. simpl in Hr.
      apply lookup_snoc_Some in Hr as [[_ ?]|[_ [=]]]. auto.
  - simpl. auto.
  - simpl. auto.
  - destruct (awaits s !! await) as [[a|]|]; auto.
    unfold seq. simpl foldl. unfold resumeResolveWallet.
    destruct res as [wallet|reason].
    + unfold seq. simpl foldl. rewrite cleanUp_eq.
      destruct (resolver a); simpl;
        (intros [?|(_ & [= <-] & _)]%lookup_alter_settleWith; auto).
    + destruct (resolver a); simpl; auto.
      intros [?|(_ & [=] & _)]%lookup_alter_settleWith; auto.
  - unfold qrcodeModal_open. destruct (connectors s !! connector); simpl; auto.
  - unfold qrcodeModal_close. destruct (connectors s !! connector); simpl; auto.
  - destruct (connectors s !! connector) as [k|]; [|auto].
    unfold seq. simpl foldl. intros Hr. left. revert Hr.
    match goal with
    | |- context [foldl ?f ?s0 (onConnect k)] =>
        assert (Hf : noResolution s0 (foldl f s0 (onConnect k)))
    end.
    { apply (respects_foldl noResolution noResolution_refl noResolution_trans
               (λ info, onConnectListener (owner k) connector info error)).
      intros info s'. apply noResolution_onConnectListener. }
    intros Hr. apply Hf in Hr. by destruct error.
  - simpl. auto.
Qed.

(** *** Equations of the entry points *)

Lemma emit_one l name h s :
  listeners name (eventListener s) = [h] → emit l name s = runListener l h s.
Proof. intros Hls. unfold emit. by rewrite Hls. Qed.

Lemma request_getWallet_default l s info :
  window s = true → truthy (lastUsedWalletRef s) = false →
  defaultConnectionWalletInfo l s = Some info →
  request_getWallet l s
  = seq [newPromise Pending;
         resolveWallet (length (promises s)) (length (connectors s)) info false]
        (newWalletConnect (length (promises s)) s).
Proof.
  intros Hw Hc Hf. unfold request_getWallet. rewrite Hw, Hc. cbv zeta.
  cbn [negb].
  change (defaultConnectionWalletInfo l (newWalletConnect _ s))
    with (defaultConnectionWalletInfo l s).
  by rewrite Hf.
Qed.

Lemma request_getWallet_prompt l s :
  window s = true → truthy (lastUsedWalletRef s) = false →
  defaultConnectionWalletInfo l s = None →
  request_getWallet l s
  = seq [newPromise Pending;
         setIsModalOpen true;
         eventListener_on "modal_close" (OnModalClose (length (promises s)));
         eventListener_on "wc_qr_modal_close"
           (OnWcQrModalClose (length (promises s)));
         λ s', foldl (λ s' info,
                 eventListener_on (id info)
                   (OnSelect (length (promises s)) (length (connectors s)) info)
                   s')
               s' l]
        (newWalletConnect (length (promises s)) s).
Proof.
  intros Hw Hc Hf. unfold request_getWallet. rewrite Hw, Hc. cbv zeta.
  cbn [negb].
  change (defaultConnectionWalletInfo l (newWalletConnect _ s))
    with (defaultConnectionWalletInfo l s).
  by rewrite Hf.
Qed.

Lemma runListener_select_resolves l r c info s :
  String.prefix "walletconnect" (id info) = false
  ∨ isConnected c s = true →
  runListener l (OnSelect r c info) s
  = resolveWallet r c info true (setIsModalOpen false s).
Proof.
  intros Hsel. unfold runListener, seq at 1. cbn [foldl].
  change (isConnected c (setIsModalOpen false s)) with (isConnected c s).
  destruct Hsel as [->| ->]; [done|]. by destruct (String.prefix _ _).
Qed.

Lemma runListener_select_pairs l r c info s :
  String.prefix "walletconnect" (id info) = true →
  isConnected c s = false →
  runListener l (OnSelect r c info) s
  = seq [call (CreateSession c); connector_onConnect c info]
        (setIsModalOpen false s).
Proof.
  intros Hp Hc. unfold runListener, seq at 1. cbn [foldl].
  change (isConnected c (setIsModalOpen false s)) with (isConnected c s).
  by rewrite Hp, Hc.
Qed.

Lemma step_GetWalletSettled l s k a res :
  awaits s !! k = Some (Some a) →
  step l s (GetWalletSettled k res)
  = resumeResolveWallet l a res (setAwaits (<[k := None]> (awaits s)) s).
Proof. intros Hk. unfold step. by rewrite Hk. Qed.

(** What settling the awaited resolver does to the session. *)
Lemma resumeResolveWallet_fulfilled l a wallet s :
  promises s !! request a = Some Pending →
  let s' := resumeResolveWallet l a (Fulfilled wallet) s in
  promises s' !! request a = Some (Resolved wallet)
  ∧ lastUsedWalletRef s' = wallet
  ∧ connectionType s' = Some (id (walletInfo a))
  ∧ isModalOpen s' = isModalOpen s
  ∧ wcUri s' = wcUri s
  ∧ calls s' = calls s ++ (if resolver a then [Resolve (request a) wallet]
                           else []).
Proof.
  intros Hr. unfold resumeResolveWallet, seq. cbn [foldl].
  rewrite cleanUp_eq.
  destruct (resolver a); simpl; rewrite list_lookup_alter_eq, Hr, ?app_nil_r;
    repeat split.
Qed.

End WalletFacts.

(** * Properties *)

(** ** The broadcast helper *)

(** C8, as stated, fails: the response [{code: 0}] has the code 0 and
    [sendTxWC] does not succeed on it; with no [txhash] to decode it raises
    a [TypeError], and so it does on [{code: 0, txhash: null}] and on a
    response that is [null]. *)
Lemma sendTxWC_code_zero_without_hash :
  let chains :=
    [{| SendTx.chainId := "cosmoshub-4"; SendTx.rest := "https://lcd" |}] in
  let answering (data : SendTx.Json) :=
    SendTx.sendTxWC (λ _, SendTx.Returned []) chains (λ _, "")
      (λ _ _ _, SendTx.PostData (Some data))
      "cosmoshub-4" (SendTx.StdTx SendTx.JNull) SendTx.sync in
  answering (SendTx.JObj [("code", SendTx.JNum 0)])
  = SendTx.Thrown SendTx.TypeError
  ∧ answering (SendTx.JObj [("code", SendTx.JNum 0);
                            ("txhash", SendTx.JNull)])
    = SendTx.Thrown SendTx.TypeError
  ∧ answering SendTx.JNull = SendTx.Thrown SendTx.TypeError
  ∧ ¬ ∃ bytes,
        answering (SendTx.JObj [("code", SendTx.JNum 0)])
        = SendTx.Returned bytes.
Proof.
  repeat split. intros [bytes Hb]. discriminate.
Qed.

(** C8, amended.  Whatever the endpoint answers: when the response (the
    body, or what the body has under [tx_response] for a protobuf
    transaction) is missing or [null], [sendTxWC] raises a [TypeError].
    Otherwise it raises an error carrying the response's [raw_log] exactly
    when [code] is present and not 0 (neither missing, nor [null], nor the
    number 0).  When [code] is 0 or absent, the outcome is what
    [Buffer.from] makes of [txhash]: for a string the bytes decoded from it
    two characters at a time (for the hexadecimal text of a sequence of
    bytes, in capitals or in small letters, that very sequence); a
    [TypeError] when [txhash] is missing, [null], a boolean or a number;
    what the library makes of it when it is an array or an object.  So
    [sendTxWC] returns bytes only when [code] is 0 or absent, and when it
    is, the hash of a [txhash] string. *)
Theorem sendTxWC_code_decides
  (bufferFromObject : SendTx.Json → SendTx.Outcome)
  (chains : list SendTx.ChainInfo) (base64 : list Z → string)
  (post : string → string → SendTx.Params → SendTx.PostResult)
  (chain : string) (tx : SendTx.Tx) (mode : SendTx.BroadcastMode)
  (data : option SendTx.Json) :
  SendTx.answered chains base64 post chain tx mode data →
  let result :=
    SendTx.sendTxWC bufferFromObject chains base64 post chain tx mode in
  match (match tx with
         | SendTx.StdTx _ => inr data
         | SendTx.TxBytes _ =>
             match data with
             | None | Some SendTx.JNull => inl SendTx.TypeError
             | Some body => inr (SendTx.prop "tx_response" body)
             end
         end) with
  | inl _ | inr None | inr (Some SendTx.JNull) =>
      result = SendTx.Thrown SendTx.TypeError
  | inr (Some response) =>
      let code := SendTx.prop "code" response in
      (¬ SendTx.zeroOrAbsent code →
         result = SendTx.Thrown (SendTx.Error (SendTx.prop "raw_log" response)))
      ∧ (SendTx.zeroOrAbsent code →
         match SendTx.prop "txhash" response with
         | Some (SendTx.JStr txhash) =>
             result = SendTx.Returned (SendTx.hexDecode txhash)
             ∧ ∀ upper bytes,
                 Forall SendTx.isByte bytes →
                 txhash = SendTx.hexText upper bytes →
                 result = SendTx.Returned bytes
         | Some (SendTx.JArr items) =>
             result = bufferFromObject (SendTx.JArr items)
         | Some (SendTx.JObj fields) =>
             result = bufferFromObject (SendTx.JObj fields)
         | None | Some SendTx.JNull | Some (SendTx.JBool _)
         | Some (SendTx.JNum _) =>
             result = SendTx.Thrown SendTx.TypeError
         end)
      ∧ ((∃ bytes, result = SendTx.Returned bytes) → SendTx.zeroOrAbsent code)
      ∧ ((∃ message, result = SendTx.Thrown (SendTx.Error message)) →
         ¬ SendTx.zeroOrAbsent code
         ∨ ∃ v, SendTx.prop "txhash" response = Some v
                ∧ result = bufferFromObject v)
  end.
Proof.
  intros Hans result. subst result.
  rewrite (SendTxFacts.sendTxWC_answered _ _ _ _ _ _ _ _ Hans).
  assert (match tx with
          | SendTx.StdTx _ => inr data
          | SendTx.TxBytes _ =>
              match data with
              | None | Some SendTx.JNull => inl SendTx.TypeError
              | Some body => inr (SendTx.prop "tx_response" body)
              end
          end = SendTx.txResponseOf (SendTx.isProtoTx tx) data) as ->
    by (by destruct tx, data as [[]|]).
  destruct (SendTx.txResponseOf (SendTx.isProtoTx tx) data)
    as [e|[response|]] eqn:E;
    [by apply SendTxFacts.handleResponse_nullish; rewrite E
    | |by apply SendTxFacts.handleResponse_nullish; rewrite E].
  destruct response as [|b|n|s|items|fields];
    [by apply SendTxFacts.handleResponse_nullish; rewrite E
    |by apply SendTxFacts.handleResponse_decides..].
Qed.

(** Scenario C of the specification: the response
    [{code: 0, txhash: "AA11"}] to a legacy transaction, and the response
    [{code: 5, raw_log: "insufficient funds"}] to a protobuf one. *)
Lemma sendTxWC_code_decides_witness :
  SendTx.sendTxWC (λ _, SendTx.Thrown SendTx.TypeError)
    [{| SendTx.chainId := "cosmoshub-4"; SendTx.rest := "https://lcd" |}]
    (λ _, "")
    (λ _ _ _, SendTx.PostData (Some (SendTx.JObj
       [("code", SendTx.JNum 0); ("txhash", SendTx.JStr "AA11")])))
    "cosmoshub-4" (SendTx.StdTx SendTx.JNull) SendTx.sync
  = SendTx.Returned [170%Z; 17%Z]
  ∧ SendTx.sendTxWC (λ _, SendTx.Thrown SendTx.TypeError)
      [{| SendTx.chainId := "cosmoshub-4"; SendTx.rest := "https://lcd" |}]
      (λ _, "")
      (λ _ _ _, SendTx.PostData (Some (SendTx.JObj
         [("tx_response", SendTx.JObj
            [("code", SendTx.JNum 5);
             ("raw_log", SendTx.JStr "insufficient funds")])])))
      "cosmoshub-4" (SendTx.TxBytes [1%Z; 2%Z]) SendTx.block
    = SendTx.Thrown (SendTx.Error (Some (SendTx.JStr "insufficient funds"))).
Proof.
  split.
  - destruct (sendTxWC_code_decides (λ _, SendTx.Thrown SendTx.TypeError)
      [{| SendTx.chainId := "cosmoshub-4"; SendTx.rest := "https://lcd" |}]
      (λ _, "")
      (λ _ _ _, SendTx.PostData (Some (SendTx.JObj
         [("code", SendTx.JNum 0); ("txhash", SendTx.JStr "AA11")])))
      "cosmoshub-4" (SendTx.StdTx SendTx.JNull) SendTx.sync
      (Some (SendTx.JObj
         [("code", SendTx.JNum 0); ("txhash", SendTx.JStr "AA11")])))
      as (_ & Hzero & _).
    + eexists. split; reflexivity.
    + destruct Hzero as [_ Hhex]; [right; right; reflexivity|].
      apply (Hhex true [170%Z; 17%Z]); [|reflexivity].
      repeat constructor; unfold SendTx.isByte; lia.
  - destruct (sendTxWC_code_decides (λ _, SendTx.Thrown SendTx.TypeError)
      [{| SendTx.chainId := "cosmoshub-4"; SendTx.rest := "https://lcd" |}]
      (λ _, "")
      (λ _ _ _, SendTx.PostData (Some (SendTx.JObj
         [("tx_response", SendTx.JObj
            [("code", SendTx.JNum 5);
             ("raw_log", SendTx.JStr "insufficient funds")])])))
      "cosmoshub-4" (SendTx.TxBytes [1%Z; 2%Z]) SendTx.block
      (Some (SendTx.JObj
         [("tx_response", SendTx.JObj
            [("code", SendTx.JNum 5);
             ("raw_log", SendTx.JStr "insufficient funds")])])))
      as (Hnonzero & _).
    + eexists. split; reflexivity.
    + apply Hnonzero. intros [|[|]]; discriminate.
Defined.

(** A code that is a string, even ["0"], is not the number 0. *)
Example sendTxWC_code_is_compared_strictly :
  SendTx.sendTxWC (λ _, SendTx.Thrown SendTx.TypeError)
    [{| SendTx.chainId := "cosmoshub-4"; SendTx.rest := "https://lcd" |}]
    (λ _, "")
    (λ _ _ _, SendTx.PostData (Some (SendTx.JObj
       [("code", SendTx.JStr "0"); ("txhash", SendTx.JStr "AA11")])))
    "cosmoshub-4" (SendTx.StdTx SendTx.JNull) SendTx.sync
  = SendTx.Thrown (SendTx.Error None).
Proof. reflexivity. Qed.

(** The package decodes pair by pair: a character that is no digit ends the
    number of its pair, not the hash. *)
Example sendTxWC_lenient_hash :
  SendTx.hexDecode "0g11" = [0%Z; 17%Z]
  ∧ SendTx.hexDecode "-1ff" = [255%Z; 255%Z]
  ∧ SendTx.hexDecode "0x11" = []
  ∧ SendTx.hexDecode "abc" = [171%Z].
Proof. repeat split. Qed.

(** ** Clearing the cache *)

(** C9.  [clearLastUsedKeplr] and [clearLastUsedWallet] empty the cached
    session and reset [connectionType], change nothing else (the connection
    preference in particular), and doing it twice is doing it once. *)
Theorem clearLastUsed_clears_and_is_idempotent :
  (∀ s : Keplr.State,
     let s' := Keplr.clearLastUsedKeplr s in
     Keplr.lastUsedKeplrRef s' = None
     ∧ Keplr.connectionType s' = None
     ∧ Keplr.defaultConnectionTypeRef s' = Keplr.defaultConnectionTypeRef s
     ∧ s' = Keplr.setConnectionType None (Keplr.setLastUsedKeplr None s)
     ∧ Keplr.clearLastUsedKeplr s' = s')
  ∧ (∀ s : Wallet.State,
     let s' := Wallet.clearLastUsedWallet s in
     Wallet.lastUsedWalletRef s' = Wallet.undefined
     ∧ Wallet.connectionType s' = None
     ∧ Wallet.defaultConnectionTypeRef s' = Wallet.defaultConnectionTypeRef s
     ∧ s' = Wallet.setConnectionType None
              (Wallet.setLastUsedWallet Wallet.undefined s)
     ∧ Wallet.clearLastUsedWallet s' = s').
Proof. split; intros []; repeat split. Qed.

(** ** No window *)

(** C10.  Without a [window] object a request returns a promise that is
    already resolved with [undefined]; apart from that new promise the state
    is the one before the call: no dialog opened, no listener registered, no
    collaborator called, cache, preference and [connectionType] as they
    were. *)
Theorem request_without_window :
  (∀ s : Keplr.State,
     Keplr.window s = false →
     let s' := Keplr.getKeplr s in
     s' = Keplr.setPromises (Keplr.promises s ++ [Resolved None]) s
     ∧ Keplr.promises s' !! length (Keplr.promises s) = Some (Resolved None)
     ∧ Keplr.isModalOpen s' = Keplr.isModalOpen s
     ∧ Keplr.wcUri s' = Keplr.wcUri s
     ∧ Keplr.eventListener s' = Keplr.eventListener s
     ∧ Keplr.calls s' = Keplr.calls s
     ∧ Keplr.lastUsedKeplrRef s' = Keplr.lastUsedKeplrRef s
     ∧ Keplr.defaultConnectionTypeRef s' = Keplr.defaultConnectionTypeRef s
     ∧ Keplr.connectionType s' = Keplr.connectionType s)
  ∧ (∀ (walletInfoList : list Wallet.WalletInfo) (s : Wallet.State),
     Wallet.window s = false →
     let s' := Wallet.request_getWallet walletInfoList s in
     s' = Wallet.setPromises
            (Wallet.promises s ++ [Resolved Wallet.undefined]) s
     ∧ Wallet.promises s' !! length (Wallet.promises s)
       = Some (Resolved Wallet.undefined)
     ∧ Wallet.isModalOpen s' = Wallet.isModalOpen s
     ∧ Wallet.wcUri s' = Wallet.wcUri s
     ∧ Wallet.eventListener s' = Wallet.eventListener s
     ∧ Wallet.calls s' = Wallet.calls s
     ∧ Wallet.lastUsedWalletRef s' = Wallet.lastUsedWalletRef s
     ∧ Wallet.defaultConnectionTypeRef s' = Wallet.defaultConnectionTypeRef s
     ∧ Wallet.connectionType s' = Wallet.connectionType s).
Proof.
  split.
  - intros s Hw s'. subst s'. unfold Keplr.getKeplr. rewrite Hw. simpl.
    unfold Keplr.newPromise. destruct s; simpl.
    repeat split. apply list_lookup_middle. reflexivity.
  - intros l s Hw s'. subst s'. unfold Wallet.request_getWallet.
    rewrite Hw. simpl. unfold Wallet.newPromise. destruct s; simpl.
    repeat split. apply list_lookup_middle. reflexivity.
Qed.

Lemma request_without_window_witness :
  Keplr.promises (Keplr.getKeplr (Keplr.initial false true)) !! 0
    = Some (Resolved None)
  ∧ Wallet.promises
      (Wallet.request_getWallet [] (Wallet.initial false true)) !! 0
    = Some (Resolved Wallet.undefined).
Proof.
  split.
  - exact (proj1 (proj2 (proj1 request_without_window
                           (Keplr.initial false true) eq_refl))).
  - exact (proj1 (proj2 (proj2 request_without_window []
                           (Wallet.initial false true) eq_refl))).
Defined.

(** ** The cached session *)

Lemma Keplr_getKeplr_cached s k :
  Keplr.window s = true → Keplr.lastUsedKeplrRef s = Some k →
  Keplr.getKeplr s
  = Keplr.setPromises (Keplr.promises s ++ [Resolved (Some k)]) s.
Proof. intros Hw Hc. unfold Keplr.getKeplr. by rewrite Hw, Hc. Qed.

Lemma Keplr_getKeplr_cached_iter s k n :
  Keplr.window s = true → Keplr.lastUsedKeplrRef s = Some k →
  Nat.iter n Keplr.getKeplr s
  = Keplr.setPromises
      (Keplr.promises s ++ replicate n (Resolved (Some k))) s.
Proof.
  intros Hw Hc. induction n as [|n IH]; simpl.
  - rewrite app_nil_r. by destruct s.
  - rewrite IH, (Keplr_getKeplr_cached _ k) by done. simpl.
    rewrite <- app_assoc, <- replicate_cons_app. reflexivity.
Qed.

Lemma Wallet_getWallet_cached l s :
  Wallet.window s = true → Wallet.truthy (Wallet.lastUsedWalletRef s) = true →
  Wallet.request_getWallet l s
  = Wallet.setPromises
      (Wallet.promises s ++ [Resolved (Wallet.lastUsedWalletRef s)]) s.
Proof. intros Hw Hc. unfold Wallet.request_getWallet. by rewrite Hw, Hc. Qed.

Lemma Wallet_getWallet_cached_iter l s n :
  Wallet.window s = true → Wallet.truthy (Wallet.lastUsedWalletRef s) = true →
  Nat.iter n (Wallet.request_getWallet l) s
  = Wallet.setPromises
      (Wallet.promises s
         ++ replicate n (Resolved (Wallet.lastUsedWalletRef s))) s.
Proof.
  intros Hw Hc. induction n as [|n IH]; simpl.
  - rewrite app_nil_r. by destruct s.
  - rewrite IH, Wallet_getWallet_cached by done. simpl.
    rewrite <- app_assoc, <- replicate_cons_app. reflexivity.
Qed.

(** *** What keeps the cache *)
Section KeplrCacheKept.
Import Keplr KeplrFacts.

Lemma Keplr_cacheKept_refl s : Keplr_cacheKept s s.
Proof. by split. Qed.

Lemma Keplr_cacheKept_trans s1 s2 s3 :
  Keplr_cacheKept s1 s2 → Keplr_cacheKept s2 s3 → Keplr_cacheKept s1 s3.
Proof. intros [H1 L1] [H2 L2]. split; congruence. Qed.

Ltac kept_seq :=
  apply (respects_seq Keplr_cacheKept Keplr_cacheKept_refl
           Keplr_cacheKept_trans);
  split_Forall.

Ltac kept_frame :=
  let s := fresh "s" in
  intros s; split; [reflexivity | simpl; by rewrite ?length_alter].

Lemma Keplr_cacheKept_fulfil r o : respects Keplr_cacheKept (fulfil r o).
Proof. kept_frame. Qed.

Lemma Keplr_cacheKept_reject r e : respects Keplr_cacheKept (reject r e).
Proof. kept_frame. Qed.

Lemma Keplr_cacheKept_cleanUp : respects Keplr_cacheKept cleanUp.
Proof. kept_frame. Qed.

(** The listeners of the names other than ["select_wallet_connect"]. *)
Lemma Keplr_cacheKept_runListener h :
  (∀ r, h ≠ OnSelectWalletConnect r) →
  respects Keplr_cacheKept (runListener h).
Proof.
  intros Hh. destruct h as [r|r|r|r]; try kept_frame.
  - by destruct (Hh r).
  - intros s. unfold runListener, seq. cbn [foldl].
    destruct (callbackClosed _ !! r); by split.
Qed.

Lemma Keplr_cacheKept_emit name s :
  name ≠ "select_wallet_connect" →
  (∀ h, h ∈ listeners name (eventListener s) → listenerName h = name) →
  Keplr_cacheKept s (emit name s).
Proof.
  intros Hname Hn. unfold emit.
  assert (Forall (λ h, ∀ r, h ≠ OnSelectWalletConnect r)
            (listeners name (eventListener s))) as Hls.
  { apply Forall_forall. intros h Hh r ->. apply Hn in Hh. simpl in Hh.
    congruence. }
  revert Hls. generalize (listeners name (eventListener s)). intros hs Hhs.
  clear Hn. revert s.
  induction Hhs as [|h hs Hh _ IH]; intros s; [apply Keplr_cacheKept_refl|].
  cbn [foldl]. eapply Keplr_cacheKept_trans; [|apply IH].
  by apply Keplr_cacheKept_runListener.
Qed.

(** A step that is no request and that keeps the cache. *)
Lemma Keplr_cacheKept_step s e :
  wellFormed s → Keplr_keepsCache e = true → Keplr_isRequest e = false →
  Keplr_cacheKept s (step s e).
Proof.
  intros Hs Hk Hr. destruct e; try discriminate; unfold step;
    try (apply Keplr_cacheKept_emit; [discriminate|];
         intros h Hh; by apply (wf_names s Hs)).
  - by split.
  - unfold qrcodeModal_open. destruct (connectors s !! connector) as [k|];
      [|apply Keplr_cacheKept_refl].
    unfold seq. cbn [foldl]. by destruct (hidesSelection k).
  - unfold qrcodeModal_close.
    by destruct (connectors s !! connector).
  - destruct error as [err|]; [|discriminate].
    destruct (connectors s !! connector) as [k|];
      [|apply Keplr_cacheKept_refl].
    unfold seq. cbn [foldl]. destruct (onConnect k); [|by split].
    apply (Keplr_cacheKept_trans _ (cleanUp s));
      [apply Keplr_cacheKept_cleanUp | apply Keplr_cacheKept_reject].
  - by split.
Qed.

Lemma settledKept_run trace : respects settledKept (λ s, run s trace).
Proof.
  induction trace as [|e trace IH]; intros s; [apply settledKept_refl|].
  eapply settledKept_trans; [apply (settledKept_step e) | apply IH].
Qed.

(** A listener that resolves a promise with a handle leaves that handle in
    the cache. *)
Lemma runListener_resolved_cached h s r k :
  promises (runListener h s) !! r = Some (Resolved (Some k)) →
  promises s !! r = Some (Resolved (Some k))
  ∨ lastUsedKeplrRef (runListener h s) = Some k.
Proof.
  destruct h as [r'|r'|r'|r'].
  - simpl. intros [?|(_ & [=] & _)]%lookup_alter_settleWith. auto.
  - simpl. auto.
  - destruct (sessionStored s) eqn:Hst.
    + rewrite runListener_select_connected by done. simpl.
      intros [?|(_ & [= <-] & _)]%lookup_alter_settleWith; auto.
    + rewrite runListener_select_unconnected by done. simpl. auto.
  - unfold runListener, seq. cbn [foldl].
    destruct (callbackClosed _ !! r'); simpl; auto.
Qed.

(** In a browser, with a handle in the cache: the events of a trace that
    keep the cache leave the handle there, and each request of the trace
    does nothing but add a promise resolved with it. *)
Lemma Keplr_cache_reused trace : ∀ s cached,
  wellFormed s → window s = true → lastUsedKeplrRef s = Some cached →
  forallb Keplr_keepsCache trace = true →
  lastUsedKeplrRef (run s trace) = Some cached
  ∧ drop (length (promises s)) (promises (run s trace))
    = replicate (Keplr_requests trace) (Resolved (Some cached))
  ∧ ∀ pre post, trace = pre ++ CallGetKeplr :: post →
      step (run s pre) CallGetKeplr
      = setPromises (promises (run s pre) ++ [Resolved (Some cached)])
          (run s pre).
Proof.
  induction trace as [|e trace IH]; intros s cached Hs Hw Hc Htr.
  - split; [done|]. split; [by rewrite drop_all|].
    intros pre post Hpre. by destruct pre.
  - simpl in Htr. apply andb_prop in Htr as [He Htr].
    assert (wellFormed (step s e)) as Hs' by by apply wellFormed_step.
    assert (window (step s e) = true) as Hw'.
    { destruct (settledKept_step e s) as [Hw' _]. cbv beta in Hw'.
      congruence. }
    destruct (Keplr_isRequest e) eqn:Hreq.
    + destruct e; try discriminate.
      assert (step s CallGetKeplr
              = setPromises (promises s ++ [Resolved (Some cached)]) s) as Hstep
        by (by apply Keplr_getKeplr_cached).
      destruct (IH (step s CallGetKeplr) cached) as (Hc' & Hd & Hreqs);
        [done..|by rewrite Hstep|done|].
      split; [done|]. split.
      * change (run s (CallGetKeplr :: trace))
          with (run (step s CallGetKeplr) trace).
        change (Keplr_requests (CallGetKeplr :: trace))
          with (S (Keplr_requests trace)).
        rewrite (drop_S _ (Resolved (Some cached))).
        -- cbn [replicate]. f_equal. rewrite <- Hd. f_equal.
           rewrite Hstep. simpl. rewrite length_app. simpl. lia.
        -- destruct (settledKept_run trace (step s CallGetKeplr)) as [_ Hk].
           apply Hk; [|done]. rewrite Hstep. simpl.
           by apply list_lookup_middle.
      * intros [|e' pre] post Hpre; simplify_eq/=;
          first [done | by apply (Hreqs pre post)].
    + destruct (Keplr_cacheKept_step s e Hs He Hreq) as [Hc' Hl'].
      destruct (IH (step s e) cached) as (Hc'' & Hd & Hreqs);
        [done..|congruence|done|].
      split; [done|]. split.
      * change (run s (e :: trace)) with (run (step s e) trace).
        replace (Keplr_requests (e :: trace)) with (Keplr_requests trace)
          by (unfold Keplr_requests; cbn [List.filter]; by rewrite Hreq).
        rewrite <- Hl'. exact Hd.
      * intros [|e' pre] post Hpre; simplify_eq/=;
          first [done | by apply (Hreqs pre post)].
Qed.
End KeplrCacheKept.

Section WalletCacheKept.
Import Wallet WalletFacts.
Variable l : list WalletInfo.

Lemma Wallet_cacheKept_refl s : Wallet_cacheKept s s.
Proof. by split. Qed.

Lemma Wallet_cacheKept_trans s1 s2 s3 :
  Wallet_cacheKept s1 s2 → Wallet_cacheKept s2 s3 → Wallet_cacheKept s1 s3.
Proof. intros [H1 L1] [H2 L2]. split; congruence. Qed.

Lemma Wallet_cacheKept_cleanUp : respects Wallet_cacheKept (cleanUp l).
Proof. intros s. rewrite cleanUp_eq. by split. Qed.

Lemma Wallet_cacheKept_runListener h :
  respects Wallet_cacheKept (runListener l h).
Proof.
  intros s. destruct h as [r|r|r c info]; unfold runListener, seq;
    cbn [foldl].
  - eapply Wallet_cacheKept_trans; [|apply Wallet_cacheKept_cleanUp].
    split; [done|]. simpl. by rewrite length_alter.
  - destruct (callbackClosed _ !! r); by split.
  - destruct (String.prefix _ _); [|by split].
    destruct (negb _); by split.
Qed.

Lemma Wallet_cacheKept_emit name : respects Wallet_cacheKept (emit l name).
Proof.
  intros s. unfold emit.
  apply (respects_foldl Wallet_cacheKept Wallet_cacheKept_refl
           Wallet_cacheKept_trans (runListener l)).
  apply Wallet_cacheKept_runListener.
Qed.

Lemma Wallet_cacheKept_step s e :
  Wallet_keepsCache e = true → Wallet_isRequest e = false →
  Wallet_cacheKept s (step l s e).
Proof.
  intros Hk Hr. destruct e; try discriminate; unfold step;
    try apply Wallet_cacheKept_emit.
  - by split.
  - destruct res as [wallet|reason]; [discriminate|].
    destruct (awaits s !! await) as [[a|]|]; try apply Wallet_cacheKept_refl.
    unfold seq. cbn [foldl]. unfold resumeResolveWallet.
    destruct (resolver a); [by split|].
    split; [done|]. simpl. by rewrite length_alter.
  - unfold qrcodeModal_open. by destruct (connectors s !! connector).
  - unfold qrcodeModal_close. by destruct (connectors s !! connector).
  - destruct (connectors s !! connector) as [k|];
      [|apply Wallet_cacheKept_refl].
    unfold seq. cbn [foldl].
    eapply Wallet_cacheKept_trans;
      [|apply (respects_foldl Wallet_cacheKept Wallet_cacheKept_refl
                 Wallet_cacheKept_trans
                 (λ info, onConnectListener (owner k) connector info error))].
    + by destruct error.
    + intros info s'. destruct error; [|by split].
      split; [done|]. simpl. by rewrite length_alter.
  - by split.
Qed.

Lemma outcomeKept_run trace : respects settledKept (λ s, run l s trace).
Proof.
  induction trace as [|e trace IH]; intros s; [apply outcomeKept_refl|].
  eapply outcomeKept_trans; [apply (outcomeKept_step l e) | apply IH].
Qed.

(** In a browser, with a wallet in the cache: the events of a trace that
    keep the cache leave the wallet there, and each request of the trace
    does nothing but add a promise resolved with it. *)
Lemma Wallet_cache_reused trace : ∀ s,
  window s = true → truthy (lastUsedWalletRef s) = true →
  forallb Wallet_keepsCache trace = true →
  lastUsedWalletRef (run l s trace) = lastUsedWalletRef s
  ∧ drop (length (promises s)) (promises (run l s trace))
    = replicate (Wallet_requests trace) (Resolved (lastUsedWalletRef s))
  ∧ ∀ pre post, trace = pre ++ CallGetWallet :: post →
      step l (run l s pre) CallGetWallet
      = setPromises
          (promises (run l s pre) ++ [Resolved (lastUsedWalletRef s)])
          (run l s pre).
Proof.
  induction trace as [|e trace IH]; intros s Hw Hc Htr.
  - split; [done|]. split; [by rewrite drop_all|].
    intros pre post Hpre. by destruct pre.
  - simpl in Htr. apply andb_prop in Htr as [He Htr].
    assert (window (step l s e) = true) as Hw'.
    { destruct (outcomeKept_step l e s) as [Hw' _]. cbv beta in Hw'.
      congruence. }
    destruct (Wallet_isRequest e) eqn:Hreq.
    + destruct e; try discriminate.
      assert (step l s CallGetWallet
              = setPromises (promises s ++ [Resolved (lastUsedWalletRef s)]) s)
        as Hstep by (by apply Wallet_getWallet_cached).
      assert (lastUsedWalletRef (step l s CallGetWallet) = lastUsedWalletRef s)
        as Hsame by (by rewrite Hstep).
      destruct (IH (step l s CallGetWallet)) as (Hc' & Hd & Hreqs);
        [done|by rewrite Hsame|done|].
      rewrite Hsame in Hc', Hd, Hreqs.
      split; [done|]. split.
      * change (run l s (CallGetWallet :: trace))
          with (run l (step l s CallGetWallet) trace).
        change (Wallet_requests (CallGetWallet :: trace))
          with (S (Wallet_requests trace)).
        rewrite (drop_S _ (Resolved (lastUsedWalletRef s))).
        -- cbn [replicate]. f_equal. rewrite <- Hd. f_equal.
           rewrite Hstep. simpl. rewrite length_app. simpl. lia.
        -- destruct (outcomeKept_run trace (step l s CallGetWallet))
             as [_ Hk].
           apply Hk; [|done]. rewrite Hstep. simpl.
           by apply list_lookup_middle.
      * intros [|e' pre] post Hpre; simplify_eq/=; [done|].
        by apply (Hreqs pre post).
    + destruct (Wallet_cacheKept_step s e He Hreq) as [Hc' Hl'].
      destruct (IH (step l s e)) as (Hc'' & Hd & Hreqs);
        [done|by rewrite Hc'|done|].
      rewrite Hc' in Hc'', Hd, Hreqs.
      split; [done|]. split.
      * change (run l s (e :: trace)) with (run l (step l s e) trace).
        replace (Wallet_requests (e :: trace)) with (Wallet_requests trace)
          by (unfold Wallet_requests; cbn [List.filter]; by rewrite Hreq).
        rewrite <- Hl'. exact Hd.
      * intros [|e' pre] post Hpre; simplify_eq/=;
          first [done | by apply (Hreqs pre post)].
Qed.
End WalletCacheKept.

(** C5, as stated, fails.  With a stored session and two requests waiting
    at the selection dialog, one pick of the remote method resolves the
    first request with one wrapper and leaves another wrapper in the cache,
    which the next request gets.  After a request was resolved by a
    pairing, the answer of a probe that found no extension empties the
    cache, and the next request opens the selection dialog again; after a
    request was resolved by a probe, a pairing that succeeds puts its
    wrapper in the cache, which the next request gets.  In
    [GetWalletProvider] a second resolver answering overwrites the cache.
    Nowhere was [clearLastUsedKeplr] or [clearLastUsedWallet] called. *)
Lemma later_request_gets_another_handle :
  (let s := Keplr.run (Keplr.initial true true)
              [Keplr.CallGetKeplr; Keplr.CallGetKeplr;
               Keplr.SelectWalletConnect; Keplr.CallGetKeplr] in
   Keplr.promises s
   = [Resolved (Some (Keplr.KeplrWalletConnectV1 0));
      Resolved (Some (Keplr.KeplrWalletConnectV1 1));
      Resolved (Some (Keplr.KeplrWalletConnectV1 1))])
  ∧ (let s := Keplr.run (Keplr.initial true false)
                [Keplr.CallGetKeplr; Keplr.SelectWalletConnect;
                 Keplr.SelectExtension; Keplr.QrcodeModalOpen 0 "wc:abc123";
                 Keplr.Connect 0 None; Keplr.KeplrFromWindow 0 None;
                 Keplr.CallGetKeplr] in
     Keplr.promises s
     = [Resolved (Some (Keplr.KeplrWalletConnectV1 0)); Pending]
     ∧ Keplr.isModalOpen s = true
     ∧ Keplr.lastUsedKeplrRef s = None)
  ∧ (let s := Keplr.run (Keplr.initial true false)
                [Keplr.CallGetKeplr; Keplr.SelectWalletConnect;
                 Keplr.SelectExtension;
                 Keplr.KeplrFromWindow 0 (Some (Keplr.Injected 7));
                 Keplr.Connect 0 None; Keplr.CallGetKeplr] in
     Keplr.promises s
     = [Resolved (Some (Keplr.Injected 7));
        Resolved (Some (Keplr.KeplrWalletConnectV1 0))])
  ∧ (let s := Wallet.run scenarioMethods (Wallet.initial true false)
                [Wallet.CallGetWallet; Wallet.SelectWallet "extension";
                 Wallet.SelectWallet "extension";
                 Wallet.GetWalletSettled 0 (Wallet.Fulfilled (Wallet.object 1));
                 Wallet.GetWalletSettled 1 (Wallet.Fulfilled (Wallet.object 2));
                 Wallet.CallGetWallet] in
     Wallet.promises s
     = [Resolved (Wallet.object 1); Resolved (Wallet.object 2)]).
Proof. vm_compute. repeat split. Qed.

(** C5, amended.  In a browser, the step that resolves a request with a
    handle leaves a handle in the cache: the very one the request got when
    the step ran at most one listener (with several requests waiting at one
    pick of the remote method, each gets a wrapper of its own and the cache
    holds one of them); requests made right then are each returned already
    resolved with the cached handle, the state staying what it was but for
    these new promises; [clearLastUsedKeplr]/[clearLastUsedWallet] empties
    the cache.  And whenever the cache holds a handle, it holds the same
    handle after any events other than [clearLastUsed...], the answer of an
    awaited probe or the fulfilment of an awaited resolver and, in
    [GetKeplrProvider], the pick of the remote method and the success of a
    pairing: through requests, changes of the preference, dismissals of
    either dialog, picks, failures of a pairing or of a resolver and the
    hooks of the pairing dialog.  Each request made meanwhile does nothing
    but add a promise already resolved with that handle: no dialog, no
    listener, no call of a collaborator. *)
Theorem cached_session_is_reused :
  (∀ (s : Keplr.State) (e : Keplr.Event) (r : nat) (k : Keplr.KeplrObject),
     let s' := Keplr.step s e in
     Keplr.window s = true →
     Keplr.promises s !! r ≠ Some (Resolved (Some k)) →
     Keplr.promises s' !! r = Some (Resolved (Some k)) →
     ∃ cached,
       Keplr.lastUsedKeplrRef s' = Some cached
       ∧ ((length (Keplr_listenersRun s e) ≤ 1)%nat → cached = k)
       ∧ (∀ n, Nat.iter n Keplr.getKeplr s'
               = Keplr.setPromises
                   (Keplr.promises s' ++ replicate n (Resolved (Some cached)))
                   s')
       ∧ Keplr.lastUsedKeplrRef (Keplr.clearLastUsedKeplr s') = None)
  ∧ (∀ (stored : bool) (before after : list Keplr.Event)
       (cached : Keplr.KeplrObject),
     let s := Keplr.run (Keplr.initial true stored) before in
     Keplr.lastUsedKeplrRef s = Some cached →
     forallb Keplr_keepsCache after = true →
     let s' := Keplr.run s after in
     Keplr.lastUsedKeplrRef s' = Some cached
     ∧ drop (length (Keplr.promises s)) (Keplr.promises s')
       = replicate (Keplr_requests after) (Resolved (Some cached))
     ∧ ∀ pre post, after = pre ++ Keplr.CallGetKeplr :: post →
         Keplr.step (Keplr.run s pre) Keplr.CallGetKeplr
         = Keplr.setPromises
             (Keplr.promises (Keplr.run s pre) ++ [Resolved (Some cached)])
             (Keplr.run s pre))
  ∧ (∀ (walletInfoList : list Wallet.WalletInfo) (s : Wallet.State)
       (e : Wallet.Event) (r : nat) (w : Wallet.Any),
     let s' := Wallet.step walletInfoList s e in
     Wallet.window s = true →
     Wallet.truthy w = true →
     Wallet.promises s !! r ≠ Some (Resolved w) →
     Wallet.promises s' !! r = Some (Resolved w) →
     Wallet.lastUsedWalletRef s' = w
     ∧ (∀ n, Nat.iter n (Wallet.request_getWallet walletInfoList) s'
             = Wallet.setPromises
                 (Wallet.promises s' ++ replicate n (Resolved w)) s')
     ∧ Wallet.lastUsedWalletRef (Wallet.clearLastUsedWallet s')
       = Wallet.undefined)
  ∧ (∀ (walletInfoList : list Wallet.WalletInfo) (s : Wallet.State)
       (after : list Wallet.Event),
     Wallet.window s = true →
     Wallet.truthy (Wallet.lastUsedWalletRef s) = true →
     forallb Wallet_keepsCache after = true →
     let s' := Wallet.run walletInfoList s after in
     Wallet.lastUsedWalletRef s' = Wallet.lastUsedWalletRef s
     ∧ drop (length (Wallet.promises s)) (Wallet.promises s')
       = replicate (Wallet_requests after)
           (Resolved (Wallet.lastUsedWalletRef s))
     ∧ ∀ pre post, after = pre ++ Wallet.CallGetWallet :: post →
         Wallet.step walletInfoList (Wallet.run walletInfoList s pre)
           Wallet.CallGetWallet
         = Wallet.setPromises
             (Wallet.promises (Wallet.run walletInfoList s pre)
              ++ [Resolved (Wallet.lastUsedWalletRef s)])
             (Wallet.run walletInfoList s pre)).
Proof.
  split; [|split; [|split]].
  - intros s e r k s' Hw Hbefore Hafter. subst s'.
    assert (Keplr.window (Keplr.step s e) = true) as Hw'.
    { destruct (KeplrFacts.settledKept_step e s) as [Hw' _]. cbv beta in Hw'.
      congruence. }
    assert (∃ cached,
              Keplr.lastUsedKeplrRef (Keplr.step s e) = Some cached
              ∧ ((length (Keplr_listenersRun s e) ≤ 1)%nat → cached = k))
      as (cached & Hc & Hsame).
    { destruct (KeplrFacts.step_resolved_cached s e r k Hafter)
        as [?|[Hc|[He [cached Hc]]]]; [done|by exists k|].
      exists cached. split; [done|]. intros Hone.
      assert (∃ name, Keplr_emitted e = Some name
                      ∧ Keplr.step s e = Keplr.emit name s)
        as (name & Hname & Hstep) by (destruct e; try done; by eexists).
      unfold Keplr_listenersRun in Hone. rewrite Hname in Hone.
      rewrite Hstep in Hafter, Hc.
      destruct (listeners name (Keplr.eventListener s)) as [|h [|h' hs]] eqn:Hls;
        [| |simpl in Hone; lia].
      - rewrite (KeplrFacts.emit_none _ _ Hls) in Hafter. done.
      - rewrite (KeplrFacts.emit_single _ _ _ Hls) in Hafter, Hc.
        destruct (runListener_resolved_cached h s r k Hafter); [done|].
        congruence. }
    exists cached. split; [done|]. split; [done|]. split; [|done].
    intros n. by apply Keplr_getKeplr_cached_iter.
  - intros stored before after cached s Hc Hafter s'. subst s s'.
    apply Keplr_cache_reused; [|  |done..].
    + apply KeplrFacts.wellFormed_run, KeplrFacts.wellFormed_initial.
    + destruct (settledKept_run before (Keplr.initial true stored))
        as [Hw _]. exact Hw.
  - intros l s e r w s' Hw Ht Hbefore Hafter. subst s'.
    destruct (WalletFacts.step_resolved_in_cache l s e r w Hafter Ht) as [?|Hc];
      [done|].
    assert (Wallet.window (Wallet.step l s e) = true) as Hw'.
    { destruct (WalletFacts.outcomeKept_step l e s) as [Hw' _]. cbv beta in Hw'.
      congruence. }
    split; [done|]. split; [|done].
    intros n. rewrite <- Hc. apply Wallet_getWallet_cached_iter; [done|].
    by rewrite Hc.
  - intros l s after Hw Hc Hafter s'. subst s'.
    by apply Wallet_cache_reused.
Qed.

Lemma cached_session_is_reused_witness :
  (∃ cached,
     Keplr.lastUsedKeplrRef
       (Keplr.step keplrAwaitingProbe
          (Keplr.KeplrFromWindow 0 (Some (Keplr.Injected 7))))
     = Some cached)
  ∧ Keplr.lastUsedKeplrRef
      (Keplr.run
         (Keplr.run (Keplr.initial true false)
            [Keplr.CallGetKeplr; Keplr.SelectExtension;
             Keplr.KeplrFromWindow 0 (Some (Keplr.Injected 7))])
         [Keplr.CallGetKeplr;
          Keplr.CallSetDefaultConnectionType (Some Keplr.wallet_connect);
          Keplr.SelectModalRequestClose; Keplr.CallGetKeplr])
    = Some (Keplr.Injected 7)
  ∧ Wallet.lastUsedWalletRef
      (Wallet.step scenarioMethods walletAwaitingResolver
         (Wallet.GetWalletSettled 0 (Wallet.Fulfilled (Wallet.object 7))))
    = Wallet.object 7
  ∧ Wallet.lastUsedWalletRef
      (Wallet.run scenarioMethods
         (Wallet.step scenarioMethods walletAwaitingResolver
            (Wallet.GetWalletSettled 0 (Wallet.Fulfilled (Wallet.object 7))))
         [Wallet.CallGetWallet; Wallet.SelectWallet "extension";
          Wallet.CallGetWallet])
    = Wallet.lastUsedWalletRef
        (Wallet.step scenarioMethods walletAwaitingResolver
           (Wallet.GetWalletSettled 0 (Wallet.Fulfilled (Wallet.object 7)))).
Proof.
  split; [|split; [|split]].
  - destruct (proj1 cached_session_is_reused keplrAwaitingProbe
      (Keplr.KeplrFromWindow 0 (Some (Keplr.Injected 7)))
      0 (Keplr.Injected 7)) as (cached & Hc & _).
    + vm_compute. reflexivity.
    + vm_compute. discriminate.
    + vm_compute. reflexivity.
    + exists cached. exact Hc.
  - refine (proj1 (proj1 (proj2 cached_session_is_reused) false
      [Keplr.CallGetKeplr; Keplr.SelectExtension;
       Keplr.KeplrFromWindow 0 (Some (Keplr.Injected 7))]
      [Keplr.CallGetKeplr;
       Keplr.CallSetDefaultConnectionType (Some Keplr.wallet_connect);
       Keplr.SelectModalRequestClose; Keplr.CallGetKeplr]
      (Keplr.Injected 7) _ _)).
    + vm_compute. reflexivity.
    + reflexivity.
  - apply (proj1 (proj2 (proj2 cached_session_is_reused)) scenarioMethods
      walletAwaitingResolver
      (Wallet.GetWalletSettled 0 (Wallet.Fulfilled (Wallet.object 7)))
      0 (Wallet.object 7)).
    + vm_compute. reflexivity.
    + vm_compute. reflexivity.
    + vm_compute. discriminate.
    + vm_compute. reflexivity.
  - refine (proj1 (proj2 (proj2 (proj2 cached_session_is_reused))
      scenarioMethods
      (Wallet.step scenarioMethods walletAwaitingResolver
         (Wallet.GetWalletSettled 0 (Wallet.Fulfilled (Wallet.object 7))))
      [Wallet.CallGetWallet; Wallet.SelectWallet "extension";
       Wallet.CallGetWallet] _ _ _)).
    + vm_compute. reflexivity.
    + vm_compute. reflexivity.
    + reflexivity.
Defined.

(** ** Dismissing the pairing dialog *)

Lemma Keplr_OnWcQrModalClose r s :
  let s' := Keplr.runListener (Keplr.OnWcQrModalClose r) s in
  Keplr.calls s' = Keplr.calls s ++ Keplr_cancelHooks s [r]
  ∧ Keplr.wcUri s' = ""
  ∧ Keplr.callbackClosed s' = Keplr.callbackClosed s
  ∧ Keplr.promises s' = Keplr.promises s
  ∧ Keplr.lastUsedKeplrRef s' = Keplr.lastUsedKeplrRef s
  ∧ Keplr.connectionType s' = Keplr.connectionType s
  ∧ Keplr.eventListener s' = Keplr.eventListener s
  ∧ Keplr.isModalOpen s' = Keplr.isModalOpen s.
Proof.
  unfold Keplr_cancelHooks. simpl.
  destruct (Keplr.callbackClosed s !! r); simpl; rewrite ?app_nil_r;
    repeat split.
Qed.

Lemma Keplr_run_OnWcQrModalClose rs s :
  let s' := foldl (λ s h, Keplr.runListener h s) s
                  (Keplr.OnWcQrModalClose <$> rs) in
  Keplr.calls s' = Keplr.calls s ++ Keplr_cancelHooks s rs
  ∧ Keplr.wcUri s' = (if rs is [] then Keplr.wcUri s else "")
  ∧ Keplr.promises s' = Keplr.promises s
  ∧ Keplr.lastUsedKeplrRef s' = Keplr.lastUsedKeplrRef s
  ∧ Keplr.connectionType s' = Keplr.connectionType s
  ∧ Keplr.eventListener s' = Keplr.eventListener s
  ∧ Keplr.isModalOpen s' = Keplr.isModalOpen s.
Proof.
  revert s. induction rs as [|r rs IH]; intros s.
  - simpl. rewrite app_nil_r. repeat split.
  - rewrite fmap_cons. cbn [foldl]. cbv zeta.
    destruct (Keplr_OnWcQrModalClose r s)
      as (Hcalls1 & Huri1 & Hcb1 & Hp1 & Hc1 & Ht1 & Hev1 & Hm1).
    destruct (IH (Keplr.runListener (Keplr.OnWcQrModalClose r) s))
      as (Hcalls & Huri & Hp & Hc & Ht & Hev & Hm).
    rewrite Hcalls, Hp, Hc, Ht, Hev, Hm, Huri.
    rewrite Hcalls1, Hp1, Hc1, Ht1, Hev1, Hm1, Huri1.
    repeat split; [|by destruct rs].
    rewrite <- app_assoc. f_equal. unfold Keplr_cancelHooks. rewrite Hcb1.
    simpl. by destruct (Keplr.callbackClosed s !! r).
Qed.

Lemma Wallet_OnWcQrModalClose l r s :
  let s' := Wallet.runListener l (Wallet.OnWcQrModalClose r) s in
  Wallet.calls s' = Wallet.calls s ++ Wallet_cancelHooks s [r]
  ∧ Wallet.wcUri s' = ""
  ∧ Wallet.callbackClosed s' = Wallet.callbackClosed s
  ∧ Wallet.promises s' = Wallet.promises s
  ∧ Wallet.lastUsedWalletRef s' = Wallet.lastUsedWalletRef s
  ∧ Wallet.connectionType s' = Wallet.connectionType s
  ∧ Wallet.eventListener s' = Wallet.eventListener s
  ∧ Wallet.isModalOpen s' = Wallet.isModalOpen s.
Proof.
  unfold Wallet_cancelHooks. simpl.
  destruct (Wallet.callbackClosed s !! r); simpl; rewrite ?app_nil_r;
    repeat split.
Qed.

Lemma Wallet_run_OnWcQrModalClose l rs s :
  let s' := foldl (λ s h, Wallet.runListener l h s) s
                  (Wallet.OnWcQrModalClose <$> rs) in
  Wallet.calls s' = Wallet.calls s ++ Wallet_cancelHooks s rs
  ∧ Wallet.wcUri s' = (if rs is [] then Wallet.wcUri s else "")
  ∧ Wallet.promises s' = Wallet.promises s
  ∧ Wallet.lastUsedWalletRef s' = Wallet.lastUsedWalletRef s
  ∧ Wallet.connectionType s' = Wallet.connectionType s
  ∧ Wallet.eventListener s' = Wallet.eventListener s
  ∧ Wallet.isModalOpen s' = Wallet.isModalOpen s.
Proof.
  revert s. induction rs as [|r rs IH]; intros s.
  - simpl. rewrite app_nil_r. repeat split.
  - rewrite fmap_cons. cbn [foldl]. cbv zeta.
    destruct (Wallet_OnWcQrModalClose l r s)
      as (Hcalls1 & Huri1 & Hcb1 & Hp1 & Hc1 & Ht1 & Hev1 & Hm1).
    destruct (IH (Wallet.runListener l (Wallet.OnWcQrModalClose r) s))
      as (Hcalls & Huri & Hp & Hc & Ht & Hev & Hm).
    rewrite Hcalls, Hp, Hc, Ht, Hev, Hm, Huri.
    rewrite Hcalls1, Hp1, Hc1, Ht1, Hev1, Hm1, Huri1.
    repeat split; [|by destruct rs].
    rewrite <- app_assoc. f_equal. unfold Wallet_cancelHooks. rewrite Hcb1.
    simpl. by destruct (Wallet.callbackClosed s !! r).
Qed.

(** C3, as stated, fails: in Scenario B the dismissal of the pairing dialog
    calls the cancel hook and hides the dialog, but the promise of the
    request is still pending afterwards; nothing rejected it. *)
Lemma pairing_dismissal_leaves_request_pending :
  (let s := Keplr.step (keplrPairing "wc:abc123") Keplr.QRModalRequestClose in
   Keplr.promises s = [Pending]
   ∧ Keplr.calls s = [Keplr.NewWalletConnect 0; Keplr.CreateSession 0;
                      Keplr.CallbackClosed 0]
   ∧ ¬ ∃ reason, Keplr.promises s !! 0 = Some (Rejected reason))
  ∧ (let s := Wallet.step scenarioMethods (walletPairing "wc:abc123")
                Wallet.QRModalRequestClose in
     Wallet.promises s = [Pending]
     ∧ Wallet.calls s = [Wallet.NewWalletConnect 0; Wallet.CreateSession 0;
                         Wallet.CallbackClosed 0]
     ∧ ¬ ∃ reason, Wallet.promises s !! 0 = Some (Rejected reason)).
Proof.
  split; (split; [vm_compute; reflexivity|]);
    (split; [vm_compute; reflexivity|]);
    intros [reason Hr]; vm_compute in Hr; discriminate.
Qed.

(** C3, amended.  While requests wait for a pairing (their listeners of
    ["wc_qr_modal_close"] are registered), the dismissal of the pairing
    dialog calls the cancel hook of each request that was given one, hides
    the dialog and leaves the cache as it was; it settles no promise and
    removes no listener. *)
Theorem pairing_dismissal_cancels_without_settling :
  (∀ (s : Keplr.State) (rs : list nat),
     listeners "wc_qr_modal_close" (Keplr.eventListener s)
       = Keplr.OnWcQrModalClose <$> rs →
     rs ≠ [] →
     let s' := Keplr.step s Keplr.QRModalRequestClose in
     Keplr.calls s' = Keplr.calls s ++ Keplr_cancelHooks s rs
     ∧ Keplr.wcUri s' = ""
     ∧ Keplr.promises s' = Keplr.promises s
     ∧ Keplr.lastUsedKeplrRef s' = Keplr.lastUsedKeplrRef s
     ∧ Keplr.connectionType s' = Keplr.connectionType s
     ∧ Keplr.eventListener s' = Keplr.eventListener s
     ∧ Keplr.isModalOpen s' = Keplr.isModalOpen s)
  ∧ (∀ (walletInfoList : list Wallet.WalletInfo) (s : Wallet.State)
       (rs : list nat),
     listeners "wc_qr_modal_close" (Wallet.eventListener s)
       = Wallet.OnWcQrModalClose <$> rs →
     rs ≠ [] →
     let s' := Wallet.step walletInfoList s Wallet.QRModalRequestClose in
     Wallet.calls s' = Wallet.calls s ++ Wallet_cancelHooks s rs
     ∧ Wallet.wcUri s' = ""
     ∧ Wallet.promises s' = Wallet.promises s
     ∧ Wallet.lastUsedWalletRef s' = Wallet.lastUsedWalletRef s
     ∧ Wallet.connectionType s' = Wallet.connectionType s
     ∧ Wallet.eventListener s' = Wallet.eventListener s
     ∧ Wallet.isModalOpen s' = Wallet.isModalOpen s).
Proof.
  split.
  - intros s rs Hls Hrs s'. subst s'. unfold Keplr.step, Keplr.emit.
    rewrite Hls.
    destruct (Keplr_run_OnWcQrModalClose rs s)
      as (Hcalls & Huri & Hp & Hc & Ht & Hev & Hm).
    destruct rs; [done|]. repeat split; assumption.
  - intros l s rs Hls Hrs s'. subst s'. unfold Wallet.step, Wallet.emit.
    rewrite Hls.
    destruct (Wallet_run_OnWcQrModalClose l rs s)
      as (Hcalls & Huri & Hp & Hc & Ht & Hev & Hm).
    destruct rs; [done|]. repeat split; assumption.
Qed.

Lemma pairing_dismissal_cancels_without_settling_witness :
  (let s := keplrPairing "wc:abc123" in
   let s' := Keplr.step s Keplr.QRModalRequestClose in
   Keplr.calls s' = Keplr.calls s ++ Keplr_cancelHooks s [0]
   ∧ Keplr.wcUri s' = ""
   ∧ Keplr.promises s' = Keplr.promises s
   ∧ Keplr.lastUsedKeplrRef s' = Keplr.lastUsedKeplrRef s
   ∧ Keplr.connectionType s' = Keplr.connectionType s
   ∧ Keplr.eventListener s' = Keplr.eventListener s
   ∧ Keplr.isModalOpen s' = Keplr.isModalOpen s)
  ∧ (let s := walletPairing "wc:abc123" in
     let s' := Wallet.step scenarioMethods s Wallet.QRModalRequestClose in
     Wallet.calls s' = Wallet.calls s ++ Wallet_cancelHooks s [0]
     ∧ Wallet.wcUri s' = ""
     ∧ Wallet.promises s' = Wallet.promises s
     ∧ Wallet.lastUsedWalletRef s' = Wallet.lastUsedWalletRef s
     ∧ Wallet.connectionType s' = Wallet.connectionType s
     ∧ Wallet.eventListener s' = Wallet.eventListener s
     ∧ Wallet.isModalOpen s' = Wallet.isModalOpen s).
Proof.
  split.
  - apply (proj1 pairing_dismissal_cancels_without_settling
             (keplrPairing "wc:abc123") [0]).
    + vm_compute. reflexivity.
    + discriminate.
  - apply (proj2 pairing_dismissal_cancels_without_settling scenarioMethods
             (walletPairing "wc:abc123") [0]).
    + vm_compute. reflexivity.
    + discriminate.
Defined.

(** ** A missing extension *)

(** C4, as stated, fails: when [getKeplrFromWindow] finds no extension the
    promise of the request is resolved with [undefined], not rejected; both
    after the pick of the extension and on the preference shortcut. *)
Lemma missing_extension_resolves_undefined :
  (let s := Keplr.step keplrAwaitingProbe (Keplr.KeplrFromWindow 0 None) in
   Keplr.promises s = [Resolved None]
   ∧ ¬ ∃ reason, Keplr.promises s !! 0 = Some (Rejected reason))
  ∧ (let s := Keplr.run (Keplr.initial true false)
                [Keplr.CallSetDefaultConnectionType (Some Keplr.extension);
                 Keplr.CallGetKeplr; Keplr.KeplrFromWindow 0 None] in
     Keplr.promises s = [Resolved None]
     ∧ ¬ ∃ reason, Keplr.promises s !! 0 = Some (Rejected reason)).
Proof.
  split; (split; [vm_compute; reflexivity|]);
    intros [reason Hr]; vm_compute in Hr; discriminate.
Qed.

(** C4, amended.  After the pick of the extension and on the extension
    preference the broker calls [getKeplrFromWindow] and leaves the promise
    of the request pending until the probe answers; when the probe finds no
    extension the promise is resolved with [undefined], [connectionType]
    becomes "extension" and the cache is empty, and no [reject] is called.
    The rejections the broker does make differ in what they carry: nothing
    when a dialog emission rejects (the dismissal of the selection dialog),
    the error of the connector when the pairing fails. *)
Theorem missing_extension_and_rejection_kinds :
  (∀ (s : Keplr.State) (r : nat),
     listeners "select_extension" (Keplr.eventListener s)
       = [Keplr.OnSelectExtension r] →
     let s' := Keplr.step s Keplr.SelectExtension in
     Keplr.isModalOpen s' = false
     ∧ Keplr.promises s' = Keplr.promises s
     ∧ Keplr.probes s' = Keplr.probes s ++ [Some (Keplr.ThenSelected r)]
     ∧ Keplr.calls s' = Keplr.calls s ++ [Keplr.GetKeplrFromWindow])
  ∧ (∀ s : Keplr.State,
     Keplr.window s = true →
     Keplr.lastUsedKeplrRef s = None →
     Keplr.defaultConnectionTypeRef s = Some Keplr.extension →
     let s' := Keplr.getKeplr s in
     Keplr.promises s' = Keplr.promises s ++ [Pending]
     ∧ Keplr.probes s'
       = Keplr.probes s ++ [Some (Keplr.ThenDefault (length (Keplr.promises s)))]
     ∧ Keplr.calls s' = Keplr.calls s ++ [Keplr.GetKeplrFromWindow])
  ∧ (∀ (s : Keplr.State) (p : nat) (k : Keplr.Continuation),
     Keplr.probes s !! p = Some (Some k) →
     Keplr.promises s !! continuationRequest k = Some Pending →
     let s' := Keplr.step s (Keplr.KeplrFromWindow p None) in
     Keplr.promises s' !! continuationRequest k = Some (Resolved None)
     ∧ Keplr.lastUsedKeplrRef s' = None
     ∧ Keplr.connectionType s' = Some Keplr.extension
     ∧ Keplr.calls s'
       = Keplr.calls s
         ++ match k with
            | Keplr.ThenDefault _ => []
            | Keplr.ThenSelected r => [Keplr.Resolve r None]
            end)
  ∧ (∀ (s : Keplr.State) (e : Keplr.Event) (r : nat) (reason : option string),
     Keplr.promises s !! r ≠ Some (Rejected reason) →
     Keplr.promises (Keplr.step s e) !! r = Some (Rejected reason) →
     (Keplr.isDialogEvent e = true ∧ reason = None)
     ∨ (∃ c err, e = Keplr.Connect c (Some err) ∧ reason = Some err)).
Proof.
  split; [|split; [|split]].
  - intros s r Hls s'. subst s'. unfold Keplr.step, Keplr.emit.
    rewrite Hls. repeat split.
  - intros s Hw Hc Hpref s'. subst s'. unfold Keplr.getKeplr.
    rewrite Hw, Hc, Hpref. repeat split.
  - intros s p k Hp Hr s'. subst s'. unfold Keplr.step. rewrite Hp.
    destruct k as [r|r]; unfold continuationRequest in *; simpl;
      rewrite list_lookup_alter_eq, Hr, ?app_nil_r; repeat split.
  - intros s e r reason Hbefore Hafter.
    by destruct (KeplrFacts.step_rejected_kind s e r reason Hafter) as [?|?].
Qed.

Lemma missing_extension_and_rejection_kinds_witness :
  let s' := Keplr.step keplrAwaitingProbe (Keplr.KeplrFromWindow 0 None) in
  Keplr.promises s' !! 0 = Some (Resolved None)
  ∧ Keplr.lastUsedKeplrRef s' = None
  ∧ Keplr.connectionType s' = Some Keplr.extension
  ∧ Keplr.calls s' = Keplr.calls keplrAwaitingProbe ++ [Keplr.Resolve 0 None].
Proof.
  apply (proj1 (proj2 (proj2 missing_extension_and_rejection_kinds))
           keplrAwaitingProbe 0 (Keplr.ThenSelected 0)).
  - vm_compute. reflexivity.
  - vm_compute. reflexivity.
Defined.

(** ** The preference shortcut *)

(** C6, as stated, fails for the remote method of [GetKeplrProvider]: with
    the preference "wallet-connect" and no session to reuse, the request
    opens the selection dialog and waits there, the cache empty. *)
Lemma remote_preference_opens_selection :
  let s := Keplr.run (Keplr.initial true false)
             [Keplr.CallSetDefaultConnectionType (Some Keplr.wallet_connect);
              Keplr.CallGetKeplr] in
  Keplr.defaultConnectionTypeRef s = Some Keplr.wallet_connect
  ∧ Keplr.isModalOpen s = true
  ∧ Keplr.promises s = [Pending]
  ∧ Keplr.lastUsedKeplrRef s = None
  ∧ Keplr.calls s = [Keplr.NewWalletConnect 0].
Proof. vm_compute. repeat split. Qed.

(** C6, amended.  With an empty cache and a preference naming a known
    method, the request goes to that method's resolver without opening the
    selection dialog or registering a listener, and the success of the
    resolver fills the cache and [connectionType] and resolves the promise:
    in [GetWalletProvider] for every descriptor the preference matches; in
    [GetKeplrProvider] for "extension", and for "wallet-connect" when the new
    connector is connected already, the promise then being resolved at
    once. *)
Theorem preference_resolves_without_selection :
  (∀ (l : list Wallet.WalletInfo) (s : Wallet.State) (info : Wallet.WalletInfo),
     Wallet.window s = true →
     Wallet.truthy (Wallet.lastUsedWalletRef s) = false →
     Wallet.defaultConnectionWalletInfo l s = Some info →
     let r := length (Wallet.promises s) in
     let c := length (Wallet.connectors s) in
     let s1 := Wallet.request_getWallet l s in
     Wallet.isModalOpen s1 = Wallet.isModalOpen s
     ∧ Wallet.eventListener s1 = Wallet.eventListener s
     ∧ Wallet.promises s1 = Wallet.promises s ++ [Pending]
     ∧ Wallet.calls s1
       = Wallet.calls s ++ [Wallet.NewWalletConnect c; Wallet.GetWallet info c]
     ∧ Wallet.awaits s1
       = Wallet.awaits s
         ++ [Some {| Wallet.walletInfo := info; Wallet.request := r;
                     Wallet.resolver := false |}]
     ∧ ∀ wallet,
         let s2 := Wallet.step l s1
                     (Wallet.GetWalletSettled (length (Wallet.awaits s))
                        (Wallet.Fulfilled wallet)) in
         Wallet.promises s2 !! r = Some (Resolved wallet)
         ∧ Wallet.lastUsedWalletRef s2 = wallet
         ∧ Wallet.connectionType s2 = Some (Wallet.id info)
         ∧ Wallet.isModalOpen s2 = Wallet.isModalOpen s)
  ∧ (∀ s : Keplr.State,
     Keplr.window s = true →
     Keplr.lastUsedKeplrRef s = None →
     Keplr.defaultConnectionTypeRef s = Some Keplr.extension →
     let r := length (Keplr.promises s) in
     let s1 := Keplr.getKeplr s in
     Keplr.isModalOpen s1 = Keplr.isModalOpen s
     ∧ Keplr.eventListener s1 = Keplr.eventListener s
     ∧ Keplr.promises s1 = Keplr.promises s ++ [Pending]
     ∧ Keplr.calls s1 = Keplr.calls s ++ [Keplr.GetKeplrFromWindow]
     ∧ Keplr.probes s1 = Keplr.probes s ++ [Some (Keplr.ThenDefault r)]
     ∧ ∀ keplr,
         let s2 := Keplr.step s1
                     (Keplr.KeplrFromWindow (length (Keplr.probes s)) keplr) in
         Keplr.promises s2 !! r = Some (Resolved keplr)
         ∧ Keplr.lastUsedKeplrRef s2 = keplr
         ∧ Keplr.connectionType s2 = Some Keplr.extension
         ∧ Keplr.isModalOpen s2 = Keplr.isModalOpen s)
  ∧ (∀ s : Keplr.State,
     Keplr.window s = true →
     Keplr.lastUsedKeplrRef s = None →
     Keplr.defaultConnectionTypeRef s = Some Keplr.wallet_connect →
     Keplr.sessionStored s = true →
     let r := length (Keplr.promises s) in
     let keplr := Keplr.KeplrWalletConnectV1 (length (Keplr.connectors s)) in
     let s1 := Keplr.getKeplr s in
     Keplr.isModalOpen s1 = Keplr.isModalOpen s
     ∧ Keplr.eventListener s1 = Keplr.eventListener s
     ∧ Keplr.promises s1 !! r = Some (Resolved (Some keplr))
     ∧ Keplr.lastUsedKeplrRef s1 = Some keplr
     ∧ Keplr.connectionType s1 = Some Keplr.wallet_connect
     ∧ Keplr.calls s1
       = Keplr.calls s ++ [Keplr.NewWalletConnect (length (Keplr.connectors s))]).
Proof.
  split; [|split].
  - intros l s info Hw Hc Hf r c s1. subst s1 r c.
    rewrite (WalletFacts.request_getWallet_default l s info Hw Hc Hf).
    do 3 (split; [reflexivity|]).
    split; [simpl; by rewrite <- app_assoc|]. split; [reflexivity|].
    intros wallet s2. subst s2.
    erewrite WalletFacts.step_GetWalletSettled
      by (simpl; apply list_lookup_middle; reflexivity).
    match goal with
    | |- context [Wallet.resumeResolveWallet l ?a (Wallet.Fulfilled wallet) ?s0] =>
        destruct (WalletFacts.resumeResolveWallet_fulfilled l a wallet s0)
          as (Hp & Hl & Ht & Ho & _)
    end; [simpl; by apply list_lookup_middle | done].
  - intros s Hw Hc Hp r s1. subst s1 r.
    rewrite (KeplrFacts.getKeplr_default_extension s Hw Hc Hp).
    do 5 (split; [reflexivity|]).
    intros keplr s2. subst s2.
    erewrite KeplrFacts.step_KeplrFromWindow
      by (simpl; apply list_lookup_middle; reflexivity).
    simpl. rewrite list_lookup_alter_eq, list_lookup_middle by done.
    repeat split.
  - intros s Hw Hc Hp Hst r keplr s1. subst s1 r keplr.
    rewrite (KeplrFacts.getKeplr_default_wallet_connect s Hw Hc Hp), Hst.
    simpl. rewrite list_lookup_middle by done. repeat split.
Qed.

Lemma preference_resolves_without_selection_witness :
  let s := Keplr.setSessionStored true
             (Keplr.setDefaultConnectionType (Some Keplr.wallet_connect)
                (Keplr.initial true false)) in
  Keplr.promises (Keplr.getKeplr s) !! 0
  = Some (Resolved (Some (Keplr.KeplrWalletConnectV1 0))).
Proof.
  exact (proj1 (proj2 (proj2
    (proj2 (proj2 preference_resolves_without_selection)
       (Keplr.setSessionStored true
          (Keplr.setDefaultConnectionType (Some Keplr.wallet_connect)
             (Keplr.initial true false)))
       eq_refl eq_refl eq_refl eq_refl)))).
Defined.

(** ** Session reuse *)

(** C7.  When the remote method is picked and the client reports
    [connected], the broker creates no session: it calls neither
    [createSession] nor anything that shows a pairing URI ([wcUri] keeps its
    value).  [GetKeplrProvider] resolves the request at once with the wrapper
    around the connector; [GetWalletProvider] calls the resolver of the
    method at once and resolves the request with what it yields. *)
Theorem connected_session_is_reused :
  (∀ (s : Keplr.State) (r : nat),
     listeners "select_wallet_connect" (Keplr.eventListener s)
       = [Keplr.OnSelectWalletConnect r] →
     Keplr.sessionStored s = true →
     Keplr.promises s !! r = Some Pending →
     let c := length (Keplr.connectors s) in
     let keplr := Keplr.KeplrWalletConnectV1 c in
     let s' := Keplr.step s Keplr.SelectWalletConnect in
     Keplr.promises s' !! r = Some (Resolved (Some keplr))
     ∧ Keplr.calls s'
       = Keplr.calls s
         ++ [Keplr.NewWalletConnect c; Keplr.Resolve r (Some keplr)]
     ∧ Keplr.wcUri s' = Keplr.wcUri s
     ∧ Keplr.lastUsedKeplrRef s' = Some keplr
     ∧ Keplr.connectionType s' = Some Keplr.wallet_connect
     ∧ Keplr.isModalOpen s' = false)
  ∧ (∀ (l : list Wallet.WalletInfo) (s : Wallet.State) (r c : nat)
       (info : Wallet.WalletInfo),
     listeners (Wallet.id info) (Wallet.eventListener s)
       = [Wallet.OnSelect r c info] →
     String.prefix "walletconnect" (Wallet.id info) = true →
     Wallet.isConnected c s = true →
     Wallet.promises s !! r = Some Pending →
     let s1 := Wallet.step l s (Wallet.SelectWallet (Wallet.id info)) in
     Wallet.calls s1 = Wallet.calls s ++ [Wallet.GetWallet info c]
     ∧ Wallet.wcUri s1 = Wallet.wcUri s
     ∧ Wallet.isModalOpen s1 = false
     ∧ Wallet.awaits s1
       = Wallet.awaits s
         ++ [Some {| Wallet.walletInfo := info; Wallet.request := r;
                     Wallet.resolver := true |}]
     ∧ ∀ wallet,
         let s2 := Wallet.step l s1
                     (Wallet.GetWalletSettled (length (Wallet.awaits s))
                        (Wallet.Fulfilled wallet)) in
         Wallet.promises s2 !! r = Some (Resolved wallet)
         ∧ Wallet.lastUsedWalletRef s2 = wallet
         ∧ Wallet.connectionType s2 = Some (Wallet.id info)
         ∧ Wallet.wcUri s2 = Wallet.wcUri s
         ∧ Wallet.calls s2
           = Wallet.calls s
             ++ [Wallet.GetWallet info c; Wallet.Resolve r wallet]).
Proof.
  split.
  - intros s r Hls Hst Hr c keplr s'. subst s' keplr c. unfold Keplr.step.
    rewrite (KeplrFacts.emit_single _ _ _ Hls),
      (KeplrFacts.runListener_select_connected r s Hst).
    simpl. rewrite list_lookup_alter_eq, Hr, <- app_assoc. repeat split.
  - intros l s r c info Hls Hp Hc Hr s1. subst s1.
    change (Wallet.step l s (Wallet.SelectWallet (Wallet.id info)))
      with (Wallet.emit l (Wallet.id info) s).
    rewrite (WalletFacts.emit_one _ _ _ _ Hls),
      (WalletFacts.runListener_select_resolves l r c info s (or_intror Hc)).
    do 4 (split; [reflexivity|]).
    intros wallet s2. subst s2.
    erewrite WalletFacts.step_GetWalletSettled
      by (simpl; apply list_lookup_middle; reflexivity).
    match goal with
    | |- context [Wallet.resumeResolveWallet l ?a (Wallet.Fulfilled wallet) ?s0] =>
        destruct (WalletFacts.resumeResolveWallet_fulfilled l a wallet s0)
          as (Hp' & Hl & Ht & Ho & Hu & Hcalls)
    end; [done|].
    repeat split; try done.
    rewrite Hcalls. simpl. by rewrite <- app_assoc.
Qed.

Lemma connected_session_is_reused_witness :
  (let s' := Keplr.step (keplrSelecting true) Keplr.SelectWalletConnect in
   Keplr.promises s' !! 0
   = Some (Resolved (Some (Keplr.KeplrWalletConnectV1 0)))
   ∧ Keplr.calls s'
     = [Keplr.NewWalletConnect 0;
        Keplr.Resolve 0 (Some (Keplr.KeplrWalletConnectV1 0))])
  ∧ (let s1 := Wallet.step scenarioMethods (walletSelecting true)
                 (Wallet.SelectWallet "walletconnect") in
     Wallet.calls s1
     = [Wallet.NewWalletConnect 0; Wallet.GetWallet walletconnectInfo 0]).
Proof.
  split.
  - destruct (proj1 connected_session_is_reused (keplrSelecting true) 0)
      as (Hp & Hcalls & _).
    + vm_compute. reflexivity.
    + vm_compute. reflexivity.
    + vm_compute. reflexivity.
    + split; [exact Hp | exact Hcalls].
  - destruct (proj2 connected_session_is_reused scenarioMethods
                (walletSelecting true) 0 0 walletconnectInfo)
      as (Hcalls & _).
    + vm_compute. reflexivity.
    + vm_compute. reflexivity.
    + vm_compute. reflexivity.
    + vm_compute. reflexivity.
    + exact Hcalls.
Defined.

(** ** Listener hygiene *)

(** C2 at the failing pairing of [GetWalletProvider].  The listener of
    [connect] (lines 117-123) rejects the promise and does not call
    [cleanUp]: every listener the request registered is still subscribed
    after the request is settled.  A later pick of a method therefore runs
    the listener of the settled request, which calls the resolver and, when
    that answers, overwrites the cache and [connectionType]. *)
Theorem failed_pairing_keeps_listeners (error : string) (wallet : Wallet.Any) :
  let s := walletPairingFailed error in
  Wallet.promises s = [Rejected (Some error)]
  ∧ listeners "modal_close" (Wallet.eventListener s) = [Wallet.OnModalClose 0]
  ∧ listeners "wc_qr_modal_close" (Wallet.eventListener s)
    = [Wallet.OnWcQrModalClose 0]
  ∧ listeners "extension" (Wallet.eventListener s)
    = [Wallet.OnSelect 0 0 extensionInfo]
  ∧ listeners "walletconnect" (Wallet.eventListener s)
    = [Wallet.OnSelect 0 0 walletconnectInfo]
  ∧ let s' := Wallet.run scenarioMethods s
                [Wallet.SelectWallet "extension";
                 Wallet.GetWalletSettled 0 (Wallet.Fulfilled wallet)] in
    Wallet.calls s'
    = [Wallet.NewWalletConnect 0; Wallet.CreateSession 0;
       Wallet.Reject 0 (Some error); Wallet.GetWallet extensionInfo 0;
       Wallet.Resolve 0 wallet]
    ∧ Wallet.promises s' = [Rejected (Some error)]
    ∧ Wallet.lastUsedWalletRef s' = wallet
    ∧ Wallet.connectionType s' = Some "extension".
Proof. vm_compute. repeat split. Qed.

(** In [GetKeplrProvider], whatever happens, a request that is settled has
    no listener left on the event channel: every listener that is
    registered belongs to a request that is pending. *)
Theorem keplr_settled_unsubscribed w stored trace name h :
  let s := Keplr.run (Keplr.initial w stored) trace in
  h ∈ listeners name (Keplr.eventListener s) →
  Keplr.promises s !! Keplr.listenerRequest h = Some Pending.
Proof.
  intros s. apply (Keplr.wf_hygienic s).
  apply KeplrFacts.wellFormed_run, KeplrFacts.wellFormed_initial.
Qed.

(** The same failure in [GetKeplrProvider], whose listener of [connect]
    (lines 193-206) calls [cleanUp] first: no listener is left. *)
Example keplr_failed_pairing_removes_listeners (error : string) :
  let s := Keplr.run (Keplr.initial true false)
             [Keplr.CallGetKeplr; Keplr.SelectWalletConnect;
              Keplr.Connect 0 (Some error)] in
  Keplr.promises s = [Rejected (Some error)]
  ∧ Keplr.eventListener s = ∅.
Proof. vm_compute. repeat split. Qed.

(** ** Exactly one settlement *)

(** The listeners [getWallet] registers for the methods (lines 109-131). *)
Lemma Wallet_listeners_register r c name l s :
  listeners name
    (Wallet.eventListener
       (foldl (λ s info, Wallet.eventListener_on (Wallet.id info)
                           (Wallet.OnSelect r c info) s) s l))
  = listeners name (Wallet.eventListener s)
    ++ (Wallet.OnSelect r c <$> filter (λ info, Wallet.id info = name) l).
Proof.
  revert s. induction l as [|info l IH]; intros s.
  - simpl. by rewrite app_nil_r.
  - cbn [foldl]. rewrite IH, filter_cons. simpl. case_decide as Hn.
    + rewrite <- Hn, listeners_on, fmap_cons, <- app_assoc. reflexivity.
    + by rewrite listeners_on_ne.
Qed.

Lemma Wallet_register_frame r c l s :
  foldl (λ s info, Wallet.eventListener_on (Wallet.id info)
                     (Wallet.OnSelect r c info) s) s l
  = Wallet.setEventListener
      (Wallet.eventListener
         (foldl (λ s info, Wallet.eventListener_on (Wallet.id info)
                             (Wallet.OnSelect r c info) s) s l)) s.
Proof.
  change (Wallet.sameButListeners s
    (foldl (λ s info, Wallet.eventListener_on (Wallet.id info)
                        (Wallet.OnSelect r c info) s) s l)).
  revert s.
  apply (respects_foldl Wallet.sameButListeners WalletFacts.sameButListeners_refl
           WalletFacts.sameButListeners_trans
           (λ info, Wallet.eventListener_on (Wallet.id info)
                      (Wallet.OnSelect r c info))).
  intros info []. reflexivity.
Qed.

Lemma filter_none {A} (P : A → Prop) `{!∀ x, Decision (P x)} (l : list A) :
  (∀ x, x ∈ l → ¬ P x) → filter P l = [].
Proof.
  induction l as [|x l IH]; intros Hl; [done|].
  rewrite filter_cons_False by (apply Hl; left).
  apply IH. intros y Hy. apply Hl. by right.
Qed.

(** *** One request among others *)
Section KeplrUntouched.
Import Keplr KeplrFacts.
Variable r : nat.
#[local] Abbreviation untouched := (Keplr_untouched r).

Lemma settleCalls_call c s :
  settleCalls r (call c s)
  = settleCalls r s + (if isSettleCall r c then 1 else 0).
Proof.
  unfold settleCalls. simpl. rewrite List.filter_app, length_app. simpl.
  by destruct (isSettleCall r c).
Qed.

Lemma Keplr_untouched_refl s : untouched s s.
Proof. by repeat split. Qed.

Lemma Keplr_untouched_trans s1 s2 s3 :
  untouched s1 s2 → untouched s2 s3 → untouched s1 s3.
Proof.
  intros (P1 & C1 & S1 & Pr1 & Co1 & Ca1) (P2 & C2 & S2 & Pr2 & Co2 & Ca2).
  repeat split; try congruence; by etrans.
Qed.

Ltac untouched_seq :=
  apply (respects_seq untouched Keplr_untouched_refl Keplr_untouched_trans);
  split_Forall.

Lemma Keplr_untouched_frame (f : State → State) :
  (∀ s, promises (f s) = promises s ∧ calls (f s) = calls s
        ∧ sessionStored (f s) = sessionStored s ∧ probes (f s) = probes s
        ∧ connectors (f s) = connectors s) →
  respects untouched f.
Proof.
  intros Hf s. destruct (Hf s) as (Hp & Hc & Hs & Hpr & Hco).
  unfold Keplr_untouched, settleCalls. by rewrite Hp, Hc, Hs, Hpr, Hco.
Qed.

Ltac untouched_framed :=
  apply Keplr_untouched_frame; intros []; repeat split; reflexivity.

Lemma Keplr_untouched_call c :
  isSettleCall r c = false → respects untouched (call c).
Proof.
  intros Hc s. repeat split; try done.
  - rewrite settleCalls_call, Hc. lia.
  - simpl. by apply prefix_app_r.
Qed.

Lemma Keplr_untouched_fulfil r' o : r' ≠ r → respects untouched (fulfil r' o).
Proof.
  intros Hne s. repeat split; try done.
  simpl. by rewrite list_lookup_alter_ne.
Qed.

Lemma Keplr_untouched_resolve r' v : r' ≠ r → respects untouched (resolve r' v).
Proof.
  intros Hne. unfold resolve.
  untouched_seq; [|by apply Keplr_untouched_fulfil].
  apply Keplr_untouched_call. simpl. by apply Nat.eqb_neq.
Qed.

Lemma Keplr_untouched_reject r' e : r' ≠ r → respects untouched (reject r' e).
Proof.
  intros Hne. unfold reject.
  untouched_seq; [|by apply Keplr_untouched_fulfil].
  apply Keplr_untouched_call. simpl. by apply Nat.eqb_neq.
Qed.

Lemma Keplr_untouched_cleanUp : respects untouched cleanUp.
Proof. unfold cleanUp. untouched_seq; untouched_framed. Qed.

Lemma Keplr_untouched_getKeplrFromWindow k :
  respects untouched (getKeplrFromWindow k).
Proof.
  unfold getKeplrFromWindow.
  untouched_seq; [by apply Keplr_untouched_call|].
  intros s. repeat split; try done. simpl. by apply prefix_app_r.
Qed.

Lemma Keplr_untouched_newWalletConnect r' b :
  respects untouched (newWalletConnect r' b).
Proof.
  intros s. unfold newWalletConnect, seq. cbn [foldl].
  repeat split; try done.
  - unfold settleCalls. simpl. rewrite List.filter_app, length_app. simpl. lia.
  - simpl. by apply prefix_app_r.
  - simpl. by apply prefix_app_r.
Qed.

Lemma Keplr_untouched_adoptWalletConnect r' c :
  r' ≠ r → respects untouched (adoptWalletConnect r' c).
Proof.
  intros. unfold adoptWalletConnect. untouched_seq; try untouched_framed.
  by apply Keplr_untouched_resolve.
Qed.

(** The listener of another request. *)
Lemma Keplr_untouched_runListener h :
  listenerRequest h ≠ r → respects untouched (runListener h).
Proof.
  intros Hne. destruct h as [r'|r'|r'|r']; simpl in Hne.
  - unfold runListener.
    untouched_seq; [untouched_framed | by apply Keplr_untouched_reject
                   | apply Keplr_untouched_cleanUp].
  - unfold runListener.
    untouched_seq; [untouched_framed | apply Keplr_untouched_getKeplrFromWindow].
  - intros s. destruct (sessionStored s) eqn:Hst.
    + rewrite runListener_select_connected by done.
      eapply Keplr_untouched_trans; [apply Keplr_untouched_newWalletConnect|].
      eapply Keplr_untouched_trans;
        [apply (Keplr_untouched_frame
                  (eventListener_on "wc_qr_modal_close" (OnWcQrModalClose r')));
         intros []; repeat split; reflexivity|].
      apply (respects_seq untouched Keplr_untouched_refl Keplr_untouched_trans
               [adoptWalletConnect r' (length (connectors s)); cleanUp]).
      split_Forall; [by apply Keplr_untouched_adoptWalletConnect
                    | apply Keplr_untouched_cleanUp].
    + rewrite runListener_select_unconnected by done.
      repeat split; try done.
      * unfold settleCalls. simpl.
        rewrite !List.filter_app, !length_app. simpl. lia.
      * simpl. rewrite alter_app_r_alt by done. rewrite Nat.sub_diag.
        by apply prefix_app_r.
      * simpl. rewrite <- app_assoc. by apply prefix_app_r.
  - intros s. unfold runListener, seq. cbn [foldl].
    destruct (callbackClosed _ !! r'); [|by repeat split].
    eapply Keplr_untouched_trans;
      [apply (Keplr_untouched_frame (setWCUri "")); intros []; repeat split;
       reflexivity|].
    by apply Keplr_untouched_call.
Qed.

Lemma Keplr_untouched_foldl hs :
  Forall (λ h, listenerRequest h ≠ r) hs →
  respects untouched (λ s, foldl (λ s h, runListener h s) s hs).
Proof.
  induction 1 as [|h hs Hh _ IH]; intros s; [apply Keplr_untouched_refl|].
  cbn [foldl]. eapply Keplr_untouched_trans; [|apply IH].
  by apply Keplr_untouched_runListener.
Qed.

(** An emission that runs the listener of [r] among listeners of other
    requests: the states before and after the listener of [r]. *)
Lemma Keplr_emit_split name h before after s :
  listeners name (eventListener s) = before ++ h :: after →
  (∀ h', h' ∈ before ++ after → listenerRequest h' ≠ r) →
  ∃ s1, untouched s s1
        ∧ untouched (runListener h s1) (emit name s).
Proof.
  intros Hls Hothers. unfold emit. rewrite Hls, foldl_app. cbn [foldl].
  exists (foldl (λ s h, runListener h s) s before). split.
  - apply Keplr_untouched_foldl, Forall_forall. intros h' Hh'.
    apply Hothers, elem_of_app. by left.
  - apply (Keplr_untouched_foldl after), Forall_forall. intros h' Hh'.
    apply Hothers, elem_of_app. by right.
Qed.

Lemma Keplr_comesTo_untouched o n s s1 s2 s' :
  untouched s s1 → Keplr_comesTo r o n s1 s2 → untouched s2 s' →
  Keplr_comesTo r o n s s'.
Proof.
  intros (P1 & C1 & _) [P2 C2] (P3 & C3 & _). split; congruence.
Qed.

(** What the listeners of [r] do to its pending promise. *)
Lemma Keplr_runListener_OnModalClose s :
  promises s !! r = Some Pending →
  Keplr_comesTo r (Rejected None) 1 s (runListener (OnModalClose r) s).
Proof.
  intros Hp. split.
  - simpl. by rewrite list_lookup_alter_eq, Hp.
  - unfold settleCalls. simpl. rewrite List.filter_app, length_app. simpl.
    rewrite Nat.eqb_refl. simpl. lia.
Qed.

Lemma Keplr_runListener_OnSelectExtension s :
  let s' := runListener (OnSelectExtension r) s in
  untouched s s' ∧ probes s' = probes s ++ [Some (ThenSelected r)].
Proof.
  split; [|done]. unfold runListener.
  apply (respects_seq untouched Keplr_untouched_refl Keplr_untouched_trans).
  split_Forall; [untouched_framed | apply Keplr_untouched_getKeplrFromWindow].
Qed.

Lemma Keplr_runListener_select_connected s :
  promises s !! r = Some Pending → sessionStored s = true →
  Keplr_comesTo r
    (Resolved (Some (KeplrWalletConnectV1 (length (connectors s))))) 1
    s (runListener (OnSelectWalletConnect r) s).
Proof.
  intros Hp Hst. rewrite runListener_select_connected by done. split.
  - simpl. by rewrite list_lookup_alter_eq, Hp.
  - unfold settleCalls. simpl. rewrite !List.filter_app, !length_app. simpl.
    rewrite Nat.eqb_refl. simpl. lia.
Qed.

Lemma Keplr_runListener_select_unconnected s :
  sessionStored s = false →
  let s' := runListener (OnSelectWalletConnect r) s in
  untouched s s'
  ∧ connectors s' = connectors s ++ [Keplr_pairingConnector r]
  ∧ calls s' = calls s ++ [NewWalletConnect (length (connectors s));
                           CreateSession (length (connectors s))].
Proof.
  intros Hst s'. subst s'. rewrite runListener_select_unconnected by done.
  assert (connectors
            (seq [call (CreateSession (length (connectors s)));
                  connector_onConnect (length (connectors s))]
               (eventListener_on "wc_qr_modal_close" (OnWcQrModalClose r)
                  (newWalletConnect r true s)))
          = connectors s ++ [Keplr_pairingConnector r]) as Hco.
  { simpl. rewrite alter_app_r_alt by done. rewrite Nat.sub_diag. simpl.
    by rewrite Hst. }
  split; [|split; [exact Hco|]].
  - repeat split; try done.
    + unfold settleCalls. simpl.
      rewrite !List.filter_app, !length_app. simpl. lia.
    + rewrite Hco. by apply prefix_app_r.
    + simpl. rewrite <- app_assoc. by apply prefix_app_r.
  - simpl. by rewrite <- app_assoc.
Qed.

Lemma prefix_lookup_last {A} (l l' : list A) x :
  l ++ [x] `prefix_of` l' → l' !! length l = Some x.
Proof.
  intros [k ->]. rewrite <- app_assoc. by apply list_lookup_middle.
Qed.
End KeplrUntouched.

Section KeplrEvents.
Import Keplr KeplrFacts.
Variables (r : nat) (s : State).
Hypothesis Hpending : promises s !! r = Some Pending.

Lemma Keplr_dismissal_settles :
  Keplr_listens r "modal_close" (OnModalClose r) s →
  Keplr_comesTo r (Rejected None) 1 s (step s SelectModalRequestClose).
Proof.
  intros (before & after & Hls & Hothers).
  destruct (Keplr_emit_split r _ _ _ _ s Hls Hothers) as (s1 & H1 & H2).
  eapply Keplr_comesTo_untouched; [exact H1| |exact H2].
  apply Keplr_runListener_OnModalClose.
  destruct H1 as (-> & _). exact Hpending.
Qed.

Lemma Keplr_pick_extension_probes :
  Keplr_listens r "select_extension" (OnSelectExtension r) s →
  let s' := step s SelectExtension in
  Keplr_comesTo r Pending 0 s s'
  ∧ ∃ p, (length (probes s) ≤ p)%nat
         ∧ probes s' !! p = Some (Some (ThenSelected r)).
Proof.
  intros (before & after & Hls & Hothers) s'. subst s'.
  destruct (Keplr_emit_split r _ _ _ _ s Hls Hothers) as (s1 & H1 & H2).
  destruct (Keplr_runListener_OnSelectExtension r s1) as [H3 Hpr].
  split.
  - eapply Keplr_comesTo_untouched; [exact H1| |exact H2].
    destruct H1 as (P1 & _), H3 as (P3 & C3 & _). split; [|exact C3].
    by rewrite P3, P1.
  - exists (length (probes s1)). split.
    + destruct H1 as (_ & _ & _ & Hpre & _). by apply prefix_length.
    + destruct H2 as (_ & _ & _ & Hpre & _). rewrite Hpr in Hpre.
      by apply prefix_lookup_last in Hpre.
Qed.

Lemma Keplr_probe_answer_settles p k keplr :
  probes s !! p = Some (Some k) → continuationRequest k = r →
  let s' := step s (KeplrFromWindow p keplr) in
  Keplr_comesTo r (Resolved keplr)
    (match k with ThenSelected _ => 1 | ThenDefault _ => 0 end) s s'
  ∧ probes s' !! p = Some None.
Proof.
  intros Hp Hk s'. subst s'. rewrite (step_KeplrFromWindow s p k keplr Hp).
  apply lookup_lt_Some in Hp as Hlt.
  destruct k as [r'|r']; simpl in Hk; subst r'; (split; [split|]).
  - simpl. by rewrite list_lookup_alter_eq, Hpending.
  - done.
  - simpl. by apply list_lookup_insert_eq.
  - simpl. by rewrite list_lookup_alter_eq, Hpending.
  - unfold settleCalls. simpl. rewrite List.filter_app, length_app. simpl.
    rewrite Nat.eqb_refl. simpl. lia.
  - simpl. by apply list_lookup_insert_eq.
Qed.

Lemma Keplr_pick_wallet_connect :
  Keplr_listens r "select_wallet_connect" (OnSelectWalletConnect r) s →
  let s' := step s SelectWalletConnect in
  ∃ c, (length (connectors s) ≤ c)%nat
       ∧ if sessionStored s
         then Keplr_comesTo r (Resolved (Some (KeplrWalletConnectV1 c))) 1 s s'
         else Keplr_comesTo r Pending 0 s s'
              ∧ connectors s' !! c = Some (Keplr_pairingConnector r)
              ∧ CreateSession c ∈ calls s'.
Proof.
  intros (before & after & Hls & Hothers) s'. subst s'.
  destruct (Keplr_emit_split r _ _ _ _ s Hls Hothers) as (s1 & H1 & H2).
  exists (length (connectors s1)).
  pose proof H1 as (P1 & C1 & S1 & Pr1 & Co1 & Ca1).
  split; [by apply prefix_length|].
  destruct (sessionStored s) eqn:Hst.
  - eapply Keplr_comesTo_untouched; [exact H1| |exact H2].
    apply Keplr_runListener_select_connected; congruence.
  - destruct (Keplr_runListener_select_unconnected r s1) as (H3 & Hco & Hca);
      [congruence|].
    split; [|split].
    + eapply Keplr_comesTo_untouched; [exact H1| |exact H2].
      destruct H3 as (P3 & C3 & _). split; [|exact C3]. by rewrite P3, P1.
    + destruct H2 as (_ & _ & _ & _ & Hpre & _). rewrite Hco in Hpre.
      by apply prefix_lookup_last in Hpre.
    + destruct H2 as (_ & _ & _ & _ & _ & Hpre). rewrite Hca in Hpre.
      destruct Hpre as [k Hk]. unfold step. rewrite Hk.
      apply elem_of_app. left. apply elem_of_app. right.
      apply list_elem_of_In. right. by left.
Qed.

Lemma Keplr_connect_settles c k error :
  connectors s !! c = Some k → owner k = r → onConnect k = true →
  Keplr_comesTo r
    (match error with
     | None => Resolved (Some (KeplrWalletConnectV1 c))
     | Some e => Rejected (Some e)
     end) 1 s (step s (Connect c error)).
Proof.
  intros Hc Ho Hon. rewrite (step_Connect s c k error Hc Hon), Ho.
  destruct error as [e|]; split.
  - simpl. by rewrite list_lookup_alter_eq, Hpending.
  - unfold settleCalls. simpl. rewrite List.filter_app, length_app. simpl.
    rewrite Nat.eqb_refl. simpl. lia.
  - simpl. by rewrite list_lookup_alter_eq, Hpending.
  - unfold settleCalls. simpl. rewrite List.filter_app, length_app. simpl.
    rewrite Nat.eqb_refl. simpl. lia.
Qed.
End KeplrEvents.

Section KeplrRequest.
Import Keplr KeplrFacts.
Variable s : State.
Hypothesis Hwindow : window s = true.
#[local] Abbreviation r := (length (promises s)).
#[local] Abbreviation s' := (step s CallGetKeplr).

(** The listeners of a new request are registered among those of earlier
    requests. *)
Lemma Keplr_prompt_listens s0 :
  eventListener s0 = eventListener s → Keplr_noListenerOf r s →
  let s1 := prompt r s0 in
  Keplr_listens r "modal_close" (OnModalClose r) s1
  ∧ Keplr_listens r "select_extension" (OnSelectExtension r) s1
  ∧ Keplr_listens r "select_wallet_connect" (OnSelectWalletConnect r) s1.
Proof.
  intros Hev Hhyg.
  assert (∀ name h', h' ∈ listeners name (eventListener s) ++ [] →
            listenerRequest h' ≠ r) as Hold.
  { intros name h'. rewrite app_nil_r. apply Hhyg. }
  repeat split.
  - exists (listeners "modal_close" (eventListener s)), [].
    split; [|apply Hold]. simpl. listeners_norm. by rewrite Hev.
  - exists (listeners "select_extension" (eventListener s)), [].
    split; [|apply Hold]. simpl. listeners_norm. by rewrite Hev.
  - exists (listeners "select_wallet_connect" (eventListener s)), [].
    split; [|apply Hold]. simpl. listeners_norm. by rewrite Hev.
Qed.

Lemma Keplr_request_cached k :
  lastUsedKeplrRef s = Some k →
  promises s' = promises s ++ [Resolved (Some k)] ∧ calls s' = calls s.
Proof. intros Hc. unfold step, getKeplr. by rewrite Hwindow, Hc. Qed.

Lemma Keplr_request_extension :
  lastUsedKeplrRef s = None →
  defaultConnectionTypeRef s = Some extension →
  promises s' = promises s ++ [Pending]
  ∧ probes s' = probes s ++ [Some (ThenDefault r)]
  ∧ settleCalls r s' = settleCalls r s.
Proof.
  intros Hc Hp. unfold step. rewrite getKeplr_default_extension by done.
  repeat split. unfold settleCalls. simpl.
  rewrite List.filter_app, length_app. simpl. lia.
Qed.

Lemma Keplr_request_session :
  lastUsedKeplrRef s = None →
  defaultConnectionTypeRef s = Some wallet_connect →
  sessionStored s = true →
  promises s'
  = promises s
    ++ [Resolved (Some (KeplrWalletConnectV1 (length (connectors s))))]
  ∧ settleCalls r s' = settleCalls r s.
Proof.
  intros Hc Hp Hst. unfold step.
  rewrite getKeplr_default_wallet_connect by done. cbv zeta. rewrite Hst.
  split; [done|]. unfold settleCalls. simpl.
  rewrite List.filter_app, length_app. simpl. lia.
Qed.

Lemma Keplr_request_prompts :
  lastUsedKeplrRef s = None →
  defaultConnectionTypeRef s = None
  ∨ (defaultConnectionTypeRef s = Some wallet_connect
     ∧ sessionStored s = false) →
  promises s' = promises s ++ [Pending]
  ∧ isModalOpen s' = true
  ∧ settleCalls r s' = settleCalls r s
  ∧ (Keplr_noListenerOf r s →
     Keplr_listens r "modal_close" (OnModalClose r) s'
     ∧ Keplr_listens r "select_extension" (OnSelectExtension r) s'
     ∧ Keplr_listens r "select_wallet_connect" (OnSelectWalletConnect r) s').
Proof.
  intros Hc [Hp|[Hp Hst]]; unfold step.
  - rewrite getKeplr_prompt by done.
    split; [done|]. split; [done|]. split; [done|].
    intros Hhyg. by apply Keplr_prompt_listens.
  - rewrite getKeplr_default_wallet_connect by done. cbv zeta. rewrite Hst.
    split; [done|]. split; [done|]. split.
    + unfold settleCalls. simpl. rewrite List.filter_app, length_app. simpl.
      lia.
    + intros Hhyg. by apply Keplr_prompt_listens.
Qed.
End KeplrRequest.

Lemma Keplr_hygienic_noListenerOf s :
  Keplr.hygienic s → Keplr_noListenerOf (length (Keplr.promises s)) s.
Proof. intros Hhyg name h Hin%Hhyg%lookup_lt_Some. lia. Qed.

(** The dismissal of the pairing dialog calls cancel hooks only. *)
Lemma Keplr_cancelHooks_settle r s rs :
  List.filter (Keplr.isSettleCall r) (Keplr_cancelHooks s rs) = [].
Proof.
  unfold Keplr_cancelHooks. induction rs as [|r' rs IH]; [done|].
  simpl. by destruct (Keplr.callbackClosed s !! r').
Qed.

Lemma Keplr_pairing_dismissal_untouched s rs :
  listeners "wc_qr_modal_close" (Keplr.eventListener s)
    = Keplr.OnWcQrModalClose <$> rs →
  let s' := Keplr.step s Keplr.QRModalRequestClose in
  Keplr.promises s' = Keplr.promises s
  ∧ ∀ r, Keplr.settleCalls r s' = Keplr.settleCalls r s.
Proof.
  intros Hls s'. subst s'. unfold Keplr.step, Keplr.emit. rewrite Hls.
  destruct (Keplr_run_OnWcQrModalClose rs s) as (Hcalls & _ & Hp & _).
  split; [exact Hp|]. intros r. unfold Keplr.settleCalls.
  rewrite Hcalls, List.filter_app, Keplr_cancelHooks_settle.
  by rewrite app_nil_r.
Qed.

Section WalletUntouched.
Import Wallet WalletFacts.
Variable l : list WalletInfo.
Variable r : nat.
#[local] Abbreviation untouched := (Wallet_untouched r).

Lemma Wallet_untouched_refl s : untouched s s.
Proof.
  repeat split; try done. intros c k Hc. exists k. by repeat split.
Qed.

Lemma Wallet_untouched_trans s1 s2 s3 :
  untouched s1 s2 → untouched s2 s3 → untouched s1 s3.
Proof.
  intros (P1 & C1 & A1 & Ca1 & L1 & K1) (P2 & C2 & A2 & Ca2 & L2 & K2).
  repeat split; try congruence; try by etrans.
  intros c k Hc. destruct (K1 c k Hc) as (k1 & Hc1 & O1 & Cn1 & Pre1).
  destruct (K2 c k1 Hc1) as (k2 & Hc2 & O2 & Cn2 & Pre2).
  exists k2. repeat split; try congruence. by etrans.
Qed.

Ltac untouched_seq :=
  apply (respects_seq untouched Wallet_untouched_refl Wallet_untouched_trans);
  split_Forall.

Lemma Wallet_untouched_frame s s' :
  promises s' = promises s → calls s' = calls s → awaits s' = awaits s →
  connectors s' = connectors s → untouched s s'.
Proof.
  intros Hp Hc Ha Hco. unfold Wallet_untouched, settleCalls.
  rewrite Hp, Hc, Ha, Hco. apply Wallet_untouched_refl.
Qed.

Lemma Wallet_untouched_call c :
  isSettleCall r c = false → respects untouched (call c).
Proof.
  intros Hc s. repeat split; try done.
  - unfold settleCalls. simpl. rewrite List.filter_app, length_app. simpl.
    rewrite Hc. simpl. lia.
  - simpl. by apply prefix_app_r.
  - intros c' k Hk. exists k. by repeat split.
Qed.

Lemma Wallet_untouched_reject r' e : r' ≠ r → respects untouched (reject r' e).
Proof.
  intros Hne s. repeat split; try done.
  - simpl. by rewrite list_lookup_alter_ne.
  - unfold settleCalls. simpl. rewrite List.filter_app, length_app. simpl.
    apply Nat.eqb_neq in Hne. rewrite Hne. simpl. lia.
  - simpl. by apply prefix_app_r.
  - intros c k Hk. exists k. by repeat split.
Qed.

Lemma Wallet_untouched_cleanUp : respects untouched (cleanUp l).
Proof. intros s. rewrite cleanUp_eq. by apply Wallet_untouched_frame. Qed.

Lemma Wallet_untouched_resolveWallet r' c info b :
  respects untouched (resolveWallet r' c info b).
Proof.
  intros s. repeat split; try done.
  - unfold settleCalls. simpl. rewrite List.filter_app, length_app. simpl.
    lia.
  - simpl. by apply prefix_app_r.
  - simpl. by apply prefix_app_r.
  - intros c' k Hk. exists k. by repeat split.
Qed.

Lemma Wallet_untouched_connector_onConnect c info :
  respects untouched (connector_onConnect c info).
Proof.
  intros s. repeat split; try done.
  - simpl. by rewrite length_alter.
  - intros c' k Hk. simpl. destruct (decide (c = c')) as [<-|Hne].
    + rewrite list_lookup_alter_eq, Hk. simpl. eexists. split; [done|].
      repeat split. simpl. by apply prefix_app_r.
    + rewrite list_lookup_alter_ne by done. exists k. by repeat split.
Qed.

(** A listener of another request; a pick, of any request. *)
Lemma Wallet_untouched_runListener h :
  Wallet_listenerRequest h ≠ r ∨ (∃ r' c info, h = OnSelect r' c info) →
  respects untouched (runListener l h).
Proof.
  intros Hh. destruct h as [r'|r'|r' c info].
  - destruct Hh as [Hne|(? & ? & ? & [=])]. simpl in Hne. unfold runListener.
    untouched_seq; [intros s; by apply Wallet_untouched_frame
                   | by apply Wallet_untouched_reject
                   | apply Wallet_untouched_cleanUp].
  - intros s. unfold runListener, seq. cbn [foldl].
    destruct (callbackClosed _ !! r').
    + eapply Wallet_untouched_trans;
        [apply (Wallet_untouched_frame s (setWCUri "" s)); reflexivity|].
      by apply Wallet_untouched_call.
    + by apply Wallet_untouched_frame.
  - intros s. unfold runListener, seq at 1. cbn [foldl].
    eapply Wallet_untouched_trans;
      [apply (Wallet_untouched_frame s (setIsModalOpen false s));
       reflexivity|].
    destruct (String.prefix _ _); [destruct (negb _)|].
    + generalize (setIsModalOpen false s). untouched_seq.
      * by apply Wallet_untouched_call.
      * apply Wallet_untouched_connector_onConnect.
    + apply Wallet_untouched_resolveWallet.
    + apply Wallet_untouched_resolveWallet.
Qed.

Lemma Wallet_untouched_foldl hs :
  Forall (λ h, Wallet_listenerRequest h ≠ r) hs →
  respects untouched (λ s, foldl (λ s h, runListener l h s) s hs).
Proof.
  induction 1 as [|h hs Hh _ IH]; intros s; [apply Wallet_untouched_refl|].
  cbn [foldl]. eapply Wallet_untouched_trans; [|apply IH].
  apply Wallet_untouched_runListener. by left.
Qed.

Lemma Wallet_emit_split name h before after s :
  listeners name (eventListener s) = before ++ h :: after →
  (∀ h', h' ∈ before ++ after → Wallet_listenerRequest h' ≠ r) →
  ∃ s1, untouched s s1
        ∧ untouched (runListener l h s1) (emit l name s).
Proof.
  intros Hls Hothers. unfold emit. rewrite Hls, foldl_app. cbn [foldl].
  exists (foldl (λ s h, runListener l h s) s before). split.
  - apply Wallet_untouched_foldl, Forall_forall. intros h' Hh'.
    apply Hothers, elem_of_app. by left.
  - apply (Wallet_untouched_foldl after), Forall_forall. intros h' Hh'.
    apply Hothers, elem_of_app. by right.
Qed.

Lemma Wallet_comesTo_untouched o n s s1 s2 s' :
  untouched s s1 → Wallet_comesTo r o n s1 s2 → untouched s2 s' →
  Wallet_comesTo r o n s s'.
Proof.
  intros (P1 & C1 & _) [P2 C2] (P3 & C3 & _). split; congruence.
Qed.

Lemma Wallet_untouched_comesTo o s s' :
  promises s !! r = Some o → untouched s s' → Wallet_comesTo r o 0 s s'.
Proof. intros Hp (P & C & _). split; [by rewrite P|exact C]. Qed.

Lemma Wallet_untouched_isConnected c s s' :
  untouched s s' → isConnected c s' = isConnected c s.
Proof.
  intros (_ & _ & _ & _ & Hlen & Hk). unfold isConnected.
  destruct (connectors s !! c) as [k|] eqn:Hc.
  - destruct (Hk c k Hc) as (k' & -> & _ & -> & _). done.
  - apply lookup_ge_None in Hc. rewrite <- Hlen in Hc.
    apply lookup_ge_None in Hc. by rewrite Hc.
Qed.

Lemma Wallet_runListener_OnModalClose s :
  promises s !! r = Some Pending →
  Wallet_comesTo r (Rejected None) 1 s (runListener l (OnModalClose r) s).
Proof.
  intros Hp. unfold runListener, seq. cbn [foldl]. rewrite cleanUp_eq. split.
  - simpl. by rewrite list_lookup_alter_eq, Hp.
  - unfold settleCalls. simpl. rewrite List.filter_app, length_app. simpl.
    rewrite Nat.eqb_refl. simpl. lia.
Qed.
End WalletUntouched.

Section WalletEvents.
Import Wallet WalletFacts.
Variable l : list WalletInfo.
Variables (r : nat) (s : State).
Hypothesis Hpending : promises s !! r = Some Pending.

Lemma Wallet_dismissal_settles :
  Wallet_listens r "modal_close" (OnModalClose r) s →
  Wallet_comesTo r (Rejected None) 1 s (step l s SelectModalRequestClose).
Proof.
  intros (before & after & Hls & Hothers).
  destruct (Wallet_emit_split l r _ _ _ _ s Hls Hothers) as (s1 & H1 & H2).
  eapply Wallet_comesTo_untouched; [exact H1| |exact H2].
  apply Wallet_runListener_OnModalClose.
  destruct H1 as (-> & _). exact Hpending.
Qed.

Lemma Wallet_pick_awaits walletId c info :
  Wallet_listens r walletId (OnSelect r c info) s →
  String.prefix "walletconnect" (id info) = false
  ∨ isConnected c s = true →
  let s' := step l s (SelectWallet walletId) in
  Wallet_comesTo r Pending 0 s s'
  ∧ GetWallet info c ∈ calls s'
  ∧ ∃ a, (length (awaits s) ≤ a)%nat
         ∧ awaits s' !! a = Some (Some (Wallet_picked r info)).
Proof.
  intros (before & after & Hls & Hothers) Hsel s'. subst s'.
  destruct (Wallet_emit_split l r _ _ _ _ s Hls Hothers) as (s1 & H1 & H2).
  assert (Wallet_untouched r s1 (runListener l (OnSelect r c info) s1)) as H3.
  { apply Wallet_untouched_runListener. right. by eexists _, _, _. }
  split; [|split].
  - apply Wallet_untouched_comesTo; [done|].
    eapply Wallet_untouched_trans; [exact H1|].
    eapply Wallet_untouched_trans; [exact H3|exact H2].
  - destruct H2 as (_ & _ & _ & [k Hk] & _). unfold step. rewrite Hk.
    rewrite runListener_select_resolves
      by (by rewrite (Wallet_untouched_isConnected r c s s1)).
    simpl. apply elem_of_app. left. apply elem_of_app. right.
    apply list_elem_of_In. by left.
  - exists (length (awaits s1)). split.
    + destruct H1 as (_ & _ & Hpre & _). by apply prefix_length.
    + destruct H2 as (_ & _ & Hpre & _).
      rewrite runListener_select_resolves in Hpre
        by (by rewrite (Wallet_untouched_isConnected r c s s1)).
      simpl in Hpre. by apply prefix_lookup_last in Hpre.
Qed.

Lemma Wallet_pick_pairs walletId c info :
  Wallet_listens r walletId (OnSelect r c info) s →
  String.prefix "walletconnect" (id info) = true →
  isConnected c s = false →
  let s' := step l s (SelectWallet walletId) in
  Wallet_comesTo r Pending 0 s s'
  ∧ CreateSession c ∈ calls s'
  ∧ ∀ k, connectors s !! c = Some k →
         ∃ k', connectors s' !! c = Some k'
               ∧ owner k' = owner k ∧ info ∈ onConnect k'.
Proof.
  intros (before & after & Hls & Hothers) Hpre Hcon s'. subst s'.
  destruct (Wallet_emit_split l r _ _ _ _ s Hls Hothers) as (s1 & H1 & H2).
  assert (Wallet_untouched r s1 (runListener l (OnSelect r c info) s1)) as H3.
  { apply Wallet_untouched_runListener. right. by eexists _, _, _. }
  assert (isConnected c s1 = false) as Hcon1
    by (by rewrite (Wallet_untouched_isConnected r c s s1)).
  split; [|split].
  - apply Wallet_untouched_comesTo; [done|].
    eapply Wallet_untouched_trans; [exact H1|].
    eapply Wallet_untouched_trans; [exact H3|exact H2].
  - destruct H2 as (_ & _ & _ & [k Hk] & _). unfold step. rewrite Hk.
    rewrite runListener_select_pairs by done.
    simpl. apply elem_of_app. left. apply elem_of_app. right.
    apply list_elem_of_In. by left.
  - intros k Hk.
    destruct H1 as (_ & _ & _ & _ & _ & K1).
    destruct (K1 c k Hk) as (k1 & Hk1 & O1 & _).
    destruct H2 as (_ & _ & _ & _ & _ & K2).
    destruct (K2 c {| owner := owner k1; connected := connected k1;
                      onConnect := onConnect k1 ++ [info] |})
      as (k2 & Hk2 & O2 & _ & [rest P2]).
    { rewrite runListener_select_pairs by done. simpl.
      by rewrite list_lookup_alter_eq, Hk1. }
    exists k2. split; [exact Hk2|]. split; [simpl in O2; congruence|].
    rewrite P2. simpl. apply elem_of_app. left. apply elem_of_app. right.
    apply list_elem_of_In. by left.
Qed.

Lemma Wallet_resolver_answer a aw res :
  awaits s !! a = Some (Some aw) → request aw = r →
  let s' := step l s (GetWalletSettled a res) in
  match res with
  | Fulfilled wallet =>
      Wallet_comesTo r (Resolved wallet) (if resolver aw then 1 else 0) s s'
  | Failed reason =>
      if resolver aw then Wallet_comesTo r Pending 0 s s'
      else Wallet_comesTo r (Rejected (Some reason)) 0 s s'
  end.
Proof.
  intros Ha Hr s'. subst s'. rewrite (step_GetWalletSettled l s a aw res Ha).
  destruct res as [wallet|reason].
  - destruct (resumeResolveWallet_fulfilled l aw wallet
                (setAwaits (<[a := None]> (awaits s)) s))
      as (Hp & _ & _ & _ & _ & Hcalls); [by rewrite Hr|].
    rewrite Hr in Hp. split; [exact Hp|].
    unfold settleCalls. rewrite Hcalls, List.filter_app, length_app. simpl.
    destruct (resolver aw); simpl; [|lia]. rewrite Hr, Nat.eqb_refl. simpl.
    lia.
  - unfold resumeResolveWallet. destruct (resolver aw); split; try done.
    simpl. by rewrite Hr, list_lookup_alter_eq, Hpending.
Qed.

Lemma Wallet_foldl_reject c e infos s0 :
  promises s0 !! r = Some Pending → infos ≠ [] →
  Wallet_comesTo r (Rejected (Some e)) (length infos) s0
    (foldl (λ s info, onConnectListener r c info (Some e) s) s0 infos).
Proof.
  intros Hp Hne.
  assert (∀ infos s1,
            promises s1 !! r = Some (Rejected (Some e)) →
            Wallet_comesTo r (Rejected (Some e)) (length infos) s1
              (foldl (λ s info, onConnectListener r c info (Some e) s)
                 s1 infos)) as Hrest.
  { clear. intros infos. induction infos as [|info infos IH]; intros s1 Hp1.
    - by split.
    - cbn [foldl]. destruct (IH (onConnectListener r c info (Some e) s1))
        as [P C].
      { simpl. by rewrite list_lookup_alter_eq, Hp1. }
      split; [exact P|]. rewrite C. unfold settleCalls. simpl.
      rewrite List.filter_app, length_app. simpl. rewrite Nat.eqb_refl.
      simpl. lia. }
  destruct infos as [|info infos]; [done|]. cbn [foldl].
  destruct (Hrest infos (onConnectListener r c info (Some e) s0)) as [P C].
  { simpl. by rewrite list_lookup_alter_eq, Hp. }
  split; [exact P|]. rewrite C. unfold settleCalls. simpl.
  rewrite List.filter_app, length_app. simpl. rewrite Nat.eqb_refl.
  simpl. lia.
Qed.

Lemma Wallet_foldl_resolveWallet c infos s0 :
  let s' := foldl (λ s info, onConnectListener r c info None s) s0 infos in
  promises s' = promises s0
  ∧ settleCalls r s' = settleCalls r s0
  ∧ awaits s' = awaits s0 ++ (Some ∘ Wallet_picked r <$> infos).
Proof.
  revert s0. induction infos as [|info infos IH]; intros s0.
  - simpl. by rewrite app_nil_r.
  - cbn [foldl]. cbv zeta.
    destruct (IH (onConnectListener r c info None s0)) as (P & C & A).
    rewrite P, C, A. repeat split.
    + unfold settleCalls. simpl. rewrite List.filter_app, length_app. simpl.
      lia.
    + simpl. by rewrite <- app_assoc.
Qed.

Lemma Wallet_connect_error c k e :
  connectors s !! c = Some k → owner k = r → onConnect k ≠ [] →
  Wallet_comesTo r (Rejected (Some e)) (length (onConnect k)) s
    (step l s (Connect c (Some e))).
Proof.
  intros Hc Ho Hne. unfold step. rewrite Hc, Ho. unfold seq. cbn [foldl].
  by apply Wallet_foldl_reject.
Qed.

Lemma Wallet_connect_success c k :
  connectors s !! c = Some k → owner k = r →
  let s' := step l s (Connect c None) in
  Wallet_comesTo r Pending 0 s s'
  ∧ awaits s' = awaits s ++ (Some ∘ Wallet_picked r <$> onConnect k).
Proof.
  intros Hc Ho s'. subst s'. unfold step. rewrite Hc, Ho. unfold seq.
  cbn [foldl].
  destruct (Wallet_foldl_resolveWallet c (onConnect k) (markConnected c s))
    as (P & C & A).
  split; [split|].
  - by rewrite P.
  - exact C.
  - exact A.
Qed.
End WalletEvents.

Lemma Wallet_cancelHooks_settle r s rs :
  List.filter (Wallet.isSettleCall r) (Wallet_cancelHooks s rs) = [].
Proof.
  unfold Wallet_cancelHooks. induction rs as [|r' rs IH]; [done|].
  simpl. by destruct (Wallet.callbackClosed s !! r').
Qed.

Lemma Wallet_pairing_dismissal_untouched l s rs :
  listeners "wc_qr_modal_close" (Wallet.eventListener s)
    = Wallet.OnWcQrModalClose <$> rs →
  let s' := Wallet.step l s Wallet.QRModalRequestClose in
  Wallet.promises s' = Wallet.promises s
  ∧ ∀ r, Wallet.settleCalls r s' = Wallet.settleCalls r s.
Proof.
  intros Hls s'. subst s'. unfold Wallet.step, Wallet.emit. rewrite Hls.
  destruct (Wallet_run_OnWcQrModalClose l rs s) as (Hcalls & _ & Hp & _).
  split; [exact Hp|]. intros r. unfold Wallet.settleCalls.
  rewrite Hcalls, List.filter_app, Wallet_cancelHooks_settle.
  by rewrite app_nil_r.
Qed.

Section WalletRequest.
Import Wallet WalletFacts.
Variable l : list WalletInfo.
Variable s : State.
Hypothesis Hwindow : window s = true.
#[local] Abbreviation r := (length (promises s)).
#[local] Abbreviation c := (length (connectors s)).
#[local] Abbreviation s' := (step l s CallGetWallet).

Lemma Wallet_request_cached :
  truthy (lastUsedWalletRef s) = true →
  promises s' = promises s ++ [Resolved (lastUsedWalletRef s)]
  ∧ calls s' = calls s.
Proof. intros Hc. unfold step, request_getWallet. by rewrite Hwindow, Hc. Qed.

Lemma Wallet_request_preferred info :
  truthy (lastUsedWalletRef s) = false →
  defaultConnectionWalletInfo l s = Some info →
  promises s' = promises s ++ [Pending]
  ∧ awaits s' = awaits s ++ [Some (Wallet_preferred r info)]
  ∧ settleCalls r s' = settleCalls r s.
Proof.
  intros Hc Hf. unfold step. rewrite (request_getWallet_default l s info) by done.
  repeat split. unfold settleCalls. simpl.
  rewrite !List.filter_app, !length_app. simpl. lia.
Qed.

Lemma Wallet_request_prompts :
  truthy (lastUsedWalletRef s) = false →
  defaultConnectionWalletInfo l s = None →
  promises s' = promises s ++ [Pending]
  ∧ isModalOpen s' = true
  ∧ connectors s' = connectors s ++ [Wallet_newConnector r s]
  ∧ settleCalls r s' = settleCalls r s
  ∧ (Wallet_noListenerOf r s →
     (∀ info, info ∈ l → id info ≠ "modal_close") →
     Wallet_listens r "modal_close" (OnModalClose r) s'
     ∧ ∀ info,
         filter (λ i, id i = id info) l = [info] →
         id info ≠ "modal_close" → id info ≠ "wc_qr_modal_close" →
         Wallet_listens r (id info) (OnSelect r c info) s').
Proof.
  intros Hc Hf. unfold step. rewrite (request_getWallet_prompt l s) by done.
  unfold seq. cbn [foldl].
  split; [by rewrite Wallet_register_frame|].
  split; [by rewrite Wallet_register_frame|].
  split; [by rewrite Wallet_register_frame|]. split.
  { rewrite Wallet_register_frame. unfold settleCalls. simpl.
    rewrite !List.filter_app, !length_app. simpl. lia. }
  intros Hold Hreserved.
  split.
  - exists (listeners "modal_close" (eventListener s)), [].
    rewrite Wallet_listeners_register. simpl. listeners_norm.
    rewrite filter_none by (intros info Hin; by apply Hreserved).
    rewrite fmap_nil, !app_nil_r. split; [done|]. apply Hold.
  - intros info Hfilter Hn1 Hn2.
    exists (listeners (id info) (eventListener s)), [].
    rewrite Wallet_listeners_register, Hfilter. simpl.
    rewrite !listeners_on_ne by done.
    rewrite !app_nil_r. split; [done|]. apply Hold.
Qed.
End WalletRequest.

(** C1, as stated, fails in both directions.  A request can be left with
    no settlement: after the dismissal of the pairing dialog (Scenario B),
    and in [GetWalletProvider] after a picked method's resolver has failed,
    the promise is pending and neither [resolve] nor [reject] was called.
    And both can fire for one request: in [GetKeplrProvider] a dismissal of
    the selection dialog during a pairing rejects the request, and the
    pairing succeeding afterwards calls [resolve] as well; in
    [GetWalletProvider] a failed pairing calls [reject], and the dismissal
    of the selection dialog calls it again. *)
Lemma settlement_missing_or_repeated :
  (let s := Keplr.step (keplrPairing "wc:abc123") Keplr.QRModalRequestClose in
   Keplr.promises s !! 0 = Some Pending ∧ Keplr.settleCalls 0 s = 0)
  ∧ (let s := Wallet.step scenarioMethods (walletPairing "wc:abc123")
                Wallet.QRModalRequestClose in
     Wallet.promises s !! 0 = Some Pending ∧ Wallet.settleCalls 0 s = 0)
  ∧ (let s := Wallet.step scenarioMethods walletAwaitingResolver
                (Wallet.GetWalletSettled 0 (Wallet.Failed "no extension")) in
     Wallet.promises s !! 0 = Some Pending ∧ Wallet.settleCalls 0 s = 0
     ∧ Wallet.awaits s = [None])
  ∧ (let s := Keplr.run (Keplr.initial true false)
                [Keplr.CallGetKeplr; Keplr.SelectWalletConnect;
                 Keplr.SelectModalRequestClose; Keplr.Connect 0 None] in
     Keplr.promises s !! 0 = Some (Rejected None)
     ∧ Keplr.calls s
       = [Keplr.NewWalletConnect 0; Keplr.CreateSession 0;
          Keplr.Reject 0 None;
          Keplr.Resolve 0 (Some (Keplr.KeplrWalletConnectV1 0))]
     ∧ Keplr.settleCalls 0 s = 2)
  ∧ (let s := Wallet.step scenarioMethods (walletPairingFailed "rejected")
                Wallet.SelectModalRequestClose in
     Wallet.promises s !! 0 = Some (Rejected (Some "rejected"))
     ∧ Wallet.calls s
       = [Wallet.NewWalletConnect 0; Wallet.CreateSession 0;
          Wallet.Reject 0 (Some "rejected"); Wallet.Reject 0 None]
     ∧ Wallet.settleCalls 0 s = 2).
Proof. vm_compute. repeat split. Qed.

(** C1, amended.  The promise of a request settles at most once: once it is
    settled it keeps its outcome whatever happens next.

    A request made in a browser is born resolved on a cache hit and, in
    [GetKeplrProvider], on the wallet-connect preference with a stored
    session; on the other preferences it waits for the probe or the
    resolver; otherwise it opens the selection dialog and registers its
    listeners behind those of the requests that wait already.

    While the promise of request [r] is pending, whatever other requests
    wait beside it, one call of [resolve] or [reject] settles it on: the
    dismissal of the selection dialog (rejected with nothing); in
    [GetKeplrProvider] the answer of the probe a pick of the extension
    started (resolved with the answer; on the extension preference with no
    call, the promise being that of the [then]), the pick of the remote
    method with a stored session (resolved with a new wrapper) and the
    [connect] event of its connector (resolved with the wrapper, or rejected
    with the error); in [GetWalletProvider] the resolver fulfilling
    (resolved with the wallet, with no call on the preference path) and the
    failure of the pairing (rejected with the error, by one call for each
    [connect] listener the picks registered).  A resolver that fails rejects
    the request on the preference path and settles nothing after a pick.
    The picks that start a probe, a resolver or a pairing, the success of a
    pairing in [GetWalletProvider] and the dismissal of the pairing dialog
    settle nothing and call neither [resolve] nor [reject]. *)
Theorem request_settles_once :
  (* once settled, settled for good *)
  (∀ (s : Keplr.State) (trace : list Keplr.Event) (r : nat)
     (o : Keplr.Promise),
     Keplr.promises s !! r = Some o → isSettled o = true →
     Keplr.promises (Keplr.run s trace) !! r = Some o)
  ∧ (∀ (l : list Wallet.WalletInfo) (s : Wallet.State)
       (trace : list Wallet.Event) (r : nat) (o : Wallet.Promise),
     Wallet.promises s !! r = Some o → isSettled o = true →
     Wallet.promises (Wallet.run l s trace) !! r = Some o)
  (* [getKeplr] *)
  ∧ (∀ s : Keplr.State,
     Keplr.window s = true →
     let r := length (Keplr.promises s) in
     let s' := Keplr.step s Keplr.CallGetKeplr in
     (∀ k, Keplr.lastUsedKeplrRef s = Some k →
        Keplr.promises s' = Keplr.promises s ++ [Resolved (Some k)]
        ∧ Keplr.calls s' = Keplr.calls s)
     ∧ (Keplr.lastUsedKeplrRef s = None →
        Keplr.defaultConnectionTypeRef s = Some Keplr.extension →
        Keplr.promises s' = Keplr.promises s ++ [Pending]
        ∧ Keplr.probes s'
          = Keplr.probes s ++ [Some (Keplr.ThenDefault r)]
        ∧ Keplr.settleCalls r s' = Keplr.settleCalls r s)
     ∧ (Keplr.lastUsedKeplrRef s = None →
        Keplr.defaultConnectionTypeRef s = Some Keplr.wallet_connect →
        Keplr.sessionStored s = true →
        Keplr.promises s'
        = Keplr.promises s
          ++ [Resolved (Some (Keplr.KeplrWalletConnectV1
                                (length (Keplr.connectors s))))]
        ∧ Keplr.settleCalls r s' = Keplr.settleCalls r s)
     ∧ (Keplr.lastUsedKeplrRef s = None →
        Keplr.defaultConnectionTypeRef s = None
        ∨ (Keplr.defaultConnectionTypeRef s = Some Keplr.wallet_connect
           ∧ Keplr.sessionStored s = false) →
        Keplr.promises s' = Keplr.promises s ++ [Pending]
        ∧ Keplr.isModalOpen s' = true
        ∧ Keplr.settleCalls r s' = Keplr.settleCalls r s
        ∧ (Keplr_noListenerOf r s →
           Keplr_listens r "modal_close" (Keplr.OnModalClose r) s'
           ∧ Keplr_listens r "select_extension"
               (Keplr.OnSelectExtension r) s'
           ∧ Keplr_listens r "select_wallet_connect"
               (Keplr.OnSelectWalletConnect r) s')))
  (* the events of [GetKeplrProvider], for a pending request *)
  ∧ (∀ (s : Keplr.State) (r : nat),
     Keplr.promises s !! r = Some Pending →
     (Keplr_listens r "modal_close" (Keplr.OnModalClose r) s →
        Keplr_comesTo r (Rejected None) 1 s
          (Keplr.step s Keplr.SelectModalRequestClose))
     ∧ (Keplr_listens r "select_extension" (Keplr.OnSelectExtension r) s →
        let s' := Keplr.step s Keplr.SelectExtension in
        Keplr_comesTo r Pending 0 s s'
        ∧ ∃ p, (length (Keplr.probes s) ≤ p)%nat
               ∧ Keplr.probes s' !! p = Some (Some (Keplr.ThenSelected r)))
     ∧ (∀ p k keplr,
          Keplr.probes s !! p = Some (Some k) → continuationRequest k = r →
          let s' := Keplr.step s (Keplr.KeplrFromWindow p keplr) in
          Keplr_comesTo r (Resolved keplr)
            (match k with
             | Keplr.ThenSelected _ => 1
             | Keplr.ThenDefault _ => 0
             end) s s'
          ∧ Keplr.probes s' !! p = Some None)
     ∧ (Keplr_listens r "select_wallet_connect"
          (Keplr.OnSelectWalletConnect r) s →
        let s' := Keplr.step s Keplr.SelectWalletConnect in
        ∃ c, (length (Keplr.connectors s) ≤ c)%nat
             ∧ if Keplr.sessionStored s
               then Keplr_comesTo r
                      (Resolved (Some (Keplr.KeplrWalletConnectV1 c))) 1 s s'
               else Keplr_comesTo r Pending 0 s s'
                    ∧ Keplr.connectors s' !! c
                      = Some (Keplr_pairingConnector r)
                    ∧ Keplr.CreateSession c ∈ Keplr.calls s')
     ∧ (∀ c k error,
          Keplr.connectors s !! c = Some k → Keplr.owner k = r →
          Keplr.onConnect k = true →
          Keplr_comesTo r
            (match error with
             | None => Resolved (Some (Keplr.KeplrWalletConnectV1 c))
             | Some e => Rejected (Some e)
             end) 1 s (Keplr.step s (Keplr.Connect c error))))
  ∧ (∀ (s : Keplr.State) (rs : list nat),
     listeners "wc_qr_modal_close" (Keplr.eventListener s)
       = Keplr.OnWcQrModalClose <$> rs →
     let s' := Keplr.step s Keplr.QRModalRequestClose in
     Keplr.promises s' = Keplr.promises s
     ∧ ∀ r, Keplr.settleCalls r s' = Keplr.settleCalls r s)
  (* [getWallet] *)
  ∧ (∀ (l : list Wallet.WalletInfo) (s : Wallet.State),
     Wallet.window s = true →
     let r := length (Wallet.promises s) in
     let c := length (Wallet.connectors s) in
     let s' := Wallet.step l s Wallet.CallGetWallet in
     (Wallet.truthy (Wallet.lastUsedWalletRef s) = true →
        Wallet.promises s'
        = Wallet.promises s ++ [Resolved (Wallet.lastUsedWalletRef s)]
        ∧ Wallet.calls s' = Wallet.calls s)
     ∧ (Wallet.truthy (Wallet.lastUsedWalletRef s) = false →
        ∀ info, Wallet.defaultConnectionWalletInfo l s = Some info →
        Wallet.promises s' = Wallet.promises s ++ [Pending]
        ∧ Wallet.awaits s'
          = Wallet.awaits s ++ [Some (Wallet_preferred r info)]
        ∧ Wallet.settleCalls r s' = Wallet.settleCalls r s)
     ∧ (Wallet.truthy (Wallet.lastUsedWalletRef s) = false →
        Wallet.defaultConnectionWalletInfo l s = None →
        Wallet.promises s' = Wallet.promises s ++ [Pending]
        ∧ Wallet.isModalOpen s' = true
        ∧ Wallet.connectors s'
          = Wallet.connectors s ++ [Wallet_newConnector r s]
        ∧ Wallet.settleCalls r s' = Wallet.settleCalls r s
        ∧ (Wallet_noListenerOf r s →
           (∀ info, info ∈ l → Wallet.id info ≠ "modal_close") →
           Wallet_listens r "modal_close" (Wallet.OnModalClose r) s'
           ∧ ∀ info,
               filter (λ i, Wallet.id i = Wallet.id info) l = [info] →
               Wallet.id info ≠ "modal_close" →
               Wallet.id info ≠ "wc_qr_modal_close" →
               Wallet_listens r (Wallet.id info)
                 (Wallet.OnSelect r c info) s')))
  (* the events of [GetWalletProvider], for a pending request *)
  ∧ (∀ (l : list Wallet.WalletInfo) (s : Wallet.State) (r : nat),
     Wallet.promises s !! r = Some Pending →
     (Wallet_listens r "modal_close" (Wallet.OnModalClose r) s →
        Wallet_comesTo r (Rejected None) 1 s
          (Wallet.step l s Wallet.SelectModalRequestClose))
     ∧ (∀ walletId c info,
          Wallet_listens r walletId (Wallet.OnSelect r c info) s →
          let s' := Wallet.step l s (Wallet.SelectWallet walletId) in
          (String.prefix "walletconnect" (Wallet.id info) = false
           ∨ Wallet.isConnected c s = true →
           Wallet_comesTo r Pending 0 s s'
           ∧ Wallet.GetWallet info c ∈ Wallet.calls s'
           ∧ ∃ a, (length (Wallet.awaits s) ≤ a)%nat
                  ∧ Wallet.awaits s' !! a
                    = Some (Some (Wallet_picked r info)))
          ∧ (String.prefix "walletconnect" (Wallet.id info) = true →
             Wallet.isConnected c s = false →
             Wallet_comesTo r Pending 0 s s'
             ∧ Wallet.CreateSession c ∈ Wallet.calls s'
             ∧ ∀ k, Wallet.connectors s !! c = Some k →
                    ∃ k', Wallet.connectors s' !! c = Some k'
                          ∧ Wallet.owner k' = Wallet.owner k
                          ∧ info ∈ Wallet.onConnect k'))
     ∧ (∀ a aw res,
          Wallet.awaits s !! a = Some (Some aw) → Wallet.request aw = r →
          let s' := Wallet.step l s (Wallet.GetWalletSettled a res) in
          match res with
          | Wallet.Fulfilled wallet =>
              Wallet_comesTo r (Resolved wallet)
                (if Wallet.resolver aw then 1 else 0) s s'
          | Wallet.Failed reason =>
              if Wallet.resolver aw then Wallet_comesTo r Pending 0 s s'
              else Wallet_comesTo r (Rejected (Some reason)) 0 s s'
          end)
     ∧ (∀ c k,
          Wallet.connectors s !! c = Some k → Wallet.owner k = r →
          (∀ e, Wallet.onConnect k ≠ [] →
             Wallet_comesTo r (Rejected (Some e))
               (length (Wallet.onConnect k)) s
               (Wallet.step l s (Wallet.Connect c (Some e))))
          ∧ (let s' := Wallet.step l s (Wallet.Connect c None) in
             Wallet_comesTo r Pending 0 s s'
             ∧ Wallet.awaits s'
               = Wallet.awaits s
                 ++ (Some ∘ Wallet_picked r <$> Wallet.onConnect k))))
  ∧ (∀ (l : list Wallet.WalletInfo) (s : Wallet.State) (rs : list nat),
     listeners "wc_qr_modal_close" (Wallet.eventListener s)
       = Wallet.OnWcQrModalClose <$> rs →
     let s' := Wallet.step l s Wallet.QRModalRequestClose in
     Wallet.promises s' = Wallet.promises s
     ∧ ∀ r, Wallet.settleCalls r s' = Wallet.settleCalls r s).
Proof.
  split; [|split; [|split; [|split; [|split; [|split; [|split]]]]]].
  - intros s trace r o Hr Ho.
    by apply (proj2 (settledKept_run trace s)).
  - intros l s trace r o Hr Ho.
    by apply (proj2 (outcomeKept_run l trace s)).
  - intros s Hw r s'. subst r s'. split; [|split; [|split]].
    + intros k Hc. by apply Keplr_request_cached.
    + intros Hc Hp. by apply Keplr_request_extension.
    + intros Hc Hp Hst. by apply Keplr_request_session.
    + intros Hc Hp. by apply Keplr_request_prompts.
  - intros s r Hp. split; [|split; [|split; [|split]]].
    + by apply Keplr_dismissal_settles.
    + by apply Keplr_pick_extension_probes.
    + intros p k keplr. by apply Keplr_probe_answer_settles.
    + by apply Keplr_pick_wallet_connect.
    + intros c k error. by apply Keplr_connect_settles.
  - intros s rs. by apply Keplr_pairing_dismissal_untouched.
  - intros l s Hw r c s'. subst r c s'. split; [|split].
    + intros Hc. by apply Wallet_request_cached.
    + intros Hc info Hf. by apply Wallet_request_preferred.
    + intros Hc Hf. by apply Wallet_request_prompts.
  - intros l s r Hp. split; [|split; [|split]].
    + by apply Wallet_dismissal_settles.
    + intros walletId c info Hls s'. subst s'. split.
      * by apply Wallet_pick_awaits.
      * by apply Wallet_pick_pairs.
    + intros a aw res. by apply Wallet_resolver_answer.
    + intros c k Hc Ho. split.
      * intros e Hne. by apply Wallet_connect_error.
      * by apply Wallet_connect_success.
  - intros l s rs. by apply Wallet_pairing_dismissal_untouched.
Qed.

Lemma request_settles_once_witness :
  Keplr_comesTo 0 (Rejected None) 1 keplrTwoWaiting
    (Keplr.step keplrTwoWaiting Keplr.SelectModalRequestClose)
  ∧ Keplr_comesTo 0 (Rejected (Some "rejected")) 1 (keplrPairing "wc:abc123")
      (Keplr.step (keplrPairing "wc:abc123")
         (Keplr.Connect 0 (Some "rejected")))
  ∧ Wallet_comesTo 0 Pending 0 walletAwaitingResolver
      (Wallet.step scenarioMethods walletAwaitingResolver
         (Wallet.GetWalletSettled 0 (Wallet.Failed "no extension")))
  ∧ Wallet_comesTo 0 (Rejected (Some "rejected")) 1 (walletPairing "wc:abc123")
      (Wallet.step scenarioMethods (walletPairing "wc:abc123")
         (Wallet.Connect 0 (Some "rejected"))).
Proof.
  destruct request_settles_once
    as (_ & _ & _ & Hkeplr & _ & _ & Hwallet & _).
  split; [|split; [|split]].
  - apply (proj1 (Hkeplr keplrTwoWaiting 0 eq_refl)).
    exists [], [Keplr.OnModalClose 1]. split; [vm_compute; reflexivity|].
    intros h' Hin. apply list_elem_of_In in Hin. simpl in Hin.
    destruct Hin as [<-|[]]. discriminate.
  - apply (proj2 (proj2 (proj2 (proj2
             (Hkeplr (keplrPairing "wc:abc123") 0 eq_refl))))
             0 (Keplr_pairingConnector 0) (Some "rejected"));
      reflexivity.
  - apply (proj1 (proj2 (proj2
             (Hwallet scenarioMethods walletAwaitingResolver 0 eq_refl)))
             0 (Wallet_picked 0 extensionInfo)
             (Wallet.Failed "no extension"));
      reflexivity.
  - apply (proj1 (proj2 (proj2 (proj2
             (Hwallet scenarioMethods (walletPairing "wc:abc123") 0 eq_refl)))
             0 {| Wallet.owner := 0; Wallet.connected := false;
                  Wallet.onConnect := [walletconnectInfo] |}
             eq_refl eq_refl) "rejected").
    discriminate.
Defined.

(** * Further properties of the code *)

(** ** The broadcast helper: the chain table and the bytes of the hash *)

(** X1.  A chain id that no entry of [EmbedChainInfos] carries makes
    [sendTxWC] raise a [TypeError] (line 29 reads [.rest] of [undefined]),
    whatever the transaction, the mode and whatever the endpoint would have
    answered: no request is made. *)
Theorem sendTxWC_unknown_chain
  (bufferFromObject : SendTx.Json → SendTx.Outcome)
  (chains : list SendTx.ChainInfo) (base64 : list Z → string)
  (post : string → string → SendTx.Params → SendTx.PostResult)
  (chain : string) (tx : SendTx.Tx) (mode : SendTx.BroadcastMode) :
  (∀ c, c ∈ chains → SendTx.chainId c ≠ chain) →
  SendTx.sendTxWC bufferFromObject chains base64 post chain tx mode
  = SendTx.Thrown SendTx.TypeError.
Proof.
  intros Hno. unfold SendTx.sendTxWC.
  by rewrite SendTxFacts.find_chain_none.
Qed.

Lemma sendTxWC_unknown_chain_witness :
  SendTx.sendTxWC (λ _, SendTx.Returned [])
    [{| SendTx.chainId := "cosmoshub-4"; SendTx.rest := "https://lcd" |}]
    (λ _, "")
    (λ _ _ _, SendTx.PostData (Some (SendTx.JObj
       [("code", SendTx.JNum 0); ("txhash", SendTx.JStr "AA11")])))
    "osmosis-1" (SendTx.StdTx SendTx.JNull) SendTx.sync
  = SendTx.Thrown SendTx.TypeError.
Proof.
  apply sendTxWC_unknown_chain.
  intros c Hc. apply list_elem_of_singleton in Hc as ->. discriminate.
Defined.

(** X2.  The first entry of the table with the chain id is the one whose
    REST URL is used: entries before it with other ids and every entry
    after it, same id or not, make no difference. *)
Theorem sendTxWC_first_chain_wins
  (bufferFromObject : SendTx.Json → SendTx.Outcome)
  (before after : list SendTx.ChainInfo) (chainInfo : SendTx.ChainInfo)
  (base64 : list Z → string)
  (post : string → string → SendTx.Params → SendTx.PostResult)
  (tx : SendTx.Tx) (mode : SendTx.BroadcastMode) :
  (∀ c, c ∈ before → SendTx.chainId c ≠ SendTx.chainId chainInfo) →
  SendTx.sendTxWC bufferFromObject (before ++ chainInfo :: after) base64 post
    (SendTx.chainId chainInfo) tx mode
  = SendTx.sendTxWC bufferFromObject [chainInfo] base64 post
      (SendTx.chainId chainInfo) tx mode.
Proof.
  intros Hno. unfold SendTx.sendTxWC.
  rewrite SendTxFacts.find_chain_first by done.
  simpl. by rewrite String.eqb_refl.
Qed.

Lemma sendTxWC_first_chain_wins_witness :
  let hub url := {| SendTx.chainId := "cosmoshub-4"; SendTx.rest := url |} in
  let osmo := {| SendTx.chainId := "osmosis-1"; SendTx.rest := "https://osmo" |} in
  let post (base : string) (_ : string) (_ : SendTx.Params) :=
    if String.eqb base "https://first"
    then SendTx.PostData (Some (SendTx.JObj
           [("code", SendTx.JNum 0); ("txhash", SendTx.JStr "AA11")]))
    else SendTx.PostRejected "unreachable" in
  SendTx.sendTxWC (λ _, SendTx.Returned [])
    [osmo; hub "https://first"; hub "https://second"]
    (λ _, "") post "cosmoshub-4" (SendTx.StdTx SendTx.JNull) SendTx.sync
  = SendTx.sendTxWC (λ _, SendTx.Returned []) [hub "https://first"]
      (λ _, "") post "cosmoshub-4" (SendTx.StdTx SendTx.JNull) SendTx.sync.
Proof.
  intros hub osmo post.
  apply (sendTxWC_first_chain_wins (λ _, SendTx.Returned []) [osmo]
           [hub "https://second"] (hub "https://first")).
  intros c Hc. apply list_elem_of_singleton in Hc as ->. discriminate.
Defined.

(** X3.  The hash [sendTxWC] returns for a [txhash] string, whatever the
    string, has at most half as many bytes as the string has characters,
    each byte between 0 and 255; when every character is a hexadecimal
    digit it has exactly half as many (rounded down), an odd last digit
    being dropped. *)
Theorem sendTxWC_hash_bytes
  (bufferFromObject : SendTx.Json → SendTx.Outcome)
  (chains : list SendTx.ChainInfo) (base64 : list Z → string)
  (post : string → string → SendTx.Params → SendTx.PostResult)
  (chain : string) (tx : SendTx.Tx) (mode : SendTx.BroadcastMode)
  (data : option SendTx.Json) (response : SendTx.Json) (txhash : string) :
  SendTx.answered chains base64 post chain tx mode data →
  SendTx.txResponseOf (SendTx.isProtoTx tx) data = inr (Some response) →
  SendTx.zeroOrAbsent (SendTx.prop "code" response) →
  SendTx.prop "txhash" response = Some (SendTx.JStr txhash) →
  ∃ bytes,
    SendTx.sendTxWC bufferFromObject chains base64 post chain tx mode
    = SendTx.Returned bytes
    ∧ (List.length bytes ≤ Nat.div2 (String.length txhash))%nat
    ∧ Forall SendTx.isByte bytes
    ∧ (SendTx.allHex txhash = true
       → List.length bytes = Nat.div2 (String.length txhash)).
Proof.
  intros Hans Hobj Hcode Hhash.
  exists (SendTx.hexDecode txhash). split.
  - rewrite (SendTxFacts.sendTxWC_answered _ _ _ _ _ _ _ _ Hans).
    rewrite (SendTxFacts.handleResponse_response _ _ _ response Hobj)
      by (intros ->; discriminate).
    apply SendTxFacts.passes_zeroOrAbsent in Hcode as ->.
    by rewrite Hhash.
  - apply (SendTxFacts.hexDecode_bytes (S (String.length txhash)) txhash).
    lia.
Qed.

Lemma sendTxWC_hash_bytes_witness :
  ∃ bytes,
    SendTx.sendTxWC (λ _, SendTx.Returned [])
      [{| SendTx.chainId := "cosmoshub-4"; SendTx.rest := "https://lcd" |}]
      (λ _, "")
      (λ _ _ _, SendTx.PostData (Some (SendTx.JObj
         [("tx_response", SendTx.JObj
            [("code", SendTx.JNum 0); ("txhash", SendTx.JStr "0aFf1")])])))
      "cosmoshub-4" (SendTx.TxBytes [1%Z; 2%Z]) SendTx.sync
    = SendTx.Returned bytes
    ∧ List.length bytes = 2.
Proof.
  destruct (sendTxWC_hash_bytes (λ _, SendTx.Returned [])
    [{| SendTx.chainId := "cosmoshub-4"; SendTx.rest := "https://lcd" |}]
    (λ _, "")
    (λ _ _ _, SendTx.PostData (Some (SendTx.JObj
       [("tx_response", SendTx.JObj
          [("code", SendTx.JNum 0); ("txhash", SendTx.JStr "0aFf1")])])))
    "cosmoshub-4" (SendTx.TxBytes [1%Z; 2%Z]) SendTx.sync
    (Some (SendTx.JObj
       [("tx_response", SendTx.JObj
          [("code", SendTx.JNum 0); ("txhash", SendTx.JStr "0aFf1")])]))
    (SendTx.JObj [("code", SendTx.JNum 0); ("txhash", SendTx.JStr "0aFf1")])
    "0aFf1")
    as (bytes & Hret & _ & _ & Hlen).
  - eexists. split; reflexivity.
  - reflexivity.
  - right; right; reflexivity.
  - reflexivity.
  - exists bytes. split; [exact Hret|]. apply Hlen. reflexivity.
Defined.

(** ** A request made while no other request waits

    From the request to its settlement, with the calls the broker makes on
    the way. *)

(** A request made while no other request waits for an emission: the
    listeners of the four names are those the request registers. *)
Lemma Keplr_prompt_listeners r s :
  quiet (Keplr.eventListener s) →
  let s1 := Keplr.prompt r s in
  listeners "modal_close" (Keplr.eventListener s1) = [Keplr.OnModalClose r]
  ∧ listeners "select_extension" (Keplr.eventListener s1)
    = [Keplr.OnSelectExtension r]
  ∧ listeners "select_wallet_connect" (Keplr.eventListener s1)
    = [Keplr.OnSelectWalletConnect r]
  ∧ listeners "wc_qr_modal_close" (Keplr.eventListener s1) = [].
Proof.
  intros Hq. simpl. listeners_norm. by rewrite !Hq.
Qed.

Section KeplrPaths.
Variable s : Keplr.State.
Hypothesis Hwindow : Keplr.window s = true.
Hypothesis Hcache : Keplr.lastUsedKeplrRef s = None.
Hypothesis Hpref : Keplr.defaultConnectionTypeRef s = None.
Hypothesis Hquiet : quiet (Keplr.eventListener s).

#[local] Abbreviation r := (length (Keplr.promises s)).
#[local] Abbreviation c := (length (Keplr.connectors s)).
#[local] Abbreviation s1 := (keplrRequested s).

Lemma Keplr_requested : s1 = Keplr.prompt r s.
Proof. by apply KeplrFacts.getKeplr_prompt. Qed.

Lemma Keplr_path_dismissal :
  let s' := Keplr.step s1 Keplr.SelectModalRequestClose in
  Keplr.promises s' !! r = Some (Rejected None)
  ∧ Keplr.calls s' = Keplr.calls s ++ [Keplr.Reject r None].
Proof.
  rewrite Keplr_requested.
  destruct (Keplr_prompt_listeners r s Hquiet) as (Hls & _).
  intros s'. subst s'. cbn [Keplr.step].
  rewrite (KeplrFacts.emit_single _ _ _ Hls). simpl.
  rewrite list_lookup_alter_eq, list_lookup_middle by done. done.
Qed.

Lemma Keplr_path_extension keplr :
  let s2 := Keplr.step s1 Keplr.SelectExtension in
  let s' := Keplr.step s2
              (Keplr.KeplrFromWindow (length (Keplr.probes s)) keplr) in
  Keplr.promises s2 !! r = Some Pending
  ∧ Keplr.promises s' !! r = Some (Resolved keplr)
  ∧ Keplr.calls s'
    = Keplr.calls s ++ [Keplr.GetKeplrFromWindow; Keplr.Resolve r keplr].
Proof.
  rewrite Keplr_requested.
  destruct (Keplr_prompt_listeners r s Hquiet) as (_ & Hls & _).
  intros s2 s'. subst s' s2.
  change (Keplr.step (Keplr.prompt r s) Keplr.SelectExtension)
    with (Keplr.emit "select_extension" (Keplr.prompt r s)).
  rewrite (KeplrFacts.emit_single _ _ _ Hls).
  split; [simpl; by apply list_lookup_middle|].
  erewrite KeplrFacts.step_KeplrFromWindow
    by (simpl; apply list_lookup_middle; reflexivity).
  simpl. rewrite list_lookup_alter_eq, list_lookup_middle by done.
  by rewrite <- app_assoc.
Qed.

Lemma Keplr_path_connected :
  Keplr.sessionStored s = true →
  let keplr := Keplr.KeplrWalletConnectV1 c in
  let s' := Keplr.step s1 Keplr.SelectWalletConnect in
  Keplr.promises s' !! r = Some (Resolved (Some keplr))
  ∧ Keplr.calls s'
    = Keplr.calls s ++ [Keplr.NewWalletConnect c; Keplr.Resolve r (Some keplr)].
Proof.
  intros Hst. rewrite Keplr_requested.
  destruct (Keplr_prompt_listeners r s Hquiet) as (_ & _ & Hls & _).
  intros keplr s'. subst s' keplr. cbn [Keplr.step].
  rewrite (KeplrFacts.emit_single _ _ _ Hls),
    KeplrFacts.runListener_select_connected by done.
  simpl. rewrite list_lookup_alter_eq, list_lookup_middle by done.
  by rewrite <- app_assoc.
Qed.

#[local] Abbreviation s3 uri := (keplrPairingShown s uri).

Lemma Keplr_pairing uri :
  Keplr.sessionStored s = false →
  s3 uri
  = seq [Keplr.setIsModalOpen false; Keplr.setWCUri uri;
         λ s', Keplr.setCallbackClosed (<[r := c]> (Keplr.callbackClosed s')) s']
        (seq [Keplr.call (Keplr.CreateSession c); Keplr.connector_onConnect c]
           (Keplr.eventListener_on "wc_qr_modal_close"
              (Keplr.OnWcQrModalClose r)
              (Keplr.newWalletConnect r true (Keplr.prompt r s)))).
Proof.
  intros Hst. unfold keplrPairingShown. rewrite Keplr_requested.
  destruct (Keplr_prompt_listeners r s Hquiet) as (_ & _ & Hls & _).
  cbn [Keplr.step].
  rewrite (KeplrFacts.emit_single _ _ _ Hls),
    KeplrFacts.runListener_select_unconnected by done.
  unfold Keplr.qrcodeModal_open. simpl.
  rewrite list_lookup_alter_eq, list_lookup_middle by done. reflexivity.
Qed.

Lemma Keplr_pairing_connector uri :
  Keplr.sessionStored s = false →
  Keplr.connectors (s3 uri) !! c
  = Some {| Keplr.owner := r; Keplr.hidesSelection := true;
            Keplr.connected := false; Keplr.onConnect := true |}.
Proof.
  intros Hst. rewrite Keplr_pairing by done. simpl.
  rewrite list_lookup_alter_eq, list_lookup_middle by done. simpl.
  by rewrite Hst.
Qed.

Lemma Keplr_path_pairing_success uri :
  Keplr.sessionStored s = false →
  let keplr := Keplr.KeplrWalletConnectV1 c in
  let s' := Keplr.step (s3 uri) (Keplr.Connect c None) in
  Keplr.promises (s3 uri) !! r = Some Pending
  ∧ Keplr.promises s' !! r = Some (Resolved (Some keplr))
  ∧ Keplr.calls s'
    = Keplr.calls s
      ++ [Keplr.NewWalletConnect c; Keplr.CreateSession c;
          Keplr.Resolve r (Some keplr)].
Proof.
  intros Hst keplr s'. subst s' keplr.
  erewrite KeplrFacts.step_Connect by (by apply Keplr_pairing_connector || done).
  rewrite Keplr_pairing by done. simpl.
  rewrite list_lookup_alter_eq, !list_lookup_middle by done.
  by rewrite <- !app_assoc.
Qed.

Lemma Keplr_path_pairing_failure uri error :
  Keplr.sessionStored s = false →
  let s' := Keplr.step (s3 uri) (Keplr.Connect c (Some error)) in
  Keplr.promises s' !! r = Some (Rejected (Some error))
  ∧ Keplr.calls s'
    = Keplr.calls s
      ++ [Keplr.NewWalletConnect c; Keplr.CreateSession c;
          Keplr.Reject r (Some error)].
Proof.
  intros Hst s'. subst s'.
  erewrite KeplrFacts.step_Connect by (by apply Keplr_pairing_connector || done).
  rewrite Keplr_pairing by done. simpl.
  rewrite list_lookup_alter_eq, !list_lookup_middle by done.
  by rewrite <- !app_assoc.
Qed.

Lemma Keplr_pairing_session uri :
  Keplr.sessionStored s = false →
  Keplr.promises (s3 uri) !! r = Some Pending
  ∧ Keplr.calls (s3 uri)
    = Keplr.calls s ++ [Keplr.NewWalletConnect c; Keplr.CreateSession c]
  ∧ Keplr.callbackClosed (s3 uri) !! r = Some c
  ∧ listeners "wc_qr_modal_close" (Keplr.eventListener (s3 uri))
    = [Keplr.OnWcQrModalClose r].
Proof.
  intros Hst. rewrite Keplr_pairing by done. simpl.
  rewrite list_lookup_middle, lookup_insert_eq, <- app_assoc by done.
  listeners_norm. by rewrite Hquiet.
Qed.

Lemma Keplr_path_pairing_dismissal uri :
  Keplr.sessionStored s = false →
  let s' := Keplr.step (s3 uri) Keplr.QRModalRequestClose in
  Keplr.promises s' !! r = Some Pending
  ∧ Keplr.calls s'
    = Keplr.calls s
      ++ [Keplr.NewWalletConnect c; Keplr.CreateSession c;
          Keplr.CallbackClosed c].
Proof.
  intros Hst s'. subst s'. cbn [Keplr.step].
  destruct (Keplr_pairing_session uri Hst) as (Hp & Hcalls & Hcb & Hls).
  rewrite (KeplrFacts.emit_single _ _ _ Hls).
  destruct (Keplr_OnWcQrModalClose r (s3 uri)) as (Hcalls' & _ & _ & Hp' & _).
  rewrite Hp', Hcalls', Hp, Hcalls. unfold Keplr_cancelHooks. simpl.
  rewrite Hcb. simpl. by rewrite <- app_assoc.
Qed.
End KeplrPaths.

(** The shortcuts of [getKeplr]: the cache, the preference. *)
Lemma Keplr_path_cache s k :
  Keplr.window s = true → Keplr.lastUsedKeplrRef s = Some k →
  let s' := Keplr.step s Keplr.CallGetKeplr in
  Keplr.promises s' !! length (Keplr.promises s) = Some (Resolved (Some k))
  ∧ Keplr.calls s' = Keplr.calls s.
Proof.
  intros Hw Hc s'. subst s'. cbn [Keplr.step].
  rewrite (Keplr_getKeplr_cached s k Hw Hc). simpl.
  by rewrite list_lookup_middle.
Qed.

Lemma Keplr_path_default_extension s keplr :
  Keplr.window s = true → Keplr.lastUsedKeplrRef s = None →
  Keplr.defaultConnectionTypeRef s = Some Keplr.extension →
  let s1 := Keplr.step s Keplr.CallGetKeplr in
  let s' := Keplr.step s1
              (Keplr.KeplrFromWindow (length (Keplr.probes s)) keplr) in
  Keplr.promises s1 !! length (Keplr.promises s) = Some Pending
  ∧ Keplr.promises s' !! length (Keplr.promises s) = Some (Resolved keplr)
  ∧ Keplr.calls s' = Keplr.calls s ++ [Keplr.GetKeplrFromWindow].
Proof.
  intros Hw Hc Hp s1 s'. subst s' s1.
  change (Keplr.step s Keplr.CallGetKeplr) with (Keplr.getKeplr s).
  rewrite (KeplrFacts.getKeplr_default_extension s Hw Hc Hp).
  split; [simpl; by apply list_lookup_middle|].
  erewrite KeplrFacts.step_KeplrFromWindow
    by (simpl; apply list_lookup_middle; reflexivity).
  simpl. by rewrite list_lookup_alter_eq, list_lookup_middle.
Qed.

Lemma Keplr_path_default_wallet_connect s :
  Keplr.window s = true → Keplr.lastUsedKeplrRef s = None →
  Keplr.defaultConnectionTypeRef s = Some Keplr.wallet_connect →
  Keplr.sessionStored s = true →
  let s' := Keplr.step s Keplr.CallGetKeplr in
  Keplr.promises s' !! length (Keplr.promises s)
  = Some (Resolved (Some (Keplr.KeplrWalletConnectV1
                            (length (Keplr.connectors s)))))
  ∧ Keplr.calls s'
    = Keplr.calls s ++ [Keplr.NewWalletConnect (length (Keplr.connectors s))].
Proof.
  intros Hw Hc Hp Hst s'. subst s'. cbn [Keplr.step].
  rewrite (KeplrFacts.getKeplr_default_wallet_connect s Hw Hc Hp), Hst. simpl.
  by rewrite list_lookup_middle.
Qed.

Section WalletPaths.
Variable l : list Wallet.WalletInfo.
Variable s : Wallet.State.
Hypothesis Hwindow : Wallet.window s = true.
Hypothesis Hcache : Wallet.truthy (Wallet.lastUsedWalletRef s) = false.
Hypothesis Hpref : Wallet.defaultConnectionWalletInfo l s = None.
Hypothesis Hquiet : quiet (Wallet.eventListener s).
Hypothesis Hreserved :
  ∀ info, info ∈ l →
    Wallet.id info ≠ "modal_close" ∧ Wallet.id info ≠ "wc_qr_modal_close".

#[local] Abbreviation r := (length (Wallet.promises s)).
#[local] Abbreviation c := (length (Wallet.connectors s)).
#[local] Abbreviation s1 := (walletRequested l s).

Lemma Wallet_no_reserved name :
  name = "modal_close" ∨ name = "wc_qr_modal_close" →
  filter (λ info, Wallet.id info = name) l = [].
Proof.
  intros Hn. apply filter_none. intros info Hin Hid.
  destruct (Hreserved info Hin), Hn; congruence.
Qed.

(** The state a request leaves: everything but the listeners is written
    out, the listeners are characterised below. *)
Lemma Wallet_requested :
  s1 = Wallet.setEventListener (Wallet.eventListener s1)
         (seq [Wallet.newPromise Pending; Wallet.setIsModalOpen true]
            (Wallet.newWalletConnect r s)).
Proof.
  unfold walletRequested. cbn [Wallet.step].
  rewrite (WalletFacts.request_getWallet_prompt l s Hwindow Hcache Hpref).
  unfold seq. cbn [foldl].
  match goal with
  | |- context [foldl ?f ?s0 l] =>
      rewrite (Wallet_register_frame r c l s0) at 1
  end.
  reflexivity.
Qed.

Lemma Wallet_requested_listeners :
  listeners "modal_close" (Wallet.eventListener s1) = [Wallet.OnModalClose r]
  ∧ listeners "wc_qr_modal_close" (Wallet.eventListener s1)
    = [Wallet.OnWcQrModalClose r]
  ∧ ∀ info, filter (λ i, Wallet.id i = Wallet.id info) l = [info] →
      Wallet.id info ≠ "modal_close" →
      Wallet.id info ≠ "wc_qr_modal_close" →
      listeners (Wallet.id info) (Wallet.eventListener s1)
      = [Wallet.OnSelect r c info].
Proof.
  unfold walletRequested. cbn [Wallet.step].
  rewrite (WalletFacts.request_getWallet_prompt l s Hwindow Hcache Hpref).
  unfold seq. cbn [foldl].
  split; [|split].
  - rewrite Wallet_listeners_register, Wallet_no_reserved by auto. simpl.
    listeners_norm. by rewrite Hquiet.
  - rewrite Wallet_listeners_register, Wallet_no_reserved by auto. simpl.
    listeners_norm. by rewrite Hquiet.
  - intros info Hf H1 H2. rewrite Wallet_listeners_register, Hf. simpl.
    rewrite !listeners_on_ne by done. by rewrite Hquiet.
Qed.

Lemma Wallet_requested_session :
  Wallet.promises s1 = Wallet.promises s ++ [Pending]
  ∧ Wallet.calls s1 = Wallet.calls s ++ [Wallet.NewWalletConnect c]
  ∧ Wallet.awaits s1 = Wallet.awaits s
  ∧ Wallet.connectors s1
    = Wallet.connectors s
      ++ [{| Wallet.owner := r; Wallet.connected := Wallet.sessionStored s;
             Wallet.onConnect := [] |}]
  ∧ Wallet.isConnected c s1 = Wallet.sessionStored s.
Proof.
  rewrite Wallet_requested. unfold Wallet.isConnected. simpl.
  rewrite list_lookup_middle by done. repeat split.
Qed.

Lemma Wallet_path_dismissal :
  let s' := Wallet.step l s1 Wallet.SelectModalRequestClose in
  Wallet.promises s' !! r = Some (Rejected None)
  ∧ Wallet.calls s'
    = Wallet.calls s ++ [Wallet.NewWalletConnect c; Wallet.Reject r None].
Proof.
  intros s'. subst s'. cbn [Wallet.step].
  destruct Wallet_requested_listeners as (Hls & _).
  destruct Wallet_requested_session as (Hp & Hcalls & _).
  rewrite (WalletFacts.emit_one _ _ _ _ Hls).
  unfold Wallet.runListener, seq. cbn [foldl].
  rewrite WalletFacts.cleanUp_eq. simpl.
  rewrite Hp, Hcalls, list_lookup_alter_eq, list_lookup_middle by done.
  by rewrite <- app_assoc.
Qed.

(** The pick of a method that needs no pairing: it is not of the remote
    family, or the connector is connected. *)
Lemma Wallet_path_selection info wallet :
  filter (λ i, Wallet.id i = Wallet.id info) l = [info] →
  info ∈ l →
  String.prefix "walletconnect" (Wallet.id info) = false
  ∨ Wallet.sessionStored s = true →
  let s2 := Wallet.step l s1 (Wallet.SelectWallet (Wallet.id info)) in
  let s' := Wallet.step l s2
              (Wallet.GetWalletSettled (length (Wallet.awaits s))
                 (Wallet.Fulfilled wallet)) in
  Wallet.promises s2 !! r = Some Pending
  ∧ Wallet.promises s' !! r = Some (Resolved wallet)
  ∧ Wallet.calls s'
    = Wallet.calls s
      ++ [Wallet.NewWalletConnect c; Wallet.GetWallet info c;
          Wallet.Resolve r wallet].
Proof.
  intros Hf Hin Hsel s2 s'. subst s' s2.
  destruct (Hreserved info Hin) as [H1 H2].
  destruct Wallet_requested_listeners as (_ & _ & Hls).
  destruct Wallet_requested_session as (Hp & Hcalls & Haw & _ & Hconn).
  change (Wallet.step l s1 (Wallet.SelectWallet (Wallet.id info)))
    with (Wallet.emit l (Wallet.id info) s1).
  rewrite (WalletFacts.emit_one _ _ _ _ (Hls info Hf H1 H2)).
  rewrite WalletFacts.runListener_select_resolves
    by (destruct Hsel; [by left | right; by rewrite Hconn]).
  split; [simpl; rewrite Hp; by apply list_lookup_middle|].
  erewrite WalletFacts.step_GetWalletSettled
    by (simpl; rewrite Haw; apply list_lookup_middle; reflexivity).
  match goal with
  | |- context [Wallet.resumeResolveWallet l ?a (Wallet.Fulfilled wallet) ?s0] =>
      destruct (WalletFacts.resumeResolveWallet_fulfilled l a wallet s0)
        as (Hp' & _ & _ & _ & _ & Hcalls')
  end; [simpl; rewrite Hp; by apply list_lookup_middle|].
  split; [exact Hp'|]. rewrite Hcalls'. simpl.
  rewrite Hcalls. by rewrite <- !app_assoc.
Qed.

#[local] Abbreviation s3 info uri := (walletPairingShown l s info uri).

Lemma Wallet_pairing info uri :
  filter (λ i, Wallet.id i = Wallet.id info) l = [info] →
  info ∈ l →
  String.prefix "walletconnect" (Wallet.id info) = true →
  Wallet.sessionStored s = false →
  s3 info uri
  = seq [Wallet.setWCUri uri;
         λ s', Wallet.setCallbackClosed
                 (<[r := c]> (Wallet.callbackClosed s')) s']
        (seq [Wallet.call (Wallet.CreateSession c);
              Wallet.connector_onConnect c info]
           (Wallet.setIsModalOpen false s1)).
Proof.
  intros Hf Hin Hpre Hst. unfold walletPairingShown.
  destruct (Hreserved info Hin) as [H1 H2].
  destruct Wallet_requested_listeners as (_ & _ & Hls).
  destruct Wallet_requested_session as (_ & _ & _ & Hcs & Hconn).
  change (Wallet.step l s1 (Wallet.SelectWallet (Wallet.id info)))
    with (Wallet.emit l (Wallet.id info) s1).
  rewrite (WalletFacts.emit_one _ _ _ _ (Hls info Hf H1 H2)).
  rewrite WalletFacts.runListener_select_pairs by (done || by rewrite Hconn).
  cbn [Wallet.step]. unfold Wallet.qrcodeModal_open. simpl.
  rewrite Hcs, list_lookup_alter_eq, list_lookup_middle by done.
  reflexivity.
Qed.

Lemma Wallet_pairing_session info uri :
  filter (λ i, Wallet.id i = Wallet.id info) l = [info] →
  info ∈ l →
  String.prefix "walletconnect" (Wallet.id info) = true →
  Wallet.sessionStored s = false →
  Wallet.promises (s3 info uri) = Wallet.promises s ++ [Pending]
  ∧ Wallet.calls (s3 info uri)
    = Wallet.calls s ++ [Wallet.NewWalletConnect c; Wallet.CreateSession c]
  ∧ Wallet.awaits (s3 info uri) = Wallet.awaits s
  ∧ Wallet.callbackClosed (s3 info uri) !! r = Some c
  ∧ Wallet.connectors (s3 info uri) !! c
    = Some {| Wallet.owner := r; Wallet.connected := false;
              Wallet.onConnect := [info] |}
  ∧ listeners "wc_qr_modal_close" (Wallet.eventListener (s3 info uri))
    = [Wallet.OnWcQrModalClose r].
Proof.
  intros Hf Hin Hpre Hst. rewrite Wallet_pairing by done.
  destruct Wallet_requested_listeners as (_ & Hls & _).
  destruct Wallet_requested_session as (Hp & Hcalls & Haw & Hcs & _).
  simpl. rewrite Hp, Hcalls, Haw, Hcs, Hls, <- app_assoc, lookup_insert_eq.
  rewrite list_lookup_alter_eq, list_lookup_middle by done. simpl.
  by rewrite Hst.
Qed.

Lemma Wallet_path_pairing_success info uri wallet :
  filter (λ i, Wallet.id i = Wallet.id info) l = [info] →
  info ∈ l →
  String.prefix "walletconnect" (Wallet.id info) = true →
  Wallet.sessionStored s = false →
  let s4 := Wallet.step l (s3 info uri) (Wallet.Connect c None) in
  let s' := Wallet.step l s4
              (Wallet.GetWalletSettled (length (Wallet.awaits s))
                 (Wallet.Fulfilled wallet)) in
  Wallet.promises s4 !! r = Some Pending
  ∧ Wallet.promises s' !! r = Some (Resolved wallet)
  ∧ Wallet.calls s'
    = Wallet.calls s
      ++ [Wallet.NewWalletConnect c; Wallet.CreateSession c;
          Wallet.GetWallet info c; Wallet.Resolve r wallet].
Proof.
  intros Hf Hin Hpre Hst s4 s'. subst s' s4.
  destruct (Wallet_pairing_session info uri Hf Hin Hpre Hst)
    as (Hp & Hcalls & Haw & _ & Hcs & _).
  assert (Wallet.step l (s3 info uri) (Wallet.Connect c None)
          = Wallet.resolveWallet r c info true
              (Wallet.markConnected c (s3 info uri))) as ->.
  { cbn [Wallet.step]. by rewrite Hcs. }
  split; [simpl; rewrite Hp; by apply list_lookup_middle|].
  erewrite WalletFacts.step_GetWalletSettled
    by (simpl; rewrite Haw; apply list_lookup_middle; reflexivity).
  match goal with
  | |- context [Wallet.resumeResolveWallet l ?a (Wallet.Fulfilled wallet) ?s0] =>
      destruct (WalletFacts.resumeResolveWallet_fulfilled l a wallet s0)
        as (Hp' & _ & _ & _ & _ & Hcalls')
  end; [simpl; rewrite Hp; by apply list_lookup_middle|].
  split; [exact Hp'|]. rewrite Hcalls'. simpl.
  rewrite Hcalls. by rewrite <- !app_assoc.
Qed.

Lemma Wallet_path_pairing_failure info uri error :
  filter (λ i, Wallet.id i = Wallet.id info) l = [info] →
  info ∈ l →
  String.prefix "walletconnect" (Wallet.id info) = true →
  Wallet.sessionStored s = false →
  let s' := Wallet.step l (s3 info uri) (Wallet.Connect c (Some error)) in
  Wallet.promises s' !! r = Some (Rejected (Some error))
  ∧ Wallet.calls s'
    = Wallet.calls s
      ++ [Wallet.NewWalletConnect c; Wallet.CreateSession c;
          Wallet.Reject r (Some error)].
Proof.
  intros Hf Hin Hpre Hst s'. subst s'.
  destruct (Wallet_pairing_session info uri Hf Hin Hpre Hst)
    as (Hp & Hcalls & Haw & _ & Hcs & _).
  assert (Wallet.step l (s3 info uri) (Wallet.Connect c (Some error))
          = Wallet.reject r (Some error) (s3 info uri)) as ->.
  { cbn [Wallet.step]. by rewrite Hcs. }
  simpl. rewrite Hp, Hcalls, list_lookup_alter_eq, list_lookup_middle by done.
  by rewrite <- !app_assoc.
Qed.

Lemma Wallet_path_pairing_dismissal info uri :
  filter (λ i, Wallet.id i = Wallet.id info) l = [info] →
  info ∈ l →
  String.prefix "walletconnect" (Wallet.id info) = true →
  Wallet.sessionStored s = false →
  let s' := Wallet.step l (s3 info uri) Wallet.QRModalRequestClose in
  Wallet.promises s' !! r = Some Pending
  ∧ Wallet.calls s'
    = Wallet.calls s
      ++ [Wallet.NewWalletConnect c; Wallet.CreateSession c;
          Wallet.CallbackClosed c].
Proof.
  intros Hf Hin Hpre Hst s'. subst s'. cbn [Wallet.step].
  destruct (Wallet_pairing_session info uri Hf Hin Hpre Hst)
    as (Hp & Hcalls & _ & Hcb & _ & Hls).
  rewrite (WalletFacts.emit_one _ _ _ _ Hls).
  destruct (Wallet_OnWcQrModalClose l r (s3 info uri))
    as (Hcalls' & _ & _ & Hp' & _).
  rewrite Hp', Hcalls', Hp, Hcalls. unfold Wallet_cancelHooks. simpl.
  rewrite Hcb. simpl. rewrite <- app_assoc.
  split; [by apply list_lookup_middle | done].
Qed.

End WalletPaths.

(** The shortcuts of [getWallet]: the cache, the preference. *)
Lemma Wallet_path_cache l s :
  Wallet.window s = true → Wallet.truthy (Wallet.lastUsedWalletRef s) = true →
  let s' := Wallet.step l s Wallet.CallGetWallet in
  Wallet.promises s' !! length (Wallet.promises s)
  = Some (Resolved (Wallet.lastUsedWalletRef s))
  ∧ Wallet.calls s' = Wallet.calls s.
Proof.
  intros Hw Hc s'. subst s'. cbn [Wallet.step].
  rewrite (Wallet_getWallet_cached l s Hw Hc). simpl.
  by rewrite list_lookup_middle.
Qed.

Lemma Wallet_path_default l s info res :
  Wallet.window s = true → Wallet.truthy (Wallet.lastUsedWalletRef s) = false →
  Wallet.defaultConnectionWalletInfo l s = Some info →
  let r := length (Wallet.promises s) in
  let c := length (Wallet.connectors s) in
  let s1 := Wallet.step l s Wallet.CallGetWallet in
  let s' := Wallet.step l s1
              (Wallet.GetWalletSettled (length (Wallet.awaits s)) res) in
  Wallet.promises s1 !! r = Some Pending
  ∧ Wallet.promises s' !! r
    = Some (match res with
            | Wallet.Fulfilled wallet => Resolved wallet
            | Wallet.Failed reason => Rejected (Some reason)
            end)
  ∧ Wallet.calls s'
    = Wallet.calls s ++ [Wallet.NewWalletConnect c; Wallet.GetWallet info c].
Proof.
  intros Hw Hc Hf r c s1 s'. subst s' s1 r c.
  change (Wallet.step l s Wallet.CallGetWallet)
    with (Wallet.request_getWallet l s).
  rewrite (WalletFacts.request_getWallet_default l s info Hw Hc Hf).
  split; [simpl; by apply list_lookup_middle|].
  erewrite WalletFacts.step_GetWalletSettled
    by (simpl; apply list_lookup_middle; reflexivity).
  destruct res as [wallet|reason].
  - match goal with
    | |- context [Wallet.resumeResolveWallet l ?a (Wallet.Fulfilled wallet) ?s0] =>
        destruct (WalletFacts.resumeResolveWallet_fulfilled l a wallet s0)
          as (Hp' & _ & _ & _ & _ & Hcalls')
    end; [simpl; by apply list_lookup_middle|].
    split; [exact Hp'|]. rewrite Hcalls'. simpl.
    by rewrite <- !app_assoc, app_nil_r.
  - simpl. rewrite list_lookup_alter_eq, list_lookup_middle by done.
    by rewrite <- app_assoc.
Qed.

(** X4.  A request made in a browser while no listener is registered, and
    the events that follow it with nothing in between: on a cache hit and
    on a preference hit, and from the selection dialog on its dismissal, on
    the pick of a method that needs no pairing once its resolver has
    fulfilled, on the success and on the failure of the pairing, the promise
    has the outcome of the path and the broker has made exactly the calls
    listed, one of them a [resolve] or [reject] of the request where the
    promise is not that of a [then]; after the dismissal of the pairing
    dialog the promise is pending and the cancel hook is the last call. *)
Theorem request_paths_when_alone :
  (∀ s : Keplr.State,
     Keplr.window s = true →
     let r := length (Keplr.promises s) in
     let c := length (Keplr.connectors s) in
     let p := length (Keplr.probes s) in
     let keplrWC := Keplr.KeplrWalletConnectV1 c in
     (∀ k, Keplr.lastUsedKeplrRef s = Some k →
        Keplr_outcome s [Keplr.CallGetKeplr] (Resolved (Some k)) [])
     ∧ (Keplr.lastUsedKeplrRef s = None →
        Keplr.defaultConnectionTypeRef s = Some Keplr.extension →
        ∀ keplr,
          Keplr_outcome s [Keplr.CallGetKeplr; Keplr.KeplrFromWindow p keplr]
            (Resolved keplr) [Keplr.GetKeplrFromWindow])
     ∧ (Keplr.lastUsedKeplrRef s = None →
        Keplr.defaultConnectionTypeRef s = Some Keplr.wallet_connect →
        Keplr.sessionStored s = true →
        Keplr_outcome s [Keplr.CallGetKeplr]
          (Resolved (Some keplrWC)) [Keplr.NewWalletConnect c])
     ∧ (Keplr.lastUsedKeplrRef s = None →
        Keplr.defaultConnectionTypeRef s = None →
        quiet (Keplr.eventListener s) →
        Keplr_outcome s [Keplr.CallGetKeplr; Keplr.SelectModalRequestClose]
          (Rejected None) [Keplr.Reject r None]
        ∧ (∀ keplr,
             Keplr_outcome s
               [Keplr.CallGetKeplr; Keplr.SelectExtension;
                Keplr.KeplrFromWindow p keplr]
               (Resolved keplr)
               [Keplr.GetKeplrFromWindow; Keplr.Resolve r keplr])
        ∧ (Keplr.sessionStored s = true →
           Keplr_outcome s [Keplr.CallGetKeplr; Keplr.SelectWalletConnect]
             (Resolved (Some keplrWC))
             [Keplr.NewWalletConnect c; Keplr.Resolve r (Some keplrWC)])
        ∧ (Keplr.sessionStored s = false →
           ∀ uri,
             Keplr_outcome s
               [Keplr.CallGetKeplr; Keplr.SelectWalletConnect;
                Keplr.QrcodeModalOpen c uri; Keplr.Connect c None]
               (Resolved (Some keplrWC))
               [Keplr.NewWalletConnect c; Keplr.CreateSession c;
                Keplr.Resolve r (Some keplrWC)]
             ∧ (∀ error,
                  Keplr_outcome s
                    [Keplr.CallGetKeplr; Keplr.SelectWalletConnect;
                     Keplr.QrcodeModalOpen c uri;
                     Keplr.Connect c (Some error)]
                    (Rejected (Some error))
                    [Keplr.NewWalletConnect c; Keplr.CreateSession c;
                     Keplr.Reject r (Some error)])
             ∧ Keplr_outcome s
                 [Keplr.CallGetKeplr; Keplr.SelectWalletConnect;
                  Keplr.QrcodeModalOpen c uri; Keplr.QRModalRequestClose]
                 Pending
                 [Keplr.NewWalletConnect c; Keplr.CreateSession c;
                  Keplr.CallbackClosed c])))
  ∧ (∀ (l : list Wallet.WalletInfo) (s : Wallet.State),
     Wallet.window s = true →
     let r := length (Wallet.promises s) in
     let c := length (Wallet.connectors s) in
     let a := length (Wallet.awaits s) in
     (Wallet.truthy (Wallet.lastUsedWalletRef s) = true →
        Wallet_outcome l s [Wallet.CallGetWallet]
          (Resolved (Wallet.lastUsedWalletRef s)) [])
     ∧ (Wallet.truthy (Wallet.lastUsedWalletRef s) = false →
        ∀ info, Wallet.defaultConnectionWalletInfo l s = Some info →
        ∀ res,
          Wallet_outcome l s
            [Wallet.CallGetWallet; Wallet.GetWalletSettled a res]
            (match res with
             | Wallet.Fulfilled wallet => Resolved wallet
             | Wallet.Failed reason => Rejected (Some reason)
             end)
            [Wallet.NewWalletConnect c; Wallet.GetWallet info c])
     ∧ (Wallet.truthy (Wallet.lastUsedWalletRef s) = false →
        Wallet.defaultConnectionWalletInfo l s = None →
        quiet (Wallet.eventListener s) →
        (∀ info, info ∈ l →
           Wallet.id info ≠ "modal_close"
           ∧ Wallet.id info ≠ "wc_qr_modal_close") →
        Wallet_outcome l s
          [Wallet.CallGetWallet; Wallet.SelectModalRequestClose]
          (Rejected None) [Wallet.NewWalletConnect c; Wallet.Reject r None]
        ∧ ∀ info,
            filter (λ i, Wallet.id i = Wallet.id info) l = [info] →
            info ∈ l →
            (String.prefix "walletconnect" (Wallet.id info) = false
             ∨ Wallet.sessionStored s = true →
             ∀ wallet,
               Wallet_outcome l s
                 [Wallet.CallGetWallet; Wallet.SelectWallet (Wallet.id info);
                  Wallet.GetWalletSettled a (Wallet.Fulfilled wallet)]
                 (Resolved wallet)
                 [Wallet.NewWalletConnect c; Wallet.GetWallet info c;
                  Wallet.Resolve r wallet])
            ∧ (String.prefix "walletconnect" (Wallet.id info) = true →
               Wallet.sessionStored s = false →
               ∀ uri,
                 (∀ wallet,
                    Wallet_outcome l s
                      [Wallet.CallGetWallet;
                       Wallet.SelectWallet (Wallet.id info);
                       Wallet.QrcodeModalOpen c uri; Wallet.Connect c None;
                       Wallet.GetWalletSettled a (Wallet.Fulfilled wallet)]
                      (Resolved wallet)
                      [Wallet.NewWalletConnect c; Wallet.CreateSession c;
                       Wallet.GetWallet info c; Wallet.Resolve r wallet])
                 ∧ (∀ error,
                      Wallet_outcome l s
                        [Wallet.CallGetWallet;
                         Wallet.SelectWallet (Wallet.id info);
                         Wallet.QrcodeModalOpen c uri;
                         Wallet.Connect c (Some error)]
                        (Rejected (Some error))
                        [Wallet.NewWalletConnect c; Wallet.CreateSession c;
                         Wallet.Reject r (Some error)])
                 ∧ Wallet_outcome l s
                     [Wallet.CallGetWallet;
                      Wallet.SelectWallet (Wallet.id info);
                      Wallet.QrcodeModalOpen c uri;
                      Wallet.QRModalRequestClose]
                     Pending
                     [Wallet.NewWalletConnect c; Wallet.CreateSession c;
                      Wallet.CallbackClosed c]))).
Proof.
  split.
  - intros s Hw r c p keplrWC. subst r c p keplrWC.
    unfold Keplr_outcome, Keplr.run. cbn [foldl].
    split; [|split; [|split]].
    + intros k Hc. rewrite app_nil_r. by apply Keplr_path_cache.
    + intros Hc Hp keplr. by apply Keplr_path_default_extension.
    + intros Hc Hp Hst. by apply Keplr_path_default_wallet_connect.
    + intros Hc Hp Hq. split; [|split; [|split]].
      * by apply Keplr_path_dismissal.
      * intros keplr. by apply Keplr_path_extension.
      * intros Hst. by apply Keplr_path_connected.
      * intros Hst uri. split; [|split].
        -- by apply Keplr_path_pairing_success.
        -- intros error. by apply Keplr_path_pairing_failure.
        -- by apply Keplr_path_pairing_dismissal.
  - intros l s Hw r c a. subst r c a.
    unfold Wallet_outcome, Wallet.run. cbn [foldl].
    split; [|split].
    + intros Hc. rewrite app_nil_r. by apply Wallet_path_cache.
    + intros Hc info Hf res. by apply Wallet_path_default.
    + intros Hc Hp Hq Hres. split.
      * by apply Wallet_path_dismissal.
      * intros info Hf Hin. split.
        -- intros Hsel wallet. by apply Wallet_path_selection.
        -- intros Hpre Hst uri. split; [|split].
           ++ intros wallet. by apply Wallet_path_pairing_success.
           ++ intros error. by apply Wallet_path_pairing_failure.
           ++ by apply Wallet_path_pairing_dismissal.
Qed.

Lemma request_paths_when_alone_witness :
  Keplr_outcome (Keplr.initial true false)
    [Keplr.CallGetKeplr; Keplr.SelectModalRequestClose]
    (Rejected None) [Keplr.Reject 0 None]
  ∧ Wallet_outcome scenarioMethods (Wallet.initial true false)
      [Wallet.CallGetWallet; Wallet.SelectModalRequestClose]
      (Rejected None) [Wallet.NewWalletConnect 0; Wallet.Reject 0 None].
Proof.
  split.
  - apply (proj1 (proj2 (proj2 (proj2
      (proj1 request_paths_when_alone
         (Keplr.initial true false) eq_refl)))
      eq_refl eq_refl quiet_empty)).
  - assert (∀ info, info ∈ scenarioMethods →
              Wallet.id info ≠ "modal_close"
              ∧ Wallet.id info ≠ "wc_qr_modal_close") as Hreserved.
    { intros info Hin. apply list_elem_of_In in Hin. simpl in Hin.
      destruct Hin as [<-|[<-|[]]]; split; discriminate. }
    exact (proj1 (proj2 (proj2
      (proj2 request_paths_when_alone
         scenarioMethods (Wallet.initial true false) eq_refl))
      eq_refl eq_refl quiet_empty Hreserved)).
Defined.

(** ** The cache and [connectionType] of [GetKeplrProvider] *)

Lemma foldl_invariant {A S : Type} (P : S → Prop) (Q : A → Prop)
  (g : A → S → S) (l : list A) (s : S) :
  (∀ a s, Q a → P s → P (g a s)) → Forall Q l → P s →
  P (foldl (λ s a, g a s) s l).
Proof.
  intros Hg Hl. revert s. induction Hl as [|a l Ha _ IH]; intros s Hs; [done|].
  cbn [foldl]. apply IH. by apply Hg.
Qed.

Section KeplrCoherence.
Import Keplr KeplrFacts.

Lemma Keplr_coherent_set s k t :
  lastUsedKeplrRef s = k → connectionType s = t →
  (∀ k', k = Some k' → t = Some (Keplr_kind k')) → Keplr_coherent s.
Proof. intros <- <- H. exact H. Qed.

Lemma Keplr_coherent_adopt r c s : Keplr_coherent (adoptWalletConnect r c s).
Proof.
  apply (Keplr_coherent_set _ (Some (KeplrWalletConnectV1 c))
           (Some wallet_connect)); [done..|].
  by intros k [= <-].
Qed.

Lemma Keplr_coherent_runListener h s :
  Keplr_coherent s → Keplr_coherent (runListener h s).
Proof.
  intros Hco. destruct h as [r|r|r|r].
  - exact Hco.
  - exact Hco.
  - destruct (sessionStored s) eqn:Hst.
    + rewrite runListener_select_connected by done.
      apply (Keplr_coherent_set _
               (Some (KeplrWalletConnectV1 (length (connectors s))))
               (Some wallet_connect)); [done..|].
      by intros k [= <-].
    + rewrite runListener_select_unconnected by done. exact Hco.
  - unfold runListener, seq. cbn [foldl].
    destruct (callbackClosed _ !! r); exact Hco.
Qed.

Lemma Keplr_coherent_emit name s :
  Keplr_coherent s → Keplr_coherent (emit name s).
Proof.
  intros Hco. unfold emit.
  apply (foldl_invariant Keplr_coherent (λ _, True) runListener); [|by apply Forall_true|done].
  intros h s' _. apply Keplr_coherent_runListener.
Qed.

Lemma Keplr_coherent_getKeplr s :
  Keplr_coherent s → Keplr_coherent (getKeplr s).
Proof.
  intros Hco. unfold getKeplr.
  destruct (negb (window s)); [exact Hco|].
  destruct (lastUsedKeplrRef s) eqn:Hc; [exact Hco|].
  destruct (defaultConnectionTypeRef s) as [[|]|]; [exact Hco| |exact Hco].
  cbv zeta. destruct (isConnected _ _); [|exact Hco].
  apply (Keplr_coherent_set _
           (Some (KeplrWalletConnectV1 (length (connectors s))))
           (Some wallet_connect)); [done..|].
  by intros k [= <-].
Qed.

Lemma Keplr_coherent_step e s :
  Keplr_probeFindsInjected e = true →
  Keplr_coherent s → Keplr_coherent (step s e).
Proof.
  intros He Hco. destruct e; unfold step; try by apply Keplr_coherent_emit.
  - by apply Keplr_coherent_getKeplr.
  - by intros k [=].
  - exact Hco.
  - destruct (probes s !! probe) as [[k|]|]; [|exact Hco..].
    apply (Keplr_coherent_set _ keplr (Some extension)).
    + by destruct k.
    + by destruct k.
    + intros k' ->. by destruct k'.
  - unfold qrcodeModal_open. destruct (connectors s !! connector) as [k|];
      [|exact Hco].
    destruct (hidesSelection k) eqn:Hh; unfold seq; cbn [foldl]; rewrite ?Hh; exact Hco.
  - unfold qrcodeModal_close. destruct (connectors s !! connector); exact Hco.
  - destruct (connectors s !! connector) as [k|]; [|exact Hco].
    destruct error as [err|], (onConnect k); try exact Hco.
    apply (Keplr_coherent_set _ (Some (KeplrWalletConnectV1 connector))
             (Some wallet_connect)); [done..|].
    by intros k' [= <-].
  - exact Hco.
Qed.

Lemma Keplr_coherent_run trace s :
  forallb Keplr_probeFindsInjected trace = true →
  Keplr_coherent s → Keplr_coherent (run s trace).
Proof.
  revert s. induction trace as [|e trace IH]; intros s Htr Hco; [done|].
  simpl in Htr. apply andb_prop in Htr as [He Htr].
  apply (IH (step s e)); [done|]. by apply Keplr_coherent_step.
Qed.
End KeplrCoherence.

(** X5.  In every state [GetKeplrProvider] reaches, provided the probes
    answer with the injected object or with nothing, [connectionType] tells
    what the cached handle is: ["extension"] for the injected object,
    ["wallet-connect"] for a wrapper of a connector. *)
Theorem keplr_connectionType_tells_cached_handle
  (w stored : bool) (trace : list Keplr.Event) (k : Keplr.KeplrObject) :
  forallb Keplr_probeFindsInjected trace = true →
  let s := Keplr.run (Keplr.initial w stored) trace in
  Keplr.lastUsedKeplrRef s = Some k →
  Keplr.connectionType s = Some (Keplr_kind k).
Proof.
  intros Htr s Hk.
  apply (Keplr_coherent_run trace (Keplr.initial w stored)); [done| |done].
  by intros k' [=].
Qed.

Lemma keplr_connectionType_tells_cached_handle_witness :
  Keplr.connectionType
    (Keplr.run (Keplr.initial true false)
       [Keplr.CallGetKeplr; Keplr.SelectWalletConnect;
        Keplr.QrcodeModalOpen 0 "wc:abc123"; Keplr.Connect 0 None])
  = Some Keplr.wallet_connect.
Proof.
  apply (keplr_connectionType_tells_cached_handle true false
           [Keplr.CallGetKeplr; Keplr.SelectWalletConnect;
            Keplr.QrcodeModalOpen 0 "wc:abc123"; Keplr.Connect 0 None]
           (Keplr.KeplrWalletConnectV1 0)).
  - reflexivity.
  - vm_compute. reflexivity.
Defined.

(** ** A request nothing can settle *)

Section KeplrStranded.
Import Keplr KeplrFacts.
Variable r : nat.
#[local] Abbreviation stays := (Keplr_staysStranded r).

Lemma stays_refl s : stays s s.
Proof. by intros ?. Qed.

Lemma stays_trans s1 s2 s3 : stays s1 s2 → stays s2 s3 → stays s1 s3.
Proof. unfold Keplr_staysStranded. tauto. Qed.

Ltac stays_seq :=
  apply (respects_seq stays stays_refl stays_trans); split_Forall.

Lemma stays_frame (f : State → State) :
  (∀ s, promises (f s) = promises s ∧ eventListener (f s) = eventListener s
        ∧ probes (f s) = probes s ∧ connectors (f s) = connectors s) →
  respects stays f.
Proof.
  intros Hf s. destruct (Hf s) as (Hp & Hev & Hpr & Hc).
  unfold Keplr_staysStranded, Keplr_stranded, Keplr_abandoned.
  by rewrite Hp, Hev, Hpr, Hc.
Qed.

Ltac stays_framed := apply stays_frame; intros []; repeat split; reflexivity.

Lemma stays_fulfil r' o : r' ≠ r → respects stays (fulfil r' o).
Proof.
  intros Hne s (Hp & Hab). split; [|exact Hab].
  simpl. by rewrite list_lookup_alter_ne.
Qed.

Lemma stays_resolve r' v : r' ≠ r → respects stays (resolve r' v).
Proof. intros. unfold resolve. stays_seq; [stays_framed | by apply stays_fulfil]. Qed.

Lemma stays_reject r' e : r' ≠ r → respects stays (reject r' e).
Proof. intros. unfold reject. stays_seq; [stays_framed | by apply stays_fulfil]. Qed.

Lemma stays_newPromise p : respects stays (newPromise p).
Proof.
  intros s (Hp & Hab). split; [|exact Hab]. simpl. by apply lookup_app_l_Some.
Qed.

Lemma stays_on name h :
  listenerRequest h ≠ r → respects stays (eventListener_on name h).
Proof.
  intros Hne s (Hp & Hl & Hpr & Hc). split; [done|]. split; [|done].
  intros name' h' [Hin|[_ ->]]%elem_of_listeners_on; [by eapply Hl | done].
Qed.

Lemma stays_off name : respects stays (eventListener_off name).
Proof.
  intros s (Hp & Hl & Hpr & Hc). split; [done|]. split; [|done].
  intros name' h' [_ Hin]%elem_of_listeners_off. by eapply Hl.
Qed.

Lemma stays_cleanUp : respects stays cleanUp.
Proof. unfold cleanUp. stays_seq; apply stays_off. Qed.

Lemma stays_getKeplrFromWindow k :
  continuationRequest k ≠ r → respects stays (getKeplrFromWindow k).
Proof.
  intros Hne. unfold getKeplrFromWindow. stays_seq; [stays_framed|].
  intros s (Hp & Hl & Hpr & Hc). split; [done|]. split; [done|]. split; [|done].
  intros p k' [[_ Hin]|[_ [= <-]]]%lookup_snoc_Some; [by eapply Hpr | done].
Qed.

Lemma stays_newWalletConnect r' b : respects stays (newWalletConnect r' b).
Proof.
  intros s (Hp & Hl & Hpr & Hc). split; [done|]. split; [done|]. split; [done|].
  intros c k [[_ Hin]|[_ <-]]%lookup_snoc_Some; [by eapply Hc | done].
Qed.

Lemma stays_markConnected c : respects stays (markConnected c).
Proof.
  intros s (Hp & Hl & Hpr & Hc). split; [done|]. split; [done|]. split; [done|].
  intros c' k Hk Hon. simpl in Hk.
  destruct (decide (c = c')) as [<-|Hne].
  - rewrite list_lookup_alter_eq in Hk.
    destruct (connectors s !! c) as [k0|] eqn:Hk0; simplify_eq/=.
    by eapply Hc.
  - rewrite list_lookup_alter_ne in Hk by done. by eapply Hc.
Qed.

Lemma stays_adoptWalletConnect r' c :
  r' ≠ r → respects stays (adoptWalletConnect r' c).
Proof.
  intros. unfold adoptWalletConnect. stays_seq; try stays_framed.
  by apply stays_resolve.
Qed.

Lemma stays_connector_onConnect c s :
  (∀ k, connectors s !! c = Some k → owner k ≠ r) →
  stays s (connector_onConnect c s).
Proof.
  intros Hown (Hp & Hl & Hpr & Hc). split; [done|]. split; [done|].
  split; [done|].
  intros c' k Hk Hon. simpl in Hk.
  destruct (decide (c = c')) as [<-|Hne].
  - rewrite list_lookup_alter_eq in Hk.
    destruct (connectors s !! c) as [k0|] eqn:Hk0; simplify_eq/=.
    by apply Hown.
  - rewrite list_lookup_alter_ne in Hk by done. by eapply Hc.
Qed.

Lemma stays_runListener h :
  listenerRequest h ≠ r → respects stays (runListener h).
Proof.
  intros Hne. destruct h as [r'|r'|r'|r']; simpl in Hne.
  - unfold runListener.
    stays_seq; [stays_framed | by apply stays_reject | apply stays_cleanUp].
  - unfold runListener.
    stays_seq; [stays_framed | by apply stays_getKeplrFromWindow].
  - intros s. destruct (sessionStored s) eqn:Hst.
    + rewrite runListener_select_connected by done.
      eapply stays_trans; [apply stays_newWalletConnect|].
      eapply stays_trans; [by apply (stays_on "wc_qr_modal_close"
                                       (OnWcQrModalClose r'))|].
      apply (respects_seq stays stays_refl stays_trans
               [adoptWalletConnect r' (length (connectors s)); cleanUp]).
      split_Forall; [by apply stays_adoptWalletConnect | apply stays_cleanUp].
    + rewrite runListener_select_unconnected by done.
      eapply stays_trans; [apply stays_newWalletConnect|].
      eapply stays_trans; [by apply (stays_on "wc_qr_modal_close"
                                       (OnWcQrModalClose r'))|].
      unfold seq. cbn [foldl].
      eapply stays_trans;
        [apply (stays_frame (call (CreateSession (length (connectors s)))));
         intros []; repeat split; reflexivity|].
      apply stays_connector_onConnect. intros k Hk. simpl in Hk.
      rewrite list_lookup_middle in Hk by done. by simplify_eq.
  - intros s Hs. unfold runListener, seq. cbn [foldl].
    destruct (callbackClosed _ !! r'); exact Hs.
Qed.

Lemma stays_emit name s : stays s (emit name s).
Proof.
  intros Hs. unfold emit.
  apply (foldl_invariant (Keplr_stranded r) (λ h, listenerRequest h ≠ r)
           runListener); [| |done].
  - intros h s' Hh. by apply stays_runListener.
  - apply Forall_forall. intros h Hh. destruct Hs as (_ & Hl & _).
    by eapply Hl.
Qed.

Lemma stays_prompt r' : r' ≠ r → respects stays (prompt r').
Proof.
  intros. unfold prompt.
  stays_seq; [apply stays_newPromise | stays_framed | by apply stays_on..].
Qed.

Lemma stays_getKeplr s : stays s (getKeplr s).
Proof.
  intros Hs. assert (length (promises s) ≠ r) as Hne.
  { destruct Hs as [Hp _]. apply lookup_lt_Some in Hp. lia. }
  revert Hs. unfold getKeplr.
  destruct (negb (window s)); [apply stays_newPromise|].
  destruct (lastUsedKeplrRef s); [apply stays_newPromise|].
  cbv zeta. revert Hne.
  generalize (length (promises s)), (length (connectors s)).
  intros r' c Hne. destruct (defaultConnectionTypeRef s) as [[|]|].
  - revert s. stays_seq;
      [apply stays_newPromise | by apply stays_getKeplrFromWindow].
  - eapply stays_trans with (newWalletConnect r' false s);
      [apply stays_newWalletConnect|].
    destruct (isConnected _ _); [|by apply stays_prompt].
    generalize (newWalletConnect r' false s).
    stays_seq; try stays_framed. apply stays_newPromise.
  - by apply stays_prompt.
Qed.

Lemma stays_runContinuation k keplr :
  continuationRequest k ≠ r → respects stays (runContinuation k keplr).
Proof.
  intros Hne. destruct k as [r'|r']; simpl in Hne; unfold runContinuation;
    stays_seq; try stays_framed;
    first [by apply stays_fulfil | by apply stays_resolve
          | apply stays_cleanUp].
Qed.

Lemma stays_onConnectListener r' c error :
  r' ≠ r → respects stays (onConnectListener r' c error).
Proof.
  intros. unfold onConnectListener. stays_seq; [apply stays_cleanUp|].
  destruct error; [by apply stays_reject | by apply stays_adoptWalletConnect].
Qed.

Lemma stays_step e s : stays s (step s e).
Proof.
  destruct e; unfold step; try apply stays_emit.
  - apply stays_getKeplr.
  - revert s. unfold clearLastUsedKeplr. stays_seq; stays_framed.
  - revert s. stays_framed.
  - destruct (probes s !! probe) as [[k|]|] eqn:Hk; try apply stays_refl.
    intros Hs. assert (continuationRequest k ≠ r) as Hne.
    { destruct Hs as (_ & _ & Hpr & _). by eapply Hpr. }
    revert Hs. generalize probe. intros p. revert s Hk.
    intros s _. revert s.
    stays_seq; [|by apply stays_runContinuation].
    intros s (Hp & Hl & Hpr & Hc). split; [done|]. split; [done|].
    split; [|done]. intros p' k' Hk'. simpl in Hk'.
    destruct (decide (p = p')) as [<-|Hpp].
    + apply list_lookup_insert_Some in Hk' as [(_ & [=] & _)|[? _]]; done.
    + rewrite list_lookup_insert_ne in Hk' by done. by eapply Hpr.
  - intros Hs. unfold qrcodeModal_open.
    destruct (connectors s !! connector) as [k|]; [|exact Hs].
    unfold seq. cbn [foldl]. destruct (hidesSelection k); exact Hs.
  - intros Hs. unfold qrcodeModal_close.
    destruct (connectors s !! connector); exact Hs.
  - destruct (connectors s !! connector) as [k|] eqn:Hk; [|apply stays_refl].
    intros Hs. assert (onConnect k = true → owner k ≠ r) as Hne.
    { destruct Hs as (_ & _ & _ & Hc). by eapply Hc. }
    revert Hs. clear Hk. revert s.
    stays_seq.
    + destruct error; [apply respects_id, stays_refl | apply stays_markConnected].
    + destruct (onConnect k); [by apply stays_onConnectListener, Hne
                              | apply respects_id, stays_refl].
  - revert s. stays_framed.
Qed.

Lemma stays_run trace s : stays s (run s trace).
Proof.
  revert s. induction trace as [|e trace IH]; intros s; [apply stays_refl|].
  eapply stays_trans; [apply stays_step | apply IH].
Qed.

End KeplrStranded.

(** X6.  A pending request of [GetKeplrProvider] that has no listener on
    the event channel, no probe awaited and no connector listening for it
    stays pending and stays so abandoned, whatever happens: no dismissal, no
    pick and no later request reaches it.  The [cleanUp] of another request
    that settles leaves a request so. *)
Theorem keplr_abandoned_request_never_settles
  (s : Keplr.State) (r : nat) (trace : list Keplr.Event) :
  Keplr.promises s !! r = Some Pending →
  Keplr_abandoned s r →
  Keplr.promises (Keplr.run s trace) !! r = Some Pending
  ∧ Keplr_abandoned (Keplr.run s trace) r.
Proof. intros Hp Hab. by apply (stays_run r trace s). Qed.

Lemma keplr_abandoned_request_never_settles_witness :
  Keplr.promises keplrOvertaken = [Resolved (Some (Keplr.KeplrWalletConnectV1 0)); Pending]
  ∧ Keplr.promises
      (Keplr.run keplrOvertaken
         [Keplr.SelectExtension; Keplr.SelectWalletConnect;
          Keplr.QRModalRequestClose; Keplr.SelectModalRequestClose]) !! 1
    = Some Pending.
Proof.
  split; [vm_compute; reflexivity|].
  refine (proj1 (keplr_abandoned_request_never_settles keplrOvertaken 1
                   [Keplr.SelectExtension; Keplr.SelectWalletConnect;
                    Keplr.QRModalRequestClose; Keplr.SelectModalRequestClose]
                   _ _)).
  - vm_compute. reflexivity.
  - assert (Keplr.eventListener keplrOvertaken = ∅) as Hev
      by (vm_compute; reflexivity).
    assert (Keplr.probes keplrOvertaken = []) as Hpr
      by (vm_compute; reflexivity).
    assert (Keplr.connectors keplrOvertaken
            = [{| Keplr.owner := 0; Keplr.hidesSelection := true;
                  Keplr.connected := true; Keplr.onConnect := true |}])
      as Hc by (vm_compute; reflexivity).
    split; [|split].
    + intros name h. rewrite Hev, quiet_empty.
      intros Hh%elem_of_nil. destruct Hh.
    + intros p k. by rewrite Hpr, lookup_nil.
    + intros c k. rewrite Hc. destruct c as [|c]; simpl; [|by rewrite lookup_nil].
      intros [= <-] _. discriminate.
Defined.

(** ** The dismissal of the selection dialog with several requests waiting *)

Lemma settleWith_idemp {V E} (o p : Settlement V E) :
  settleWith o (settleWith o p) = settleWith o p.
Proof. by destruct p, o. Qed.

Lemma lookup_foldl_settle {V E} (o : Settlement V E) rs :
  ∀ (ps : list (Settlement V E)) (r : nat),
  foldl (λ ps r, alter (settleWith o) r ps) ps rs !! r
  = if bool_decide (r ∈ rs) then settleWith o <$> ps !! r else ps !! r.
Proof.
  induction rs as [|r0 rs IH]; intros ps r; [done|].
  cbn [foldl]. rewrite IH. destruct (decide (r = r0)) as [->|Hne].
  - rewrite list_lookup_alter_eq.
    rewrite (bool_decide_eq_true_2 (r0 ∈ r0 :: rs)) by left.
    case_bool_decide; [|done].
    destruct (ps !! r0); simpl; [|done]. by rewrite settleWith_idemp.
  - rewrite list_lookup_alter_ne by done.
    rewrite (bool_decide_ext (r ∈ r0 :: rs) (r ∈ rs)); [done|].
    rewrite elem_of_cons. tauto.
Qed.

Section KeplrDismissal.
Import Keplr KeplrFacts.

Lemma Keplr_dismissals rs : ∀ s,
  let s' := foldl (λ s h, runListener h s) s (OnModalClose <$> rs) in
  promises s'
  = foldl (λ ps r, alter (settleWith (Rejected None)) r ps) (promises s) rs
  ∧ calls s' = calls s ++ ((λ r, Reject r None) <$> rs)
  ∧ lastUsedKeplrRef s' = lastUsedKeplrRef s
  ∧ connectionType s' = connectionType s
  ∧ probes s' = probes s
  ∧ connectors s' = connectors s.
Proof.
  induction rs as [|r rs IH]; intros s; cbv zeta.
  - simpl. by rewrite app_nil_r.
  - rewrite !fmap_cons. cbn [foldl].
    destruct (IH (runListener (OnModalClose r) s))
      as (-> & -> & -> & -> & -> & ->).
    repeat split.
    change (calls (runListener (OnModalClose r) s))
      with (calls s ++ [Reject r None]).
    by rewrite <- app_assoc.
Qed.

Lemma Keplr_dismissals_last rs r s :
  let s' := foldl (λ s h, runListener h s) s (OnModalClose <$> rs ++ [r]) in
  isModalOpen s' = false
  ∧ listeners "modal_close" (eventListener s') = []
  ∧ listeners "select_extension" (eventListener s') = []
  ∧ listeners "select_wallet_connect" (eventListener s') = []
  ∧ listeners "wc_qr_modal_close" (eventListener s') = [].
Proof.
  cbv zeta. rewrite fmap_app, foldl_app. cbn [fmap list_fmap foldl].
  generalize (foldl (λ s h, runListener h s) s (OnModalClose <$> rs)).
  intros s'. split; [done|].
  change (eventListener (runListener (OnModalClose r) s'))
    with (off "connect" (off "wc_qr_modal_close" (off "select_wallet_connect"
            (off "select_extension" (off "modal_close" (eventListener s')))))).
  repeat split; by listeners_norm.
Qed.
End KeplrDismissal.

(** X7.  The dismissal of the selection dialog of [GetKeplrProvider] runs
    the listener of every waiting request: each of them that is pending is
    rejected with nothing, [reject] is called once for each in the order of
    the requests, the other promises are as they were, the dialog is hidden,
    no listener is left under any of the four names, and the cache and
    [connectionType] are as they were. *)
Theorem keplr_dismissal_rejects_every_waiting_request
  (s : Keplr.State) (rs : list nat) :
  listeners "modal_close" (Keplr.eventListener s) = Keplr.OnModalClose <$> rs →
  rs ≠ [] →
  let s' := Keplr.step s Keplr.SelectModalRequestClose in
  (∀ r, r ∈ rs → Keplr.promises s !! r = Some Pending
        → Keplr.promises s' !! r = Some (Rejected None))
  ∧ (∀ r, r ∉ rs → Keplr.promises s' !! r = Keplr.promises s !! r)
  ∧ Keplr.calls s' = Keplr.calls s ++ ((λ r, Keplr.Reject r None) <$> rs)
  ∧ Keplr.isModalOpen s' = false
  ∧ listeners "modal_close" (Keplr.eventListener s') = []
  ∧ listeners "select_extension" (Keplr.eventListener s') = []
  ∧ listeners "select_wallet_connect" (Keplr.eventListener s') = []
  ∧ listeners "wc_qr_modal_close" (Keplr.eventListener s') = []
  ∧ Keplr.lastUsedKeplrRef s' = Keplr.lastUsedKeplrRef s
  ∧ Keplr.connectionType s' = Keplr.connectionType s.
Proof.
  intros Hls Hne s'. subst s'. unfold Keplr.step, Keplr.emit. rewrite Hls.
  destruct (Keplr_dismissals rs s) as (Hp & Hc & Hk & Ht & _).
  split; [|split; [|split; [done|]]].
  - intros r Hr Hpend. rewrite Hp, lookup_foldl_settle, Hpend.
    by rewrite bool_decide_eq_true_2.
  - intros r Hr. rewrite Hp, lookup_foldl_settle.
    by rewrite bool_decide_eq_false_2.
  - destruct rs as [|r rs _] using rev_ind; [done|].
    destruct (Keplr_dismissals_last rs r s) as (? & ? & ? & ? & ?).
    rewrite fmap_app in *. done.
Qed.

Lemma keplr_dismissal_rejects_every_waiting_request_witness :
  let s := Keplr.run (Keplr.initial true false)
             [Keplr.CallGetKeplr; Keplr.CallGetKeplr] in
  Keplr.promises (Keplr.step s Keplr.SelectModalRequestClose) !! 1
  = Some (Rejected None).
Proof.
  intros s.
  refine (proj1 (keplr_dismissal_rejects_every_waiting_request s [0; 1] _ _)
            1 _ _).
  - vm_compute. reflexivity.
  - discriminate.
  - right. left.
  - vm_compute. reflexivity.
Defined.

(** ** A request after the cache was cleared *)

(** X8.  In a browser, the request that follows [clearLastUsedKeplr] or
    [clearLastUsedWallet] is not served from the cache, whatever the cache
    held: its promise is pending (in [GetKeplrProvider] resolved with a new
    wrapper when the preference is the remote method and a session is
    stored), and without a preference the selection dialog is open. *)
Theorem request_after_clear_asks_again :
  (∀ s : Keplr.State,
     Keplr.window s = true →
     let s' := Keplr.getKeplr (Keplr.clearLastUsedKeplr s) in
     Keplr.promises s'
     = Keplr.promises s
       ++ [match Keplr.defaultConnectionTypeRef s, Keplr.sessionStored s with
           | Some Keplr.wallet_connect, true =>
               Resolved
                 (Some (Keplr.KeplrWalletConnectV1 (length (Keplr.connectors s))))
           | _, _ => Pending
           end]
     ∧ (Keplr.defaultConnectionTypeRef s = None → Keplr.isModalOpen s' = true))
  ∧ (∀ (l : list Wallet.WalletInfo) (s : Wallet.State),
     Wallet.window s = true →
     let s' := Wallet.request_getWallet l (Wallet.clearLastUsedWallet s) in
     Wallet.promises s' = Wallet.promises s ++ [Pending]
     ∧ (Wallet.defaultConnectionWalletInfo l s = None
        → Wallet.isModalOpen s' = true)).
Proof.
  split.
  - intros s Hw s'. subst s'.
    destruct (Keplr.defaultConnectionTypeRef s) as [[|]|] eqn:Hp.
    + rewrite KeplrFacts.getKeplr_default_extension by done.
      split; [|done]. by destruct (Keplr.sessionStored s).
    + rewrite KeplrFacts.getKeplr_default_wallet_connect by done.
      cbv zeta.
      change (Keplr.sessionStored (Keplr.clearLastUsedKeplr s))
        with (Keplr.sessionStored s).
      by destruct (Keplr.sessionStored s).
    + rewrite KeplrFacts.getKeplr_prompt by done.
      split; [|done]. by destruct (Keplr.sessionStored s).
  - intros l s Hw s'. subst s'.
    destruct (Wallet.defaultConnectionWalletInfo l s) as [info|] eqn:Hd.
    + rewrite (WalletFacts.request_getWallet_default l _ info); done.
    + rewrite WalletFacts.request_getWallet_prompt by done.
      unfold seq. cbn [foldl]. rewrite Wallet_register_frame. done.
Qed.

Lemma request_after_clear_asks_again_witness :
  Keplr.promises
    (Keplr.getKeplr
       (Keplr.clearLastUsedKeplr
          (Keplr.run (Keplr.initial true false)
             [Keplr.CallGetKeplr; Keplr.SelectExtension;
              Keplr.KeplrFromWindow 0 (Some (Keplr.Injected 7))])))
  = [Resolved (Some (Keplr.Injected 7)); Pending]
  ∧ Wallet.promises
      (Wallet.request_getWallet scenarioMethods
         (Wallet.clearLastUsedWallet
            (Wallet.run scenarioMethods (Wallet.initial true false)
               [Wallet.CallGetWallet; Wallet.SelectWallet "extension";
                Wallet.GetWalletSettled 0
                  (Wallet.Fulfilled (Wallet.object 7))])))
    = [Resolved (Wallet.object 7); Pending].
Proof.
  split.
  - exact (proj1 (proj1 request_after_clear_asks_again
             (Keplr.run (Keplr.initial true false)
                [Keplr.CallGetKeplr; Keplr.SelectExtension;
                 Keplr.KeplrFromWindow 0 (Some (Keplr.Injected 7))])
             eq_refl)).
  - exact (proj1 (proj2 request_after_clear_asks_again scenarioMethods
             (Wallet.run scenarioMethods (Wallet.initial true false)
                [Wallet.CallGetWallet; Wallet.SelectWallet "extension";
                 Wallet.GetWalletSettled 0
                   (Wallet.Fulfilled (Wallet.object 7))])
             eq_refl)).
Defined.

(** ** What holds of every state [GetWalletProvider] reaches *)

Section EventEmitterMembership.
Context {H : Type}.
Implicit Types (ev : gmap string (list H)) (h : H).

Lemma elem_of_on name name' h h' ev :
  h' ∈ listeners name (on name' h ev)
  ↔ h' ∈ listeners name ev ∨ (name' = name ∧ h' = h).
Proof.
  destruct (decide (name' = name)) as [->|Hne].
  - rewrite listeners_on, elem_of_app, list_elem_of_singleton. tauto.
  - rewrite listeners_on_ne by done. tauto.
Qed.

Lemma elem_of_off name name' h ev :
  h ∈ listeners name (off name' ev) ↔ name' ≠ name ∧ h ∈ listeners name ev.
Proof.
  destruct (decide (name' = name)) as [->|Hne].
  - rewrite listeners_off, elem_of_nil. tauto.
  - rewrite listeners_off_ne by done. tauto.
Qed.
End EventEmitterMembership.

Section WalletWellFormed.
Import Wallet WalletFacts.
Variable l : list WalletInfo.
#[local] Abbreviation WF := (Wallet_wellFormed l).
#[local] Abbreviation keeps := (Wallet_keepsWellFormed l).

Lemma keeps_refl s : keeps s s.
Proof. by intros ?. Qed.

Lemma keeps_trans s1 s2 s3 : keeps s1 s2 → keeps s2 s3 → keeps s1 s3.
Proof. unfold Wallet_keepsWellFormed. tauto. Qed.

Ltac keeps_seq :=
  apply (respects_seq keeps keeps_refl keeps_trans); split_Forall.

Lemma keeps_frame (f : State → State) :
  (∀ s, promises (f s) = promises s ∧ eventListener (f s) = eventListener s
        ∧ connectors (f s) = connectors s ∧ awaits (f s) = awaits s
        ∧ connectionType (f s) = connectionType s
        ∧ lastUsedWalletRef (f s) = lastUsedWalletRef s) →
  respects keeps f.
Proof.
  intros Hf s [H1 H2 H3 H4 H5].
  destruct (Hf s) as (Hp & Hev & Hc & Ha & Ht & Hw).
  split; rewrite ?Hp, ?Hev, ?Hc, ?Ha, ?Ht, ?Hw; done.
Qed.

Ltac keeps_framed := apply keeps_frame; intros []; repeat split; reflexivity.

Lemma waitingOrFailed_app (ps : list Promise) r p :
  Wallet_waitingOrFailed (ps !! r) → Wallet_waitingOrFailed ((ps ++ [p]) !! r).
Proof.
  intros [Hp|[e Hp]]; [left|right; exists e]; by apply lookup_app_l_Some.
Qed.

Lemma waitingOrFailed_fail (ps : list Promise) r r' e :
  Wallet_waitingOrFailed (ps !! r) →
  Wallet_waitingOrFailed
    (alter (settleWith (Rejected (Some e))) r' ps !! r).
Proof.
  intros Hp. destruct (decide (r' = r)) as [->|Hne].
  - rewrite list_lookup_alter_eq.
    destruct Hp as [->|[e' ->]]; simpl; [right; by exists e|right; by exists e'].
  - by rewrite list_lookup_alter_ne.
Qed.

Lemma keeps_newPromise p : respects keeps (newPromise p).
Proof.
  intros s [H1 H2 H3 H4 H5]. split; try done.
  intros name h Hh. destruct (H1 name h Hh) as (Hp & Hn & Hl).
  split; [|done]. simpl. by apply waitingOrFailed_app.
Qed.

Lemma keeps_fail r e : respects keeps (fulfil r (Rejected (Some e))).
Proof.
  intros s [H1 H2 H3 H4 H5]. split; try done.
  intros name h Hh. destruct (H1 name h Hh) as (Hp & Hn & Hl).
  split; [|done]. simpl. by apply waitingOrFailed_fail.
Qed.

Lemma keeps_reject_error r e : respects keeps (reject r (Some e)).
Proof. unfold reject. keeps_seq; [keeps_framed | apply keeps_fail]. Qed.

Lemma keeps_newWalletConnect r : respects keeps (newWalletConnect r).
Proof.
  intros s [H1 H2 H3 H4 H5]. split; try done.
  intros c k info [[_ Hk]|[_ <-]]%lookup_snoc_Some; [by eapply H2|].
  simpl. by intros ?%elem_of_nil.
Qed.

Lemma keeps_resolveWallet r c info b :
  info ∈ l → respects keeps (resolveWallet r c info b).
Proof.
  intros Hin. unfold resolveWallet. keeps_seq; [keeps_framed|].
  intros s [H1 H2 H3 H4 H5]. split; try done.
  intros k a [[_ Hk]|[_ [= <-]]]%lookup_snoc_Some; [by eapply H3 | done].
Qed.

Lemma keeps_connector_onConnect c info :
  info ∈ l → respects keeps (connector_onConnect c info).
Proof.
  intros Hin s [H1 H2 H3 H4 H5]. split; try done.
  intros c' k info' Hk Hin'. simpl in Hk.
  destruct (decide (c = c')) as [<-|Hne].
  - rewrite list_lookup_alter_eq in Hk.
    destruct (connectors s !! c) as [k0|] eqn:Hk0; simplify_eq/=.
    apply elem_of_app in Hin' as [Hin'|Hin'%list_elem_of_singleton];
      [by eapply H2 | by subst].
  - rewrite list_lookup_alter_ne in Hk by done. by eapply H2.
Qed.

Lemma keeps_markConnected c : respects keeps (markConnected c).
Proof.
  intros s [H1 H2 H3 H4 H5]. split; try done.
  intros c' k info Hk Hin. simpl in Hk.
  destruct (decide (c = c')) as [<-|Hne].
  - rewrite list_lookup_alter_eq in Hk.
    destruct (connectors s !! c) as [k0|] eqn:Hk0; simplify_eq/=.
    by eapply H2.
  - rewrite list_lookup_alter_ne in Hk by done. by eapply H2.
Qed.

Lemma Wallet_elem_of_unregister name h s :
  h ∈ listeners name
        (eventListener
           (foldl (λ s info, eventListener_off (id info) s) s l)) →
  h ∈ listeners name (eventListener s) ∧ ∀ info, info ∈ l → id info ≠ name.
Proof.
  revert s. induction l as [|info l' IH]; intros s Hh.
  - split; [done|]. by intros info ?%elem_of_nil.
  - cbn [foldl] in Hh. apply IH in Hh as [Hh Hl'].
    apply elem_of_off in Hh as [Hne Hh]. split; [done|].
    intros info' [->|Hin]%elem_of_cons; [done | by apply Hl'].
Qed.

Lemma Wallet_cleanUp_quiet s :
  (∀ name h, h ∈ listeners name (eventListener s) → Wallet_eventName l name) →
  quiet (eventListener (cleanUp l s)).
Proof.
  intros Hn name. apply elem_of_nil_inv. intros h Hh.
  unfold cleanUp, seq in Hh. cbn [foldl] in Hh.
  apply Wallet_elem_of_unregister in Hh as [Hh Hl].
  apply elem_of_off in Hh as [H2 Hh]. apply elem_of_off in Hh as [H1 Hh].
  destruct (Hn name h Hh) as [->|[->|(info & Hin & Hid)]]; [done..|].
  by apply (Hl info).
Qed.

Lemma Wallet_cleanUp_fields s :
  promises (cleanUp l s) = promises s
  ∧ connectors (cleanUp l s) = connectors s
  ∧ awaits (cleanUp l s) = awaits s
  ∧ connectionType (cleanUp l s) = connectionType s
  ∧ lastUsedWalletRef (cleanUp l s) = lastUsedWalletRef s.
Proof. rewrite cleanUp_eq. repeat split. Qed.

(** A state without listeners is well formed when the rest is. *)
Lemma Wallet_wellFormed_quiet s s' :
  quiet (eventListener s') →
  connectors s' = connectors s → awaits s' = awaits s →
  (connectionType s' = connectionType s
   ∧ lastUsedWalletRef s' = lastUsedWalletRef s
   ∨ ∃ info, info ∈ l ∧ connectionType s' = Some (id info)) →
  WF s → WF s'.
Proof.
  intros Hq Hc Ha Ht [H1 H2 H3 H4 H5]. split.
  - intros name h. rewrite Hq. by intros ?%elem_of_nil.
  - by rewrite Hc.
  - by rewrite Ha.
  - destruct Ht as [[-> _]|(info & Hin & ->)]; [done|].
    intros t [= <-]. by exists info.
  - destruct Ht as [[-> ->]|(info & Hin & ->)]; [done|]. by eexists.
Qed.

Lemma keeps_OnModalClose r : respects keeps (runListener l (OnModalClose r)).
Proof.
  intros s Hs. unfold runListener, seq. cbn [foldl].
  destruct (Wallet_cleanUp_fields (reject r None (setIsModalOpen false s)))
    as (_ & Hc & Ha & Ht & Hw).
  apply (Wallet_wellFormed_quiet s); [|done..|by left|done].
  apply Wallet_cleanUp_quiet. intros name h Hh.
  by destruct (wallet_wf_listeners l s Hs name h Hh) as (_ & ? & _).
Qed.

Lemma keeps_runListener h :
  Wallet_listed l h → respects keeps (runListener l h).
Proof.
  intros Hl. destruct h as [r|r|r c info].
  - apply keeps_OnModalClose.
  - unfold runListener. keeps_seq; [keeps_framed|].
    intros s. destruct (callbackClosed s !! r);
      [revert s; keeps_framed | apply keeps_refl].
  - simpl in Hl. unfold runListener. keeps_seq; [keeps_framed|].
    intros s. destruct (String.prefix _ _); [|by apply keeps_resolveWallet].
    destruct (negb _); [|by apply keeps_resolveWallet].
    revert s. keeps_seq; [keeps_framed | by apply keeps_connector_onConnect].
Qed.

Lemma keeps_emit name s : keeps s (emit l name s).
Proof.
  intros Hs. unfold emit.
  apply (foldl_invariant WF (Wallet_listed l) (runListener l)); [| |done].
  - intros h s' Hh. by apply keeps_runListener.
  - apply Forall_forall. intros h Hh.
    by destruct (wallet_wf_listeners l s Hs name h Hh) as (_ & _ & ?).
Qed.

Lemma keeps_resumeResolveWallet a res :
  walletInfo a ∈ l → respects keeps (resumeResolveWallet l a res).
Proof.
  intros Hin s Hs. destruct res as [wallet|reason]; unfold resumeResolveWallet.
  - unfold seq. cbn [foldl].
    destruct (Wallet_cleanUp_fields
                (setConnectionType (Some (id (walletInfo a)))
                   (setLastUsedWallet wallet s)))
      as (_ & Hc & Ha & Ht & Hw).
    apply (Wallet_wellFormed_quiet s); [| | | |done].
    + assert (quiet (eventListener (cleanUp l
                (setConnectionType (Some (id (walletInfo a)))
                   (setLastUsedWallet wallet s))))) as Hq.
      { apply Wallet_cleanUp_quiet. intros name h Hh.
        by destruct (wallet_wf_listeners l s Hs name h Hh) as (_ & ? & _). }
      by destruct (resolver a).
    + by destruct (resolver a).
    + by destruct (resolver a).
    + right. exists (walletInfo a). split; [done|].
      by destruct (resolver a).
  - destruct (resolver a); [done|]. by apply keeps_fail.
Qed.

Lemma Wallet_find_listed s info :
  defaultConnectionWalletInfo l s = Some info → info ∈ l.
Proof.
  unfold defaultConnectionWalletInfo. intros Hf.
  apply List.find_some in Hf as [Hin _]. by apply list_elem_of_In.
Qed.

Lemma keeps_request_getWallet s : keeps s (request_getWallet l s).
Proof.
  unfold request_getWallet.
  destruct (negb (window s)); [apply keeps_newPromise|].
  destruct (truthy (lastUsedWalletRef s)); [apply keeps_newPromise|].
  cbv zeta.
  change (defaultConnectionWalletInfo l (newWalletConnect _ s))
    with (defaultConnectionWalletInfo l s).
  destruct (defaultConnectionWalletInfo l s) as [info|] eqn:Hd.
  - apply Wallet_find_listed in Hd.
    apply keeps_trans with (newWalletConnect (length (promises s)) s);
      [apply keeps_newWalletConnect|].
    generalize (newWalletConnect (length (promises s)) s).
    keeps_seq; [apply keeps_newPromise | by apply keeps_resolveWallet].
  - apply keeps_trans with (newWalletConnect (length (promises s)) s);
      [apply keeps_newWalletConnect|].
    intros Hs. unfold seq. cbn [foldl].
    match goal with
    | |- context [foldl ?f ?s0 l] =>
        rewrite (Wallet_register_frame (length (promises s))
                   (length (connectors s)) l s0)
    end.
    destruct Hs as [H1 H2 H3 H4 H5]. split; try done.
    intros name h Hh. simpl in Hh.
    rewrite Wallet_listeners_register in Hh.
    apply elem_of_app in Hh as [Hh|Hh].
    + simpl in Hh. apply elem_of_on in Hh as [Hh|[<- ->]].
      * apply elem_of_on in Hh as [Hh|[<- ->]].
        -- destruct (H1 name h Hh) as (Hp & Hn & Hl). split; [|done].
           simpl. by apply waitingOrFailed_app.
        -- split; [|split; [by left | done]].
           left. simpl. by apply list_lookup_middle.
      * split; [|split; [right; by left | done]].
        left. simpl. by apply list_lookup_middle.
    + apply list_elem_of_fmap in Hh as (info & -> & Hin).
      apply list_elem_of_filter in Hin as [Hid Hin].
      split; [|split; [right; right; by exists info | done]].
      left. simpl. by apply list_lookup_middle.
Qed.

Lemma keeps_step e s : keeps s (step l s e).
Proof.
  destruct e; unfold step; try apply keeps_emit.
  - apply keeps_request_getWallet.
  - intros [H1 H2 H3 H4 H5]. split; try done.
  - revert s. keeps_framed.
  - destruct (awaits s !! await) as [[a|]|] eqn:Ha; try apply keeps_refl.
    intros Hs. assert (walletInfo a ∈ l) as Hin
      by (by eapply (wallet_wf_awaits l s Hs)).
    revert Hs. clear Ha. revert s.
    keeps_seq; [|by apply keeps_resumeResolveWallet].
    intros s [H1 H2 H3 H4 H5]. split; try done.
    intros k a' Hk. simpl in Hk.
    destruct (decide (await = k)) as [<-|Hne].
    + apply list_lookup_insert_Some in Hk as [(_ & [=] & _)|[? _]]; done.
    + rewrite list_lookup_insert_ne in Hk by done. by eapply H3.
  - unfold qrcodeModal_open. destruct (connectors s !! connector);
      [|apply keeps_refl].
    revert s. keeps_seq; keeps_framed.
  - unfold qrcodeModal_close. destruct (connectors s !! connector);
      [revert s; keeps_framed | apply keeps_refl].
  - destruct (connectors s !! connector) as [k|] eqn:Hk; [|apply keeps_refl].
    intros Hs. assert (Forall (λ info, info ∈ l) (onConnect k)) as Hon.
    { apply Forall_forall. intros info Hin.
      by eapply (wallet_wf_connectors l s Hs). }
    revert Hs. clear Hk. revert s. keeps_seq.
    + destruct error; [apply respects_id, keeps_refl | apply keeps_markConnected].
    + intros s Hs.
      apply (foldl_invariant WF (λ info, info ∈ l)
               (λ info, onConnectListener (owner k) connector info error));
        [|done..].
      intros info s' Hin. unfold onConnectListener.
      destruct error; [apply keeps_reject_error | by apply keeps_resolveWallet].
  - revert s. keeps_framed.
Qed.

Lemma Wallet_wellFormed_initial w stored : WF (initial w stored).
Proof.
  split.
  - intros name h. simpl. rewrite quiet_empty. by intros ?%elem_of_nil.
  - intros c k info. simpl. by rewrite lookup_nil.
  - intros k a. simpl. by rewrite lookup_nil.
  - by intros t [=].
  - by intros [=].
Qed.

Lemma Wallet_wellFormed_run trace s : keeps s (run l s trace).
Proof.
  revert s. induction trace as [|e trace IH]; intros s; [apply keeps_refl|].
  eapply keeps_trans; [apply keeps_step | apply IH].
Qed.

End WalletWellFormed.

(** X9.  In every state [GetWalletProvider] reaches, a request with a
    listener still registered is pending or was rejected with the error of
    a pairing: a request that was resolved, or rejected by the dismissal of
    the selection dialog, has no listener left. *)
Theorem wallet_subscribed_request_is_pending_or_failed
  (l : list Wallet.WalletInfo) (w stored : bool) (trace : list Wallet.Event)
  (name : string) (h : Wallet.Listener) :
  let s := Wallet.run l (Wallet.initial w stored) trace in
  h ∈ listeners name (Wallet.eventListener s) →
  Wallet.promises s !! Wallet_listenerRequest h = Some Pending
  ∨ ∃ error,
      Wallet.promises s !! Wallet_listenerRequest h
      = Some (Rejected (Some error)).
Proof.
  intros s Hh.
  assert (Wallet_wellFormed l s) as Hs
    by apply Wallet_wellFormed_run, Wallet_wellFormed_initial.
  by destruct (wallet_wf_listeners l s Hs name h Hh) as (? & _).
Qed.

Lemma wallet_subscribed_request_is_pending_or_failed_witness :
  Wallet.OnModalClose 0
    ∈ listeners "modal_close"
        (Wallet.eventListener
           (Wallet.run scenarioMethods (Wallet.initial true false)
              [Wallet.CallGetWallet; Wallet.SelectWallet "walletconnect";
               Wallet.Connect 0 (Some "rejected")]))
  ∧ (Wallet.promises
       (Wallet.run scenarioMethods (Wallet.initial true false)
          [Wallet.CallGetWallet; Wallet.SelectWallet "walletconnect";
           Wallet.Connect 0 (Some "rejected")])
     !! Wallet_listenerRequest (Wallet.OnModalClose 0) = Some Pending
     ∨ ∃ error,
         Wallet.promises
           (Wallet.run scenarioMethods (Wallet.initial true false)
              [Wallet.CallGetWallet; Wallet.SelectWallet "walletconnect";
               Wallet.Connect 0 (Some "rejected")])
         !! Wallet_listenerRequest (Wallet.OnModalClose 0)
         = Some (Rejected (Some error))).
Proof.
  assert (Wallet.OnModalClose 0
            ∈ listeners "modal_close"
                (Wallet.eventListener
                   (Wallet.run scenarioMethods (Wallet.initial true false)
                      [Wallet.CallGetWallet;
                       Wallet.SelectWallet "walletconnect";
                       Wallet.Connect 0 (Some "rejected")]))) as Hin.
  { assert (listeners "modal_close"
              (Wallet.eventListener
                 (Wallet.run scenarioMethods (Wallet.initial true false)
                    [Wallet.CallGetWallet;
                     Wallet.SelectWallet "walletconnect";
                     Wallet.Connect 0 (Some "rejected")]))
            = [Wallet.OnModalClose 0]) as -> by (vm_compute; reflexivity).
    apply list_elem_of_In. by left. }
  split; [exact Hin|].
  exact (wallet_subscribed_request_is_pending_or_failed scenarioMethods
           true false
           [Wallet.CallGetWallet; Wallet.SelectWallet "walletconnect";
            Wallet.Connect 0 (Some "rejected")]
           "modal_close" (Wallet.OnModalClose 0) Hin).
Defined.

(** X10.  In every state [GetWalletProvider] reaches, [connectionType] is
    the id of a descriptor of [walletInfoList], and it is set whenever the
    cache holds a wallet. *)
Theorem wallet_connectionType_names_listed_wallet
  (l : list Wallet.WalletInfo) (w stored : bool) (trace : list Wallet.Event) :
  let s := Wallet.run l (Wallet.initial w stored) trace in
  (∀ t, Wallet.connectionType s = Some t →
        ∃ info, info ∈ l ∧ Wallet.id info = t)
  ∧ (Wallet.truthy (Wallet.lastUsedWalletRef s) = true →
     ∃ info, info ∈ l ∧ Wallet.connectionType s = Some (Wallet.id info)).
Proof.
  intros s.
  assert (Wallet_wellFormed l s) as [_ _ _ H4 H5]
    by apply Wallet_wellFormed_run, Wallet_wellFormed_initial.
  split; [done|]. intros [t Ht]%H5. destruct (H4 t Ht) as (info & ? & <-).
  by exists info.
Qed.

Lemma wallet_connectionType_names_listed_wallet_witness :
  ∃ info, info ∈ scenarioMethods
    ∧ Wallet.connectionType
        (Wallet.run scenarioMethods (Wallet.initial true false)
           [Wallet.CallGetWallet; Wallet.SelectWallet "extension";
            Wallet.GetWalletSettled 0 (Wallet.Fulfilled (Wallet.object 7))])
      = Some (Wallet.id info).
Proof.
  apply (proj2 (wallet_connectionType_names_listed_wallet scenarioMethods
                  true false
                  [Wallet.CallGetWallet; Wallet.SelectWallet "extension";
                   Wallet.GetWalletSettled 0
                     (Wallet.Fulfilled (Wallet.object 7))])).
  vm_compute. reflexivity.
Defined.

(** X11.  In every state either broker reaches, no listener is registered
    for the request that will be made next: the listeners a new request
    registers are the only ones of that request. *)
Theorem no_listener_of_a_request_to_come :
  (∀ (w stored : bool) (trace : list Keplr.Event),
     let s := Keplr.run (Keplr.initial w stored) trace in
     Keplr_noListenerOf (length (Keplr.promises s)) s)
  ∧ (∀ (l : list Wallet.WalletInfo) (w stored : bool)
       (trace : list Wallet.Event),
     let s := Wallet.run l (Wallet.initial w stored) trace in
     Wallet_noListenerOf (length (Wallet.promises s)) s).
Proof.
  split.
  - intros w stored trace s. apply Keplr_hygienic_noListenerOf.
    apply (Keplr.wf_hygienic s).
    apply KeplrFacts.wellFormed_run, KeplrFacts.wellFormed_initial.
  - intros l w stored trace s name h Hh.
    assert (Wallet_wellFormed l s) as Hs
      by apply Wallet_wellFormed_run, Wallet_wellFormed_initial.
    destruct (wallet_wf_listeners l s Hs name h Hh) as ([Hp|[e Hp]] & _);
      apply lookup_lt_Some in Hp; lia.
Qed.

(** ** A resolver that yields nothing *)

(** X12.  When the resolver a request of [GetWalletProvider] awaits is
    fulfilled with a falsy value ([undefined], [null], [false], [0], the
    empty string), the request is resolved with it and [connectionType] is
    set, but the cache test of the next request fails: that request is
    pending, not served from the cache. *)
Theorem wallet_falsy_answer_is_not_cached
  (l : list Wallet.WalletInfo) (s : Wallet.State) (a : nat)
  (aw : Wallet.Awaiting) (wallet : Wallet.Any) :
  Wallet.window s = true →
  Wallet.awaits s !! a = Some (Some aw) →
  Wallet.promises s !! Wallet.request aw = Some Pending →
  Wallet.truthy wallet = false →
  let s' := Wallet.step l s
              (Wallet.GetWalletSettled a (Wallet.Fulfilled wallet)) in
  Wallet.promises s' !! Wallet.request aw = Some (Resolved wallet)
  ∧ Wallet.lastUsedWalletRef s' = wallet
  ∧ Wallet.connectionType s' = Some (Wallet.id (Wallet.walletInfo aw))
  ∧ Wallet.promises (Wallet.step l s' Wallet.CallGetWallet)
    = Wallet.promises s' ++ [Pending].
Proof.
  intros Hw Ha Hp Ht s'. subst s'.
  rewrite (WalletFacts.step_GetWalletSettled l s a aw _ Ha).
  destruct (WalletFacts.resumeResolveWallet_fulfilled l aw wallet
              (Wallet.setAwaits (<[a := None]> (Wallet.awaits s)) s))
    as (Hp' & Hc' & Ht' & _); [done|].
  split; [exact Hp'|]. split; [exact Hc'|]. split; [exact Ht'|].
  set (s' := Wallet.resumeResolveWallet l aw (Wallet.Fulfilled wallet) _)
    in *.
  assert (Wallet.window s' = true) as Hw'.
  { destruct (WalletFacts.outcomeKept_resumeResolveWallet l aw
                (Wallet.Fulfilled wallet)
                (Wallet.setAwaits (<[a := None]> (Wallet.awaits s)) s))
      as [Hw' _]. fold s' in Hw'. by rewrite Hw'. }
  assert (Wallet.truthy (Wallet.lastUsedWalletRef s') = false) as Hf
    by (by rewrite Hc').
  destruct (Wallet.defaultConnectionWalletInfo l s') as [info|] eqn:Hd.
  - by destruct (Wallet_request_preferred l s' Hw' info Hf Hd) as [-> _].
  - by destruct (Wallet_request_prompts l s' Hw' Hf Hd) as [-> _].
Qed.

Lemma wallet_falsy_answer_is_not_cached_witness :
  Wallet.promises
    (Wallet.step scenarioMethods
       (Wallet.step scenarioMethods walletAwaitingResolver
          (Wallet.GetWalletSettled 0 (Wallet.Fulfilled Wallet.undefined)))
       Wallet.CallGetWallet)
  = Wallet.promises
      (Wallet.step scenarioMethods walletAwaitingResolver
         (Wallet.GetWalletSettled 0 (Wallet.Fulfilled Wallet.undefined)))
    ++ [Pending].
Proof.
  exact (proj2 (proj2 (proj2
    (wallet_falsy_answer_is_not_cached scenarioMethods walletAwaitingResolver
       0 (Wallet_picked 0 extensionInfo) Wallet.undefined
       eq_refl eq_refl eq_refl eq_refl)))).
Defined.
